(** * Lumina JSON (json-toolkit-web): escape engine, session controller,
      path addressing and tree view state.

    A shallow embedding of [src/App.tsx] and of the [JsonTree] component,
    together with the properties of the design document that concern them.
    The program is verified against the interface of the host's JSON object;
    where a property depends on what [JSON.parse] and [JSON.stringify]
    compute, it is stated for the JSON object of ECMA-262 ([Ecma]). *)

From Stdlib Require Import Ascii String.
From Stdlib Require Import List NArith ZArith Bool Arith Lia.
From Stdlib Require Import Floats.SpecFloat.
From Stdlib Require Import DecimalNat DecimalFacts.
From Stdlib Require Decimal.
Import ListNotations.

Local Open Scope N_scope.
Set Warnings "-register-all".

(** ** Strings

    A JavaScript string is a sequence of UTF-16 code units.  None of the
    regular expressions of the program carries the [u] flag, so they all work
    on code units, and so does this model. *)

Definition char := N.
Definition string := list char.

Module Ch.
Definition BS : char := 8.          (* \b, backspace *)
Definition TAB : char := 9.         (* \t *)
Definition LF : char := 10.         (* \n *)
Definition VT : char := 11.         (* \v *)
Definition FF : char := 12.         (* \f *)
Definition CR : char := 13.         (* \r *)
Definition SPACE : char := 32.
Definition QUOTE : char := 34.      (* double quote *)
Definition DOT : char := 46.        (* . *)
Definition LBRACKET : char := 91.   (* [ *)
Definition BACKSLASH : char := 92.  (* \ *)
Definition RBRACKET : char := 93.   (* ] *)
Definition b : char := 98.
Definition f : char := 102.
Definition n : char := 110.
Definition r : char := 114.
Definition t : char := 116.
End Ch.

Fixpoint string_eqb (s1 s2 : string) : bool :=
  match s1, s2 with
  | [], [] => true
  | c1 :: r1, c2 :: r2 => (c1 =? c2) && string_eqb r1 r2
  | _, _ => false
  end.

(** [starts_with pat s]: the literal pattern [pat] matches at the head of [s]. *)
Fixpoint starts_with (pat s : string) : bool :=
  match pat, s with
  | [], _ => true
  | p :: pat', c :: s' => (p =? c) && starts_with pat' s'
  | _ :: _, [] => false
  end.

(** [str.replace(/pat/g, rep)] for a literal, non-empty pattern and a
    replacement without [$]: the matcher scans from left to right; where the
    pattern matches, the replacement is emitted and the scan resumes after the
    match, otherwise the code unit is copied.  [skip] counts the code units of
    the current match that are still to be passed over. *)
Fixpoint replace_from (pat rep : string) (skip : nat) (s : string) : string :=
  match s with
  | [] => []
  | c :: s' =>
      match skip with
      | S k => replace_from pat rep k s'
      | O =>
          if starts_with pat s
          then rep ++ replace_from pat rep (Nat.pred (length pat)) s'
          else c :: replace_from pat rep O s'
      end
  end.

Definition replaceAll (pat rep : string) (s : string) : string :=
  replace_from pat rep O s.

(** ** escapeString / unescapeString (App.tsx, lines 80-98) *)

Definition escapeString (str : string) : string :=
  replaceAll [Ch.FF] [Ch.BACKSLASH; Ch.f]
    (replaceAll [Ch.BS] [Ch.BACKSLASH; Ch.b]
      (replaceAll [Ch.TAB] [Ch.BACKSLASH; Ch.t]
        (replaceAll [Ch.CR] [Ch.BACKSLASH; Ch.r]
          (replaceAll [Ch.LF] [Ch.BACKSLASH; Ch.n]
            (replaceAll [Ch.QUOTE] [Ch.BACKSLASH; Ch.QUOTE]
              (replaceAll [Ch.BACKSLASH] [Ch.BACKSLASH; Ch.BACKSLASH] str)))))).

Definition unescapeString (str : string) : string :=
  replaceAll [Ch.BACKSLASH; Ch.BACKSLASH] [Ch.BACKSLASH]
    (replaceAll [Ch.BACKSLASH; Ch.QUOTE] [Ch.QUOTE]
      (replaceAll [Ch.BACKSLASH; Ch.f] [Ch.FF]
        (replaceAll [Ch.BACKSLASH; Ch.b] [Ch.BS]
          (replaceAll [Ch.BACKSLASH; Ch.t] [Ch.TAB]
            (replaceAll [Ch.BACKSLASH; Ch.r] [Ch.CR]
              (replaceAll [Ch.BACKSLASH; Ch.n] [Ch.LF] str)))))).

(** The per-code-unit view of [escapeString]. *)
Definition escapeChar (c : char) : string :=
  if c =? Ch.BACKSLASH then [Ch.BACKSLASH; Ch.BACKSLASH]
  else if c =? Ch.QUOTE then [Ch.BACKSLASH; Ch.QUOTE]
  else if c =? Ch.LF then [Ch.BACKSLASH; Ch.n]
  else if c =? Ch.CR then [Ch.BACKSLASH; Ch.r]
  else if c =? Ch.TAB then [Ch.BACKSLASH; Ch.t]
  else if c =? Ch.BS then [Ch.BACKSLASH; Ch.b]
  else if c =? Ch.FF then [Ch.BACKSLASH; Ch.f]
  else [c].

(** The second code unit of the seven escape sequences: backslash followed
    by a backslash, a double quote, or one of the letters n, r, t, b, f. *)
Definition isEscapeLetter (c : char) : bool :=
  (c =? Ch.BACKSLASH) || (c =? Ch.QUOTE) || (c =? Ch.n) || (c =? Ch.r)
  || (c =? Ch.t) || (c =? Ch.b) || (c =? Ch.f).

(** The code units [escapeString] rewrites. *)
Definition isEscaped (c : char) : bool :=
  (c =? Ch.BACKSLASH) || (c =? Ch.QUOTE) || (c =? Ch.LF) || (c =? Ch.CR)
  || (c =? Ch.TAB) || (c =? Ch.BS) || (c =? Ch.FF).

(** A control character in the sense of the JSON grammar: U+0000..U+001F. *)
Definition isControl (c : char) : bool := c <? 32.

(** [escaped_form raw s]: reading [s] from the left, every backslash starts
    one of the seven escape sequences, and outside the sequences no code unit
    satisfies [raw] (the code units that must not appear unescaped). *)
Fixpoint escaped_form (raw : char -> bool) (s : string) : bool :=
  match s with
  | [] => true
  | c :: s' =>
      if c =? Ch.BACKSLASH then
        match s' with
        | d :: s'' => isEscapeLetter d && escaped_form raw s''
        | [] => false
        end
      else negb (raw c) && escaped_form raw s'
  end.

(** What the design document asks of [escape]: no unescaped control
    character, quote or backslash. *)
Definition no_raw_special (s : string) : bool :=
  escaped_form (fun c => isControl c || (c =? Ch.QUOTE)) s.

(** What [escapeString] achieves: none of the code units it rewrites is left
    unescaped. *)
Definition no_raw_escaped (s : string) : bool :=
  escaped_form (fun c => isEscaped c) s.


(** Literals of the program text, written as Rocq strings. *)
Definition lit (s : String.string) : string :=
  map Ascii.N_of_ascii (String.list_ascii_of_string s).
Arguments lit s%_string.

(** JavaScript truthiness of a string: the empty string is falsy. *)
Definition truthy (s : string) : bool :=
  match s with
  | [] => false
  | _ :: _ => true
  end.

(** Truthiness of a [string | null] or [string | undefined]. *)
Definition truthy_opt (o : option string) : bool :=
  match o with
  | Some s => truthy s
  | None => false
  end.

(** [String.prototype.trim]: the code units of WhiteSpace and LineTerminator
    (ECMAScript 2023, 12.2 and 12.3). *)
Definition isWhiteSpace (c : char) : bool :=
  (c =? 9) || (c =? 10) || (c =? 11) || (c =? 12) || (c =? 13) || (c =? 32)
  || (c =? 160) || (c =? 5760) || ((8192 <=? c) && (c <=? 8202))
  || (c =? 8232) || (c =? 8233) || (c =? 8239) || (c =? 8287)
  || (c =? 12288) || (c =? 65279).

Fixpoint trimStart (s : string) : string :=
  match s with
  | [] => []
  | c :: s' => if isWhiteSpace c then trimStart s' else s
  end.

Definition trimEnd (s : string) : string := rev (trimStart (rev s)).

Definition trim (s : string) : string := trimEnd (trimStart s).

(** ** Values (types.ts, [JsonValue])

    A number is an IEEE 754 binary64 value.  An object is the list of its own
    enumerable properties in the order [Object.keys] enumerates them. *)

Inductive JsonValue : Type :=
| JNull
| JBoolean (b : bool)
| JNumber (x : spec_float)
| JString (s : string)
| JArray (items : list JsonValue)
| JObject (members : list (string * JsonValue)).

(** Induction on a value, with the hypothesis for every element and
    member. *)
Fixpoint JsonValue_nested_ind (P : JsonValue -> Prop)
  (HNull : P JNull) (HBoolean : forall b, P (JBoolean b))
  (HNumber : forall x, P (JNumber x)) (HString : forall s, P (JString s))
  (HArray : forall items, Forall P items -> P (JArray items))
  (HObject : forall members,
      Forall (fun m => P (snd m)) members -> P (JObject members))
  (v : JsonValue) : P v :=
  match v with
  | JNull => HNull
  | JBoolean b => HBoolean b
  | JNumber x => HNumber x
  | JString s => HString s
  | JArray items =>
      HArray items
        ((fix each (l : list JsonValue) : Forall P l :=
            match l with
            | [] => Forall_nil P
            | x :: rest =>
                Forall_cons x
                  (JsonValue_nested_ind P HNull HBoolean HNumber HString
                     HArray HObject x)
                  (each rest)
            end) items)
  | JObject members =>
      HObject members
        ((fix each (l : list (string * JsonValue))
            : Forall (fun m => P (snd m)) l :=
            match l with
            | [] => Forall_nil _
            | m :: rest =>
                Forall_cons m
                  (JsonValue_nested_ind P HNull HBoolean HNumber HString
                     HArray HObject (snd m))
                  (each rest)
            end) members)
  end.

(** ** The host's JSON object

    [JSON.parse] and [JSON.stringify] belong to the JavaScript engine, not to
    the program.  The program is verified against their interface:
    [JSON_parse] either returns a value or throws a [SyntaxError] carrying a
    message; [JSON_stringify value space] is [JSON.stringify(value, null,
    space)], and [space = 0] is the compact form [JSON.stringify(value)]. *)

Inductive Completion (A : Type) : Type :=
| Normal (a : A)
| Throw (message : string).
Arguments Normal {A} a.
Arguments Throw {A} message.

Class JsonEngine : Type := {
  JSON_parse : string -> Completion JsonValue;
  JSON_stringify : JsonValue -> nat -> string
}.

(** A stand-in engine for running the program on concrete buffers: the
    fragment of JSON made of one literal ([null], [true], [false]) between
    optional JSON whitespace.  On the empty or blank text it throws as every
    engine does; on any other text it throws and names the first code unit
    of the text.  [stringify] prints the values [parse] returns. *)
Module Lit.
Definition isJsonSpace (c : char) : bool :=
  (c =? 9) || (c =? 10) || (c =? 13) || (c =? 32).

Fixpoint skipSpace (s : string) : string :=
  match s with
  | [] => []
  | c :: s' => if isJsonSpace c then skipSpace s' else s
  end.

Definition literal (word : String.string) (v : JsonValue) (s : string)
  : option JsonValue :=
  if starts_with (lit word) s
  then match skipSpace (skipn (length (lit word)) s) with
       | [] => Some v
       | _ :: _ => None
       end
  else None.
Arguments literal word%_string v s.

Definition parse (text : string) : Completion JsonValue :=
  match skipSpace text with
  | [] => Throw (lit "Unexpected end of JSON input")
  | c :: rest =>
      match literal "null" JNull (c :: rest) with
      | Some v => Normal v
      | None =>
      match literal "true" (JBoolean true) (c :: rest) with
      | Some v => Normal v
      | None =>
      match literal "false" (JBoolean false) (c :: rest) with
      | Some v => Normal v
      | None => Throw (lit "Unexpected token " ++ [c])
      end end end
  end.

Definition stringify (v : JsonValue) (space : nat) : string :=
  match v with
  | JBoolean true => lit "true"
  | JBoolean false => lit "false"
  | _ => lit "null"
  end.

Definition engine : JsonEngine :=
  {| JSON_parse := parse; JSON_stringify := stringify |}.
End Lit.

(** ** The JSON object of the language standard

    [JSON.parse(text)] and [JSON.stringify(value, null, space)] as ECMA-262
    defines them (clause 25.5, The JSON Object), on the values above: the
    JSON grammar with its four whitespace code units, string literals with
    their escape sequences, number literals read as the nearest binary64
    value (ties to even, overflow to an infinity), objects built property
    by property in the order [Object.keys] reports, and the serialization
    of [SerializeJSONProperty] with [QuoteJSONString] and
    [Number::toString].  A number literal is read exactly, as engines do
    (for literals of more than 20 significant digits the standard also
    allows a coarser reading).  The message of the [SyntaxError] is left to
    the engine by the standard: a text without any token is reported as V8
    reports it, every other failure with one fixed message.  The limits of
    an implementation (recursion depth, memory) are no part of the standard
    and are not modelled. *)
Module Ecma.
Local Open Scope Z_scope.

Definition LBRACE : char := 123%N.   (* { *)
Definition RBRACE : char := 125%N.   (* } *)
Definition COMMA : char := 44%N.
Definition COLON : char := 58%N.
Definition MINUS : char := 45%N.
Definition PLUS : char := 43%N.
Definition SLASH : char := 47%N.
Definition ZERO : char := 48%N.
Definition LetterE : char := 69%N.   (* E *)
Definition e : char := 101%N.
Definition u : char := 117%N.

(** *** Whitespace and digits *)

(** JSONWhiteSpace: tab, line feed, carriage return, space. *)
Definition isJsonSpace (c : char) : bool :=
  (c =? Ch.TAB)%N || (c =? Ch.LF)%N || (c =? Ch.CR)%N || (c =? Ch.SPACE)%N.

Fixpoint skipSpace (s : string) : string :=
  match s with
  | [] => []
  | c :: s' => if isJsonSpace c then skipSpace s' else s
  end.

Definition isDigit (c : char) : bool := (48 <=? c)%N && (c <=? 57)%N.

Definition digitValue (c : char) : Z := Z.of_N c - 48.

Definition digitChar (d : Z) : char := Z.to_N (d + 48).

(** The mathematical value of a run of decimal digits. *)
Definition decimalValue (ds : string) : Z :=
  fold_left (fun a c => a * 10 + digitValue c) ds 0.

(** The longest run of digits a string starts with, and what follows. *)
Fixpoint takeDigits (s : string) : string * string :=
  match s with
  | [] => ([], [])
  | c :: s' =>
      if isDigit c
      then let (ds, rest) := takeDigits s' in (c :: ds, rest)
      else ([], s)
  end.

(** The decimal digits of a positive integer, least significant first;
    a number has no more decimal digits than binary ones. *)
Fixpoint decimalRev (bits : nat) (n : Z) : string :=
  match bits with
  | O => []
  | S bits' =>
      if n <? 10 then [digitChar n]
      else digitChar (n mod 10) :: decimalRev bits' (n / 10)
  end.

Definition decimal (n : Z) : string :=
  rev (decimalRev (S (Z.to_nat (Z.log2 n))) n).

(** *** The Number value of a mathematical value (6.1.6.1)

    [roundRatio negative p q] is the Number value for [p / q], with [p] and
    [q] positive, and the sign given apart: the binary64 value nearest to
    it, the one with the even significand when two are equally near, and
    an infinity from [2 ^ 1024] on.  The exponents of binary64 start at
    [-1074]: the significand is the quotient of [p * 2 ^ 1074] by
    [q * 2 ^ shift], rounded, where [shift] leaves it 53 bits, or is 0 for
    a quotient of fewer bits. *)

(** The rounded significand and the shift it was taken at. *)
Definition significand (p q : Z) : Z * Z :=
  let scaled := p * 2 ^ 1074 in
  let shift := Z.max (Z.log2 (scaled / q) - 52) 0 in
  let den := q * 2 ^ shift in
  let m := scaled / den in
  let r := scaled mod den in
  let up := if 2 * r =? den then Z.odd m else den <? 2 * r in
  let m := if up then m + 1 else m in
  if m =? 2 ^ 53 then (2 ^ 52, shift + 1) else (m, shift).

Definition roundRatio (negative : bool) (p q : Z) : spec_float :=
  match significand p q with
  | (Zpos mantissa, shift) =>
      if 2045 <? shift then S754_infinity negative
      else S754_finite negative mantissa (shift - 1074)
  | _ => S754_zero negative
  end.

(** The Number value for [digits * 10 ^ exponent]. *)
Definition toNumber (negative : bool) (digits exponent : Z) : spec_float :=
  if digits <=? 0 then S754_zero negative
  else if exponent <? 0 then roundRatio negative digits (10 ^ (- exponent))
  else roundRatio negative (digits * 10 ^ exponent) 1.

(** *** Number literals (JSONNumber)

    An optional minus sign; an integer part that is [0] or starts with a
    digit from 1 to 9; an optional fraction, a dot and at least one digit;
    an optional exponent, [e] or [E], an optional sign and at least one
    digit. *)

Definition integerPart (s : string) : option (string * string) :=
  match s with
  | [] => None
  | c :: s' =>
      if (c =? ZERO)%N then Some ([c], s')
      else if isDigit c then Some (takeDigits s)
      else None
  end.

Definition fractionPart (s : string) : option (string * string) :=
  match s with
  | c :: s' =>
      if (c =? Ch.DOT)%N
      then match takeDigits s' with
           | ([], _) => None
           | (ds, rest) => Some (ds, rest)
           end
      else Some ([], s)
  | [] => Some ([], s)
  end.

Definition signedDigits (s : string) : option (Z * string) :=
  let negative :=
    match s with
    | c :: _ => (c =? MINUS)%N
    | [] => false
    end in
  let s' :=
    match s with
    | c :: r => if (c =? MINUS)%N || (c =? PLUS)%N then r else s
    | [] => s
    end in
  match takeDigits s' with
  | ([], _) => None
  | (ds, rest) =>
      Some (if negative then - decimalValue ds else decimalValue ds, rest)
  end.

Definition exponentPart (s : string) : option (Z * string) :=
  match s with
  | c :: s' =>
      if (c =? e)%N || (c =? LetterE)%N then signedDigits s'
      else Some (0, s)
  | [] => Some (0, s)
  end.

Definition parseUnsigned (negative : bool) (s : string)
  : option (spec_float * string) :=
  match integerPart s with
  | None => None
  | Some (int, s1) =>
      match fractionPart s1 with
      | None => None
      | Some (frac, s2) =>
          match exponentPart s2 with
          | None => None
          | Some (exponent, rest) =>
              Some (toNumber negative (decimalValue (int ++ frac))
                      (exponent - Z.of_nat (length frac)),
                    rest)
          end
      end
  end.

Definition parseNumber (s : string) : option (spec_float * string) :=
  match s with
  | [] => None
  | c :: s' =>
      if (c =? MINUS)%N then parseUnsigned true s' else parseUnsigned false s
  end.

(** What may follow a number in a text: no digit, dot or exponent mark. *)
Definition endsNumber (rest : string) : bool :=
  match rest with
  | [] => true
  | c :: _ =>
      negb (isDigit c || (c =? Ch.DOT)%N || (c =? e)%N || (c =? LetterE)%N)
  end.

(** *** Number::toString (6.1.6.1.20), radix 10 *)

(** A finite number written out in full: [m * 2 ^ exponent] is
    [fst * 10 ^ snd]. *)
Definition exactDecimal (m : positive) (exponent : Z) : Z * Z :=
  if exponent <? 0 then (Zpos m * 5 ^ (- exponent), exponent)
  else (Zpos m * 2 ^ exponent, 0).

(** The integers [s] of [k] digits next to [full * 10 ^ scale], which has
    [k + dropped] digits, each with its power of ten, the nearer one first
    and the even one first when they are equally near. *)
Definition candidates (full scale k dropped : Z) : list (Z * Z) :=
  let unit := 10 ^ dropped in
  let low := full / unit in
  let r := full mod unit in
  let lower := (low, scale + dropped) in
  let upper :=
    if low + 1 =? 10 ^ k then (10 ^ (k - 1), scale + dropped + 1)
    else (low + 1, scale + dropped) in
  if r =? 0 then [lower]
  else if 2 * r <? unit then [lower; upper]
  else if unit <? 2 * r then [upper; lower]
  else if Z.even low then [lower; upper] else [upper; lower].

(** Step 5: integers [n], [k] and [s] with [k] as small as possible such
    that [s] has [k] digits and the Number value for [s * 10 ^ (n - k)] is
    the number; the result is [s] and [n - k].  The values that are read as
    one number lie next to each other, so if an integer of [k] digits is
    read as the number, one of the two candidates is.  [dropped] counts
    down from the digits of the full expansion but one, so [k] counts up
    from 1; with nothing dropped the expansion itself is left. *)
Fixpoint shortest (isNumber : Z -> Z -> bool) (full scale count : Z)
  (dropped : nat) : Z * Z :=
  match dropped with
  | O => (full, scale)
  | S dropped' =>
      match filter (fun c => isNumber (fst c) (snd c))
              (candidates full scale (count - Z.of_nat dropped)
                 (Z.of_nat dropped)) with
      | c :: _ => c
      | [] => shortest isNumber full scale count dropped'
      end
  end.

(** Steps 6 to 10: the digits of [s] laid out for the exponent [n]. *)
Definition formatDecimal (ds : string) (n : Z) : string :=
  let k := Z.of_nat (length ds) in
  if (k <=? n) && (n <=? 21) then ds ++ repeat ZERO (Z.to_nat (n - k))
  else if (0 <? n) && (n <=? 21)
  then firstn (Z.to_nat n) ds ++ [Ch.DOT] ++ skipn (Z.to_nat n) ds
  else if (-6 <? n) && (n <=? 0)
  then [ZERO; Ch.DOT] ++ repeat ZERO (Z.to_nat (- n)) ++ ds
  else
    let exponent :=
      [e; if n - 1 <? 0 then MINUS else PLUS] ++ decimal (Z.abs (n - 1)) in
    match ds with
    | [] => []
    | [d] => d :: exponent
    | d :: rest => d :: Ch.DOT :: rest ++ exponent
    end.

Definition isFinite (x : spec_float) : bool :=
  match x with
  | S754_zero _ | S754_finite _ _ _ => true
  | _ => false
  end.

Definition sameFinite (m : positive) (exponent : Z) (y : spec_float) : bool :=
  match y with
  | S754_finite false m' exponent' =>
      (m =? m')%positive && (exponent =? exponent')
  | _ => false
  end.

Definition positiveToString (m : positive) (exponent : Z) : string :=
  let (full, scale) := exactDecimal m exponent in
  let count := Z.of_nat (length (decimal full)) in
  let (s, power) :=
    shortest (fun s power => sameFinite m exponent (toNumber false s power))
      full scale count (Z.to_nat (count - 1)) in
  formatDecimal (decimal s) (power + Z.of_nat (length (decimal s))).

Definition numberToString (x : spec_float) : string :=
  match x with
  | S754_nan => lit "NaN"
  | S754_zero _ => lit "0"
  | S754_infinity negative =>
      if negative then lit "-Infinity" else lit "Infinity"
  | S754_finite negative m exponent =>
      (if negative then [MINUS] else []) ++ positiveToString m exponent
  end.

(** *** String literals (JSONString) and QuoteJSONString (25.5.2.3) *)

Definition hexValue (c : char) : option N :=
  if (48 <=? c)%N && (c <=? 57)%N then Some (c - 48)%N
  else if (97 <=? c)%N && (c <=? 102)%N then Some (c - 87)%N
  else if (65 <=? c)%N && (c <=? 70)%N then Some (c - 55)%N
  else None.

Definition hex4 (h3 h2 h1 h0 : char) : option char :=
  match hexValue h3, hexValue h2, hexValue h1, hexValue h0 with
  | Some x3, Some x2, Some x1, Some x0 =>
      Some (((x3 * 16 + x2) * 16 + x1) * 16 + x0)%N
  | _, _, _, _ => None
  end.

(** JSONEscapeCharacter: the code unit an escaped character stands for. *)
Definition escapeCharacter (c : char) : option char :=
  if (c =? Ch.QUOTE)%N then Some Ch.QUOTE
  else if (c =? Ch.BACKSLASH)%N then Some Ch.BACKSLASH
  else if (c =? SLASH)%N then Some SLASH
  else if (c =? Ch.b)%N then Some Ch.BS
  else if (c =? Ch.f)%N then Some Ch.FF
  else if (c =? Ch.n)%N then Some Ch.LF
  else if (c =? Ch.r)%N then Some Ch.CR
  else if (c =? Ch.t)%N then Some Ch.TAB
  else None.

(** The characters of a string literal after its opening quote: the string
    value, and what follows the closing quote. *)
Fixpoint parseCharacters (s : string) : option (string * string) :=
  match s with
  | [] => None
  | c :: s1 =>
      if (c =? Ch.QUOTE)%N then Some ([], s1)
      else if (c =? Ch.BACKSLASH)%N then
        match s1 with
        | [] => None
        | c1 :: s2 =>
            if (c1 =? u)%N then
              match s2 with
              | h3 :: h2 :: h1 :: h0 :: s3 =>
                  match hex4 h3 h2 h1 h0, parseCharacters s3 with
                  | Some x, Some (value, rest) => Some (x :: value, rest)
                  | _, _ => None
                  end
              | _ => None
              end
            else
              match escapeCharacter c1, parseCharacters s2 with
              | Some x, Some (value, rest) => Some (x :: value, rest)
              | _, _ => None
              end
        end
      else if (c <? 32)%N then None
      else
        match parseCharacters s1 with
        | Some (value, rest) => Some (c :: value, rest)
        | None => None
        end
  end.

Definition hexDigit (d : N) : char :=
  if (d <? 10)%N then (48 + d)%N else (87 + d)%N.

(** UnicodeEscape: backslash, [u] and four lowercase hexadecimal digits. *)
Definition unicodeEscape (c : char) : string :=
  [Ch.BACKSLASH; u; hexDigit (c / 4096)%N; hexDigit ((c / 256) mod 16)%N;
   hexDigit ((c / 16) mod 16)%N; hexDigit (c mod 16)%N].

Definition isLeadingSurrogate (c : char) : bool :=
  (55296 <=? c)%N && (c <=? 56319)%N.

Definition isTrailingSurrogate (c : char) : bool :=
  (56320 <=? c)%N && (c <=? 57343)%N.

(** A code point that is a single code unit. *)
Definition quoteCharacter (c : char) : string :=
  if (c =? Ch.BS)%N then [Ch.BACKSLASH; Ch.b]
  else if (c =? Ch.TAB)%N then [Ch.BACKSLASH; Ch.t]
  else if (c =? Ch.LF)%N then [Ch.BACKSLASH; Ch.n]
  else if (c =? Ch.FF)%N then [Ch.BACKSLASH; Ch.f]
  else if (c =? Ch.CR)%N then [Ch.BACKSLASH; Ch.r]
  else if (c =? Ch.QUOTE)%N then [Ch.BACKSLASH; Ch.QUOTE]
  else if (c =? Ch.BACKSLASH)%N then [Ch.BACKSLASH; Ch.BACKSLASH]
  else if (c <? 32)%N || isLeadingSurrogate c || isTrailingSurrogate c
  then unicodeEscape c
  else [c].

(** The code points of the string in turn: a leading surrogate followed by
    a trailing one is one code point and is copied. *)
Fixpoint quoteCharacters (s : string) : string :=
  match s with
  | [] => []
  | c :: s1 =>
      match s1 with
      | d :: s2 =>
          if isLeadingSurrogate c && isTrailingSurrogate d
          then c :: d :: quoteCharacters s2
          else quoteCharacter c ++ quoteCharacters s1
      | [] => quoteCharacter c
      end
  end.

Definition QuoteJSONString (value : string) : string :=
  Ch.QUOTE :: quoteCharacters value ++ [Ch.QUOTE].

(** *** Property order (10.1.11.1, OrdinaryOwnPropertyKeys)

    The keys that are array indices come first, in ascending numeric order,
    then the other keys in the order of their creation.  An array index is
    the canonical decimal name of an integer from 0 to 2^32 - 2. *)

Definition arrayIndex (key : string) : option Z :=
  match key with
  | [] => None
  | c :: rest =>
      if forallb isDigit key
         && (negb (c =? ZERO)%N || (length rest =? 0)%nat)
         && (length key <=? 10)%nat
         && (decimalValue key <=? 4294967294)
      then Some (decimalValue key)
      else None
  end.

Definition hasKey (key : string) (members : list (string * JsonValue))
  : bool :=
  existsb (fun m => string_eqb (fst m) key) members.

Fixpoint assign (key : string) (value : JsonValue)
  (members : list (string * JsonValue)) : list (string * JsonValue) :=
  match members with
  | [] => []
  | (k, x) :: rest =>
      if string_eqb k key then (k, value) :: rest
      else (k, x) :: assign key value rest
  end.

Fixpoint insertIndex (index : Z) (key : string) (value : JsonValue)
  (members : list (string * JsonValue)) : list (string * JsonValue) :=
  match members with
  | [] => [(key, value)]
  | (k, x) :: rest =>
      match arrayIndex k with
      | Some j =>
          if j <? index then (k, x) :: insertIndex index key value rest
          else (key, value) :: members
      | None => (key, value) :: members
      end
  end.

(** CreateDataProperty on the object under construction: a key that is
    already there keeps its place and takes the new value. *)
Definition CreateDataProperty (members : list (string * JsonValue))
  (key : string) (value : JsonValue) : list (string * JsonValue) :=
  if hasKey key members then assign key value members
  else match arrayIndex key with
       | Some index => insertIndex index key value members
       | None => members ++ [(key, value)]
       end.

(** *** JSON.parse (25.5.1)

    The three parsers call each other once per value, element and member;
    [fuel] bounds these calls, and a text never needs more of them than it
    has code units ([EcmaFuel.parse_fuel_enough] below). *)

Definition literal (word : String.string) (value : JsonValue) (s : string)
  : option (JsonValue * string) :=
  if starts_with (lit word) s
  then Some (value, skipn (length (lit word)) s)
  else None.
Arguments literal word%_string value s.

Fixpoint parseValue (fuel : nat) (s : string)
  : option (JsonValue * string) :=
  match fuel with
  | O => None
  | S fuel' =>
      match skipSpace s with
      | [] => None
      | c :: s1 =>
          if (c =? LBRACE)%N then
            match skipSpace s1 with
            | [] => None
            | c1 :: s2 =>
                if (c1 =? RBRACE)%N then Some (JObject [], s2)
                else parseMembers fuel' s1 []
            end
          else if (c =? Ch.LBRACKET)%N then
            match skipSpace s1 with
            | [] => None
            | c1 :: s2 =>
                if (c1 =? Ch.RBRACKET)%N then Some (JArray [], s2)
                else parseElements fuel' s1 []
            end
          else if (c =? Ch.QUOTE)%N then
            match parseCharacters s1 with
            | Some (value, rest) => Some (JString value, rest)
            | None => None
            end
          else if (c =? Ch.t)%N then literal "true" (JBoolean true) (c :: s1)
          else if (c =? Ch.f)%N then literal "false" (JBoolean false) (c :: s1)
          else if (c =? Ch.n)%N then literal "null" JNull (c :: s1)
          else
            match parseNumber (c :: s1) with
            | Some (x, rest) => Some (JNumber x, rest)
            | None => None
            end
      end
  end

with parseElements (fuel : nat) (s : string) (done : list JsonValue)
  : option (JsonValue * string) :=
  match fuel with
  | O => None
  | S fuel' =>
      match parseValue fuel' s with
      | None => None
      | Some (value, s1) =>
          match skipSpace s1 with
          | [] => None
          | c :: s2 =>
              if (c =? COMMA)%N then parseElements fuel' s2 (value :: done)
              else if (c =? Ch.RBRACKET)%N
              then Some (JArray (rev (value :: done)), s2)
              else None
          end
      end
  end

with parseMembers (fuel : nat) (s : string)
  (done : list (string * JsonValue)) : option (JsonValue * string) :=
  match fuel with
  | O => None
  | S fuel' =>
      match skipSpace s with
      | [] => None
      | c :: s1 =>
          if (c =? Ch.QUOTE)%N then
            match parseCharacters s1 with
            | None => None
            | Some (key, s2) =>
                match skipSpace s2 with
                | [] => None
                | c2 :: s3 =>
                    if (c2 =? COLON)%N then
                      match parseValue fuel' s3 with
                      | None => None
                      | Some (value, s4) =>
                          let members := CreateDataProperty done key value in
                          match skipSpace s4 with
                          | [] => None
                          | c4 :: s5 =>
                              if (c4 =? COMMA)%N
                              then parseMembers fuel' s5 members
                              else if (c4 =? RBRACE)%N
                              then Some (JObject members, s5)
                              else None
                          end
                      end
                    else None
                end
            end
          else None
      end
  end.

Definition parse (text : string) : Completion JsonValue :=
  match skipSpace text with
  | [] => Throw (lit "Unexpected end of JSON input")
  | _ :: _ =>
      match parseValue (S (length text)) text with
      | Some (value, rest) =>
          match skipSpace rest with
          | [] => Normal value
          | _ :: _ => Throw (lit "Unexpected token in JSON")
          end
      | None => Throw (lit "Unexpected token in JSON")
      end
  end.

(** *** JSON.stringify (25.5.2) *)

Fixpoint join (separator : string) (parts : list string) : string :=
  match parts with
  | [] => []
  | [part] => part
  | part :: rest => part ++ separator ++ join separator rest
  end.

(** The closing steps of SerializeJSONObject and SerializeJSONArray. *)
Definition enclose (gap stepback : string) (opening closing : char)
  (partial : list string) : string :=
  match partial with
  | [] => [opening; closing]
  | _ :: _ =>
      if truthy gap
      then
        let indent := stepback ++ gap in
        [opening; Ch.LF] ++ indent
        ++ join ([COMMA; Ch.LF] ++ indent) partial
        ++ [Ch.LF] ++ stepback ++ [closing]
      else [opening] ++ join [COMMA] partial ++ [closing]
  end.

(** SerializeJSONProperty for a value [JSON.parse] can return; [indent] is
    the indentation of the line the value starts on. *)
Fixpoint serialize (gap indent : string) (value : JsonValue) : string :=
  match value with
  | JNull => lit "null"
  | JBoolean true => lit "true"
  | JBoolean false => lit "false"
  | JNumber x => if isFinite x then numberToString x else lit "null"
  | JString s => QuoteJSONString s
  | JArray items =>
      enclose gap indent Ch.LBRACKET Ch.RBRACKET
        (map (serialize gap (indent ++ gap)) items)
  | JObject members =>
      enclose gap indent LBRACE RBRACE
        (map (fun m =>
                QuoteJSONString (fst m) ++ [COLON]
                ++ (if truthy gap then [Ch.SPACE] else [])
                ++ serialize gap (indent ++ gap) (snd m))
           members)
  end.

(** [space] is a number: the gap is that many spaces, ten at most. *)
Definition stringify (value : JsonValue) (space : nat) : string :=
  serialize (repeat Ch.SPACE (Nat.min space 10)) [] value.

Definition engine : JsonEngine :=
  {| JSON_parse := parse; JSON_stringify := stringify |}.

(** *** The values [JSON.parse] returns *)

(** A binary64 value: at most 53 bits of significand, which are all there
    unless the exponent is the least one. *)
Definition isBinary64 (x : spec_float) : bool :=
  match x with
  | S754_nan => false
  | S754_finite _ m exponent =>
      (Zpos m <? 2 ^ 53) && (-1074 <=? exponent) && (exponent <=? 971)
      && ((exponent =? -1074) || (2 ^ 52 <=? Zpos m))
  | _ => true
  end.

(** Whether a key can come before another one in an object: array indices
    in ascending order, then the other keys, all distinct. *)
Definition keyBefore (k1 k2 : string) : bool :=
  match arrayIndex k1, arrayIndex k2 with
  | Some i, Some j => i <? j
  | Some _, None => true
  | None, Some _ => false
  | None, None => negb (string_eqb k1 k2)
  end.

Fixpoint keysInOrder (keys : list string) : bool :=
  match keys with
  | [] => true
  | k :: rest =>
      forallb (keyBefore k) rest && keysInOrder rest
  end.

Fixpoint wellFormed (value : JsonValue) : bool :=
  match value with
  | JNumber x => isBinary64 x
  | JArray items => forallb wellFormed items
  | JObject members =>
      keysInOrder (map fst members)
      && forallb (fun m => wellFormed (snd m)) members
  | _ => true
  end.

(** No number of the value is an infinity. *)
Fixpoint finiteNumbers (value : JsonValue) : bool :=
  match value with
  | JNumber x => isFinite x
  | JArray items => forallb finiteNumbers items
  | JObject members => forallb (fun m => finiteNumbers (snd m)) members
  | _ => true
  end.

(** The value with every negative zero replaced by zero. *)
Fixpoint withoutNegativeZero (value : JsonValue) : JsonValue :=
  match value with
  | JNumber (S754_zero _) => JNumber (S754_zero false)
  | JArray items => JArray (map withoutNegativeZero items)
  | JObject members =>
      JObject (map (fun m => (fst m, withoutNegativeZero (snd m))) members)
  | _ => value
  end.

(** The calls the parsers need for the serialization of a value. *)
Fixpoint cost (value : JsonValue) : nat :=
  match value with
  | JArray items => S (fold_right (fun x n => S (cost x + n)%nat) O items)
  | JObject members =>
      S (fold_right (fun m n => S (cost (snd m) + n)%nat) O members)
  | _ => 1%nat
  end.

(** A number with its zero unsigned. *)
Definition unsignedZero (x : spec_float) : spec_float :=
  match x with
  | S754_zero _ => S754_zero false
  | _ => x
  end.

(** The code units a number starts with, and those a value starts with. *)
Definition startsNumber (c : char) : bool := isDigit c || (c =? MINUS)%N.

Definition opensValue (c : char) : bool :=
  (c =? LBRACE)%N || (c =? Ch.LBRACKET)%N || (c =? Ch.QUOTE)%N
  || (c =? Ch.t)%N || (c =? Ch.f)%N || (c =? Ch.n)%N || startsNumber c.

Definition noDigitAhead (rest : string) : Prop :=
  match rest with
  | [] => True
  | c :: _ => isDigit c = false
  end.

(** A value is read back from its serialization with the gap [gap],
    whatever the indentation and whatever follows, a negative zero as zero. *)
Definition ReadsBack (gap : string) (value : JsonValue) : Prop :=
  wellFormed value = true -> finiteNumbers value = true ->
  forall (indent rest : string) (fuel : nat),
    forallb isJsonSpace indent = true ->
    (cost value <= fuel)%nat ->
    endsNumber rest = true ->
    parseValue fuel (serialize gap indent value ++ rest)
    = Some (withoutNegativeZero value, rest).
End Ecma.

(** ** The editor session (App.tsx, component [App])

    One field per [useState] cell.  [parsedData] and [selectedData] have type
    [any] and start as [null]: JavaScript's [null] is also what [JSON.parse]
    returns for the document [null], so both are values, with [JNull] for
    [null]. *)

Inductive FormatMode : Type := pretty | raw | tree.

Inductive AiMode : Type := repair | types.

Record Session : Type := mkSession {
  jsonInput : string;
  parsedData : JsonValue;
  selectedData : JsonValue;
  error : option string;
  isProcessing : bool;
  notification : option string;
  isSidebarOpen : bool;
  aiMode : option AiMode;
  generatedTypes : option string;
  formatMode : FormatMode
}.

Definition FormatMode_eqb (a b : FormatMode) : bool :=
  match a, b with
  | pretty, pretty | raw, raw | tree, tree => true
  | _, _ => false
  end.

(** The state setters. *)
Definition setJsonInput (x : string) (s : Session) : Session :=
  mkSession x (parsedData s) (selectedData s) (error s) (isProcessing s)
    (notification s) (isSidebarOpen s) (aiMode s) (generatedTypes s)
    (formatMode s).
Definition setParsedData (x : JsonValue) (s : Session) : Session :=
  mkSession (jsonInput s) x (selectedData s) (error s) (isProcessing s)
    (notification s) (isSidebarOpen s) (aiMode s) (generatedTypes s)
    (formatMode s).
Definition setSelectedData (x : JsonValue) (s : Session) : Session :=
  mkSession (jsonInput s) (parsedData s) x (error s) (isProcessing s)
    (notification s) (isSidebarOpen s) (aiMode s) (generatedTypes s)
    (formatMode s).
Definition setError (x : option string) (s : Session) : Session :=
  mkSession (jsonInput s) (parsedData s) (selectedData s) x (isProcessing s)
    (notification s) (isSidebarOpen s) (aiMode s) (generatedTypes s)
    (formatMode s).
Definition setIsProcessing (x : bool) (s : Session) : Session :=
  mkSession (jsonInput s) (parsedData s) (selectedData s) (error s) x
    (notification s) (isSidebarOpen s) (aiMode s) (generatedTypes s)
    (formatMode s).
Definition setNotification (x : option string) (s : Session) : Session :=
  mkSession (jsonInput s) (parsedData s) (selectedData s) (error s)
    (isProcessing s) x (isSidebarOpen s) (aiMode s) (generatedTypes s)
    (formatMode s).
Definition setIsSidebarOpen (x : bool) (s : Session) : Session :=
  mkSession (jsonInput s) (parsedData s) (selectedData s) (error s)
    (isProcessing s) (notification s) x (aiMode s) (generatedTypes s)
    (formatMode s).
Definition setAiMode (x : option AiMode) (s : Session) : Session :=
  mkSession (jsonInput s) (parsedData s) (selectedData s) (error s)
    (isProcessing s) (notification s) (isSidebarOpen s) x (generatedTypes s)
    (formatMode s).
Definition setGeneratedTypes (x : option string) (s : Session) : Session :=
  mkSession (jsonInput s) (parsedData s) (selectedData s) (error s)
    (isProcessing s) (notification s) (isSidebarOpen s) (aiMode s) x
    (formatMode s).
Definition setFormatMode (x : FormatMode) (s : Session) : Session :=
  mkSession (jsonInput s) (parsedData s) (selectedData s) (error s)
    (isProcessing s) (notification s) (isSidebarOpen s) (aiMode s)
    (generatedTypes s) x.

(** Two sessions with the same parsed value, selection and error. *)
Definition sameData (s s' : Session) : Prop :=
  parsedData s' = parsedData s /\ selectedData s' = selectedData s
  /\ error s' = error s.

(** [showNotification]: the toast text is stored; the timer that clears it
    three seconds later is the event [NotificationExpired] below. *)
Definition showNotification (msg : string) (s : Session) : Session :=
  setNotification (Some msg) s.

(** The result of a collaborator call (types.ts, [GenerationResult]). *)
Module Result.
Record GenerationResult : Type := make {
  content : string;
  error : option string
}.
End Result.
Definition GenerationResult : Type := Result.GenerationResult.

Section App.
Context {engine : JsonEngine}.

(** The effect that runs whenever [jsonInput] changes (lines 58-73). *)
Definition parseEffect (s : Session) : Session :=
  if negb (truthy (trim (jsonInput s))) then
    setError None (setSelectedData JNull (setParsedData JNull s))
  else
    match JSON_parse (jsonInput s) with
    | Normal parsed =>
        setError None (setSelectedData parsed (setParsedData parsed s))
    | Throw message => setError (Some message) s
    end.

Definition handleEscape (s : Session) : Session :=
  showNotification (lit "Text Escaped")
    (setJsonInput (escapeString (jsonInput s)) s).

Definition handleUnescape (s : Session) : Session :=
  showNotification (lit "Text Unescaped")
    (setJsonInput (unescapeString (jsonInput s)) s).

(** [handleFormat] (lines 110-133); the result is the returned boolean and
    the state after the handler's updates. *)
Definition handleFormat (currentInput : string) (s : Session)
  : bool * Session :=
  match JSON_parse currentInput with
  | Normal parsed =>
      let formatted := JSON_stringify parsed 2 in
      (true, showNotification (lit "JSON Formatted")
               (setFormatMode pretty (setJsonInput formatted s)))
  | Throw _ =>
      let unescaped := unescapeString currentInput in
      match JSON_parse unescaped with
      | Normal parsed =>
          let formatted := JSON_stringify parsed 2 in
          (true, showNotification (lit "Auto-unescaped & Formatted")
                   (setFormatMode pretty (setJsonInput formatted s)))
      | Throw _ =>
          (false, showNotification (lit "Cannot format invalid JSON") s)
      end
  end.

(** [handleMinify] (lines 135-156). *)
Definition handleMinify (currentInput : string) (s : Session)
  : bool * Session :=
  match JSON_parse currentInput with
  | Normal parsed =>
      (true, showNotification (lit "JSON Minified")
               (setFormatMode raw (setJsonInput (JSON_stringify parsed 0) s)))
  | Throw _ =>
      let unescaped := unescapeString currentInput in
      match JSON_parse unescaped with
      | Normal parsed =>
          (true, showNotification (lit "Auto-unescaped & Minified")
                   (setFormatMode raw
                      (setJsonInput (JSON_stringify parsed 0) s)))
      | Throw _ =>
          (false, showNotification (lit "Cannot minify invalid JSON") s)
      end
  end.

(** The recovery block of [toggleFormat] (lines 162-186), entered when the
    session shows an error and the target mode is [pretty] or [tree]:
    [Some s'] when a branch of the block returns, [None] when the block is
    skipped or its [catch] swallowed the failure. *)
Definition toggleRecovery (mode : FormatMode) (s : Session)
  : option Session :=
  if truthy_opt (error s)
     && (FormatMode_eqb mode pretty || FormatMode_eqb mode tree)
  then
    let unescaped := unescapeString (jsonInput s) in
    match JSON_parse unescaped with
    | Throw _ => None
    | Normal parsed =>
        let s1 := setJsonInput unescaped s in
        match mode with
        | pretty =>
            Some (showNotification (lit "Auto-unescaped JSON")
                    (setFormatMode pretty
                       (setJsonInput (JSON_stringify parsed 2) s1)))
        | tree =>
            Some (showNotification (lit "Auto-unescaped for Tree View")
                    (setFormatMode tree s1))
        | raw => None
        end
    end
  else None.

(** [toggleFormat] (lines 158-198). *)
Definition toggleFormat (mode : FormatMode) (s : Session) : Session :=
  if FormatMode_eqb mode (formatMode s) && negb (FormatMode_eqb mode tree)
  then s
  else
    match toggleRecovery mode s with
    | Some s' => s'
    | None =>
        match mode with
        | tree => setFormatMode tree s
        | pretty => snd (handleFormat (jsonInput s) s)
        | raw => snd (handleMinify (jsonInput s) s)
        end
    end.

Definition handleClear (s : Session) : Session :=
  setAiMode None
    (setGeneratedTypes None
       (setError None
          (setSelectedData JNull (setParsedData JNull (setJsonInput [] s))))).

Definition handleCopy (s : Session) : Session :=
  showNotification (lit "Copied to clipboard") s.

(** [handleAiFix] (lines 237-254) suspends at the [await]: [handleAiFix]
    is the part that runs on the click, and tells whether the collaborator
    is called; [handleAiFix_resume] is the part that runs when the call
    has settled with [result]. *)
Definition handleAiFix (s : Session) : bool * Session :=
  if negb (truthy_opt (error s))
  then (false, showNotification (lit "JSON is already valid.") s)
  else (true, setAiMode (Some repair) (setIsProcessing true s)).

Definition handleAiFix_resume (result : GenerationResult) (s : Session)
  : Session :=
  let s1 := setAiMode None (setIsProcessing false s) in
  if truthy_opt (Result.error result)
  then showNotification
         (lit "AI Fix Failed: " ++ match Result.error result with
                                   | Some e => e
                                   | None => []
                                   end) s1
  else showNotification (lit "JSON Repaired by Gemini AI")
         (setJsonInput (Result.content result) s1).

(** [handleGenerateTypes] (lines 256-273), split at its [await] likewise. *)
Definition handleGenerateTypes (s : Session) : bool * Session :=
  if truthy_opt (error s) || negb (truthy (trim (jsonInput s)))
  then (false, showNotification (lit "Please provide valid JSON first.") s)
  else (true, setAiMode (Some types) (setIsProcessing true s)).

Definition handleGenerateTypes_resume (result : GenerationResult)
  (s : Session) : Session :=
  let s1 := setIsProcessing false s in
  if truthy_opt (Result.error result)
  then setAiMode None
         (showNotification
            (lit "Gen Types Failed: " ++ match Result.error result with
                                         | Some e => e
                                         | None => []
                                         end) s1)
  else showNotification (lit "TypeScript Interfaces Generated")
         (setGeneratedTypes (Some (Result.content result)) s1).

Definition onNodeCopy (path : string) (value : JsonValue) (s : Session)
  : Session :=
  showNotification
    (lit "Copied value from " ++ (if truthy path then path else lit "root"))
    s.

Definition onNodeSelect (value : JsonValue) (s : Session) : Session :=
  setSelectedData value s.
End App.

(** ** The collaborator (services/geminiService.ts)

    The remote model is opaque: a call either answers with [response.text]
    (possibly undefined) or throws an error whose [message] may be missing. *)

Inductive RemoteOutcome : Type :=
| Responded (text : option string)
| Rejected (message : option string).

(** [x || fallback] on a possibly undefined string. *)
Definition orElse (x : option string) (fallback : string) : string :=
  match x with
  | Some s => if truthy s then s else fallback
  | None => fallback
  end.

Definition backticks : string := lit "```".

Definition fixMalformedJson (API_KEY : string) (remote : RemoteOutcome)
  : GenerationResult :=
  if negb (truthy API_KEY)
  then Result.make [] (Some (lit "API Key is missing."))
  else
    match remote with
    | Responded text =>
        let text := orElse text [] in
        let cleanText :=
          trim (replaceAll backticks []
                  (replaceAll (backticks ++ lit "json") [] text)) in
        Result.make cleanText None
    | Rejected message =>
        Result.make [] (Some (orElse message (lit "Failed to repair JSON.")))
    end.

(** [text.replace(/^pat\s*/, '')]: an anchored, non-global replacement. *)
Definition stripPrefix (pat : string) (s : string) : string :=
  if starts_with pat s then trimStart (skipn (length pat) s) else s.

(** [text.replace(/```$/, '')]. *)
Definition stripFenceEnd (s : string) : string :=
  if starts_with (rev backticks) (rev s)
  then rev (skipn (length backticks) (rev s))
  else s.

Definition generateTypeScriptInterfaces (API_KEY : string)
  (remote : RemoteOutcome) : GenerationResult :=
  if negb (truthy API_KEY)
  then Result.make [] (Some (lit "API Key is missing."))
  else
    match remote with
    | Responded text =>
        let text := orElse text [] in
        let text :=
          trim (stripFenceEnd
                  (stripPrefix (backticks ++ lit "ts")
                     (stripPrefix (backticks ++ lit "typescript") text))) in
        Result.make text None
    | Rejected message =>
        Result.make []
          (Some (orElse message (lit "Failed to generate types.")))
    end.

(** ** The event loop

    Each user action or settled call runs one handler to completion; React
    then re-renders, and the parse effect runs when [jsonInput] has changed. *)

Inductive Event : Type :=
| Edit (val : string)                       (* CodeEditor onChange *)
| Upload (text : string)                    (* FileReader onload *)
| ClickEscape
| ClickUnescape
| ClickFormat (mode : FormatMode)           (* Raw / Beautify / Tree View *)
| ClickClear
| ClickCopy
| ClickAiFix
| AiFixSettled (result : GenerationResult)
| ClickTypes
| TypesSettled (result : GenerationResult)
| NodeCopy (path : string) (value : JsonValue)
| NodeSelect (value : JsonValue)
| ClickSidebar
| NotificationExpired.

Section Loop.
Context {engine : JsonEngine}.

Definition handle (e : Event) (s : Session) : Session :=
  match e with
  | Edit val => setJsonInput val s
  | Upload text => setJsonInput text s
  | ClickEscape => handleEscape s
  | ClickUnescape => handleUnescape s
  | ClickFormat mode => toggleFormat mode s
  | ClickClear => handleClear s
  | ClickCopy => handleCopy s
  | ClickAiFix =>
      (* disabled={isProcessing || !error} *)
      if isProcessing s || negb (truthy_opt (error s)) then s
      else snd (handleAiFix s)
  | AiFixSettled result => handleAiFix_resume result s
  | ClickTypes =>
      (* disabled={isProcessing || !!error} *)
      if isProcessing s || truthy_opt (error s) then s
      else if truthy_opt (generatedTypes s) then setGeneratedTypes None s
      else snd (handleGenerateTypes s)
  | TypesSettled result => handleGenerateTypes_resume result s
  | NodeCopy path value => onNodeCopy path value s
  | NodeSelect value => onNodeSelect value s
  | ClickSidebar => setIsSidebarOpen (negb (isSidebarOpen s)) s
  | NotificationExpired => setNotification None s
  end.

(** The commit after a handler: the effect depends on [[jsonInput]]. *)
Definition commit (before after : Session) : Session :=
  if string_eqb (jsonInput before) (jsonInput after) then after
  else parseEffect after.

Definition dispatch (e : Event) (s : Session) : Session :=
  commit s (handle e s).

Definition run (events : list Event) (s : Session) : Session :=
  fold_left (fun st e => dispatch e st) events s.

(** The two collaborator calls, by the [aiMode] under which they run, and
    the event that delivers their result. *)
Definition collaborator (kind : AiMode)
  : string -> RemoteOutcome -> GenerationResult :=
  match kind with
  | repair => fixMalformedJson
  | types => generateTypeScriptInterfaces
  end.

Definition settled (kind : AiMode) : GenerationResult -> Event :=
  match kind with
  | repair => AiFixSettled
  | types => TypesSettled
  end.

(** The first render and its effect. *)
Definition mount (DEMO_JSON : string) : Session :=
  parseEffect
    (mkSession DEMO_JSON JNull JNull None false None true None None pretty).

(** The error the parse effect leaves for a given buffer. *)
Definition errorFor (text : string) : option string :=
  if negb (truthy (trim text)) then None
  else match JSON_parse text with
       | Normal _ => None
       | Throw message => Some message
       end.

(** A session is settled when its error is the one of its buffer, as it is
    after every commit. *)
Definition Settled (s : Session) : Prop :=
  error s = errorFor (jsonInput s).
End Loop.

(** ** The tree component (components/JsonTree.tsx) *)

(** [String(index)]: the decimal name of an array index. *)
Fixpoint digits (u : Decimal.uint) : string :=
  match u with
  | Decimal.Nil => []
  | Decimal.D0 u' => 48 :: digits u'
  | Decimal.D1 u' => 49 :: digits u'
  | Decimal.D2 u' => 50 :: digits u'
  | Decimal.D3 u' => 51 :: digits u'
  | Decimal.D4 u' => 52 :: digits u'
  | Decimal.D5 u' => 53 :: digits u'
  | Decimal.D6 u' => 54 :: digits u'
  | Decimal.D7 u' => 55 :: digits u'
  | Decimal.D8 u' => 56 :: digits u'
  | Decimal.D9 u' => 57 :: digits u'
  end.

Definition indexKey (index : nat) : string := digits (Nat.to_uint index).

(** The elements of an array as properties named by their indices. *)
Fixpoint indexed (from : nat) (items : list JsonValue)
  : list (string * JsonValue) :=
  match items with
  | [] => []
  | x :: rest => (indexKey from, x) :: indexed (S from) rest
  end.

(** The own enumerable properties of a value, in [Object.keys] order. *)
Definition properties (value : JsonValue) : list (string * JsonValue) :=
  match value with
  | JObject members => members
  | JArray items => indexed 0 items
  | _ => []
  end.

Definition Object_keys (value : JsonValue) : list string :=
  map fst (properties value).

(** [value[key]]. *)
Fixpoint lookup {A : Type} (key : string) (ps : list (string * A))
  : option A :=
  match ps with
  | [] => None
  | (k, x) :: rest => if string_eqb k key then Some x else lookup key rest
  end.

Definition getProperty (value : JsonValue) (key : string)
  : option JsonValue :=
  lookup key (properties value).

Module JsonTree.

Record JsonNodeProps : Type := mkProps {
  keyName : option string;
  value : JsonValue;
  isLast : bool;
  depth : nat;
  path : string;
  showValues : bool
}.

(** The props [App] gives the root of the main tree view: no [keyName],
    [depth] and [path] at their defaults. *)
Definition rootProps (value : JsonValue) : JsonNodeProps :=
  mkProps None value true 0 [] true.

Definition isObject (value : JsonValue) : bool :=
  match value with
  | JArray _ | JObject _ => true
  | _ => false
  end.

Definition isArray (value : JsonValue) : bool :=
  match value with
  | JArray _ => true
  | _ => false
  end.

Definition isEmpty (value : JsonValue) : bool :=
  isObject value && (length (Object_keys value) =? 0)%nat.

(** Line 105. *)
Definition currentPath (p : JsonNodeProps) : string :=
  match keyName p with
  | Some keyName =>
      if truthy keyName
      then (if truthy (path p) then path p ++ [Ch.DOT] ++ keyName
            else keyName)
      else path p
  | None => path p
  end.

(** Line 176. *)
Definition childPath (p : JsonNodeProps) (key : string) : string :=
  if isArray (value p)
  then currentPath p ++ [Ch.LBRACKET] ++ key ++ [Ch.RBRACKET]
  else if truthy (currentPath p)
       then currentPath p ++ [Ch.DOT] ++ key
       else key.

(** The props of the child rendered for [key] (lines 173-190). *)
Definition childProps (p : JsonNodeProps) (index : nat) (key : string)
  (childValue : JsonValue) : JsonNodeProps :=
  mkProps (Some key) childValue
    (index =? length (Object_keys (value p)) - 1)%nat
    (depth p + 1) (childPath p key) (showValues p).

(** The child elements of a node, one per key; only a non-empty object or
    array renders any. *)
Fixpoint childElements (p : JsonNodeProps) (index : nat)
  (ps : list (string * JsonValue)) : list (string * JsonNodeProps) :=
  match ps with
  | [] => []
  | (key, childValue) :: rest =>
      (key, childProps p index key childValue)
        :: childElements p (S index) rest
  end.

Definition children (p : JsonNodeProps) : list (string * JsonNodeProps) :=
  if isObject (value p) && negb (isEmpty (value p))
  then childElements p 0 (properties (value p))
  else [].

(** A position is the sequence of keys followed from the root; [propsAt]
    gives the props of the node rendered there, if the position exists. *)
Fixpoint propsAt (p : JsonNodeProps) (position : list string)
  : option JsonNodeProps :=
  match position with
  | [] => Some p
  | key :: rest =>
      match lookup key (children p) with
      | Some child => propsAt child rest
      | None => None
      end
  end.

(** The value found by following the keys of a position. *)
Fixpoint valueAt (value : JsonValue) (position : list string)
  : option JsonValue :=
  match position with
  | [] => Some value
  | key :: rest =>
      match getProperty value key with
      | Some childValue => valueAt childValue rest
      | None => None
      end
  end.

(** The path string a node receives, the one [onCopy] reports. *)
Definition pathAt (root : JsonValue) (position : list string)
  : option string :=
  option_map path (propsAt (rootProps root) position).

(** Keys for which the addressing is unambiguous: not empty, no dot. *)
Definition plainKey (key : string) : bool :=
  truthy key && negb (existsb (N.eqb Ch.DOT) key).

(** Every object key of the document is plain. *)
Fixpoint plainKeys (value : JsonValue) : bool :=
  match value with
  | JObject members =>
      forallb (fun m => plainKey (fst m) && plainKeys (snd m)) members
  | JArray items => forallb plainKeys items
  | _ => true
  end.

(** Keys that cannot be taken for path syntax: not empty, and free of the
    dot and of the opening bracket. *)
Definition bareKey (key : string) : bool :=
  truthy key && negb (existsb (N.eqb Ch.DOT) key)
  && negb (existsb (N.eqb Ch.LBRACKET) key).

(** Every object key of the document is bare. *)
Fixpoint bareKeys (value : JsonValue) : bool :=
  match value with
  | JObject members =>
      forallb (fun m => bareKey (fst m) && bareKeys (snd m)) members
  | JArray items => forallb bareKeys items
  | _ => true
  end.

(** A tail is empty or starts with the separator. *)
Definition tailAt (sep : char) (t : string) : Prop :=
  t = [] \/ exists t', t = sep :: t'.

(** What a key of a node with plain keys looks like. *)
Definition goodKey (array : bool) (key : string) : Prop :=
  truthy key = true
  /\ if array then existsb (N.eqb Ch.RBRACKET) key = false
     else existsb (N.eqb Ch.DOT) key = false.

(** The invariant of the props met below a root with plain keys. *)
Definition wf (p : JsonNodeProps) : Prop :=
  plainKeys (value p) = true
  /\ match keyName p with
     | Some key => truthy key = true /\ truthy (path p) = true
     | None => True
     end.

(** *** View state

    Every rendered [JsonTree] element owns one [useState] cell,
    [isExpanded], created as [true] when the element is mounted.  React
    keeps the cell for as long as the element stays rendered under the same
    key; the children of a node are rendered only under
    [{isExpanded && ...}], so they are unmounted, and their cells dropped,
    when the node is collapsed.  An [Instance] is a mounted element: its
    cell and its mounted children by key.  (The [isHovered] cell only shows
    or hides the copy button and is left out, as are the style classes.) *)

Inductive Instance : Type :=
| Inst (isExpanded : bool) (mounted : list (string * Instance)).

Definition isExpanded (i : Instance) : bool :=
  match i with Inst e _ => e end.

Definition mounted (i : Instance) : list (string * Instance) :=
  match i with Inst _ kids => kids end.

(** Mounting the element for [value]: it starts expanded, which mounts the
    elements of its children in turn. *)
Fixpoint mountValue (value : JsonValue) : Instance :=
  Inst true
    match value with
    | JObject members =>
        (fix each (ms : list (string * JsonValue)) :=
           match ms with
           | [] => []
           | (key, childValue) :: rest =>
               (key, mountValue childValue) :: each rest
           end) members
    | JArray items =>
        (fix each (index : nat) (xs : list JsonValue) :=
           match xs with
           | [] => []
           | x :: rest => (indexKey index, mountValue x) :: each (S index) rest
           end) 0%nat items
    | _ => []
    end.

Definition mountChildren (value : JsonValue) : list (string * Instance) :=
  map (fun m => (fst m, mountValue (snd m))) (properties value).

(** [toggleExpand] (lines 75-78) and the render that follows it. *)
Definition toggleExpand (value : JsonValue) (i : Instance) : Instance :=
  let expanded := negb (isExpanded i) in
  Inst expanded (if expanded then mountChildren value else []).

(** Replace the instance mounted under [key]. *)
Fixpoint update (key : string) (f : Instance -> Instance)
  (kids : list (string * Instance)) : list (string * Instance) :=
  match kids with
  | [] => []
  | (k, i) :: rest =>
      if string_eqb k key then (k, f i) :: rest
      else (k, i) :: update key f rest
  end.

(** A click on the toggler of the node at [position].  Only a non-empty
    object or array renders a toggler, and only mounted nodes can be
    clicked. *)
Fixpoint toggleAt (value : JsonValue) (position : list string)
  (i : Instance) : Instance :=
  match position with
  | [] =>
      if isObject value && negb (isEmpty value) then toggleExpand value i
      else i
  | key :: rest =>
      match getProperty value key with
      | Some childValue =>
          Inst (isExpanded i) (update key (toggleAt childValue rest) (mounted i))
      | None => i
      end
  end.

(** The instance mounted at a position, and its flag. *)
Fixpoint instanceAt (i : Instance) (position : list string)
  : option Instance :=
  match position with
  | [] => Some i
  | key :: rest =>
      match lookup key (mounted i) with
      | Some child => instanceAt child rest
      | None => None
      end
  end.

Definition expandedAt (i : Instance) (position : list string)
  : option bool :=
  option_map isExpanded (instanceAt i position).

(** The view is in step with the value it shows: a collapsed node has no
    mounted children, an expanded node has one mounted child per key of its
    value, in the order of the keys. *)
Inductive Synced : JsonValue -> Instance -> Prop :=
| Synced_collapsed (value : JsonValue) : Synced value (Inst false [])
| Synced_expanded (value : JsonValue) (kids : list (string * Instance)) :
    Forall2 (fun m kid => fst m = fst kid /\ Synced (snd m) (snd kid))
      (properties value) kids ->
    Synced value (Inst true kids).

(** *** Rows *)

Inductive Row : Type :=
| Header (depth : nat) (label : option string) (array : bool)
    (typeLabel : bool) (collapsed : option (nat * bool))
    (* summary of a collapsed node: size, trailing comma *)
| Footer (depth : nat) (array : bool) (comma : bool)
| Leaf (depth : nat) (label : option string) (shown : option JsonValue)
    (comma : bool).

Definition headerRow (p : JsonNodeProps) (expanded : bool) : Row :=
  Header (depth p) (keyName p) (isArray (value p)) (showValues p)
    (if expanded then None
     else Some (length (properties (value p)),
                negb (isLast p) && showValues p)).

Definition footerRow (p : JsonNodeProps) : Row :=
  Footer (depth p) (isArray (value p)) (negb (isLast p) && showValues p).

Definition leafRow (p : JsonNodeProps) : Row :=
  Leaf (depth p) (keyName p)
    (if showValues p then Some (value p) else None)
    (showValues p && negb (isLast p)).

(** The rows a node contributes itself, without those of its children. *)
Definition ownRows (p : JsonNodeProps) (expanded : bool) : list Row :=
  if isObject (value p) && negb (isEmpty (value p))
  then headerRow p expanded :: (if expanded then [footerRow p] else [])
  else [leafRow p].

(** The rendered outline of a node: each mounted child is rendered with the
    props of the element of its key. *)
Fixpoint rows (p : JsonNodeProps) (i : Instance) : list Row :=
  match i with
  | Inst expanded kids =>
      if isObject (value p) && negb (isEmpty (value p))
      then
        headerRow p expanded ::
        (if expanded
         then flat_map (fun kid =>
                          match lookup (fst kid) (children p) with
                          | Some child => rows child (snd kid)
                          | None => []
                          end) kids
              ++ [footerRow p]
         else [])
      else [leafRow p]
  end.

Definition ownRowsAt (root : JsonValue) (view : Instance)
  (position : list string) : option (list Row) :=
  match propsAt (rootProps root) position, expandedAt view position with
  | Some p, Some expanded => Some (ownRows p expanded)
  | _, _ => None
  end.

Definition rowsAt (root : JsonValue) (view : Instance)
  (position : list string) : option (list Row) :=
  match propsAt (rootProps root) position, instanceAt view position with
  | Some p, Some i => Some (rows p i)
  | _, _ => None
  end.

(** The main tree view: the document it shows and the mounted instances. *)
Record TreeView : Type := mkTreeView {
  document : JsonValue;
  view : Instance
}.

Definition open (document : JsonValue) : TreeView :=
  mkTreeView document (mountValue document).

Definition click (position : list string) (tv : TreeView) : TreeView :=
  mkTreeView (document tv) (toggleAt (document tv) position (view tv)).

(** [prefix p q]: [q] is [p] or lies below it. *)
Fixpoint prefix (p q : list string) : bool :=
  match p, q with
  | [], _ => true
  | a :: p', b :: q' => string_eqb a b && prefix p' q'
  | _ :: _, [] => false
  end.

End JsonTree.

(** ** The path rendering of the design document

    Section 4.2 of the design document renders object access as [.key], or
    as the bare [key] at depth 0, and array access as [[index]], with no
    separator before the bracket.  This second definition follows those
    words, to be set beside the strings the component computes
    ([JsonTree.pathAt]). *)
Module Described.
Definition accessor (parent : JsonValue) (depth : nat) (path key : string)
  : string :=
  if JsonTree.isArray parent
  then path ++ [Ch.LBRACKET] ++ key ++ [Ch.RBRACKET]
  else match depth with
       | O => key
       | S _ => path ++ [Ch.DOT] ++ key
       end.

Fixpoint pathFrom (value : JsonValue) (depth : nat) (path : string)
  (position : list string) : option string :=
  match position with
  | [] => Some path
  | key :: rest =>
      match getProperty value key with
      | Some childValue =>
          pathFrom childValue (S depth) (accessor value depth path key) rest
      | None => None
      end
  end.

Definition pathAt (root : JsonValue) (position : list string)
  : option string :=
  pathFrom root 0 [] position.

(** The code units that start an accessor. *)
Definition isAccessor (c : char) : bool :=
  (Ch.DOT =? c) || (Ch.LBRACKET =? c).

(** A tail is empty or starts with an accessor: a dot or a bracket. *)
Definition accessorTail (t : string) : Prop :=
  t = [] \/ exists c t', t = c :: t' /\ (c = Ch.DOT \/ c = Ch.LBRACKET).
End Described.

(** ** Concrete buffers and documents, run with the literal engine *)

Module Examples.
(** The buffer backslash, [t], [x]: no JSON value, and none after
    unescaping (tab, [x]) either; the two parses stop at different code
    units. *)
Definition broken : string := [Ch.BACKSLASH; Ch.t; 120].

(** The buffer backslash, [t], [null]: no JSON value, but unescaping gives
    tab, [null]. *)
Definition escapedNull : string := [Ch.BACKSLASH; Ch.t] ++ lit "null".

Definition start : Session := mount (engine := Lit.engine) (lit "true").

(** The document [{"a": {"b": true}, "c": [null]}]. *)
Definition nested : JsonValue :=
  JObject [(lit "a", JObject [(lit "b", JBoolean true)]);
           (lit "c", JArray [JNull])].

(** The document [{"a.a": {"a": null}, "a": {"a": {"a": true}}}]. *)
Definition dotted : JsonValue :=
  JObject [(lit "a.a", JObject [(lit "a", JNull)]);
           (lit "a",
            JObject [(lit "a", JObject [(lit "a", JBoolean true)])])].

(** The document [{"a": [{"b": true}]}]. *)
Definition listed : JsonValue :=
  JObject [(lit "a", JArray [JObject [(lit "b", JBoolean true)]])].

Definition after (events : list Event) : Session :=
  run (engine := Lit.engine) events start.

Definition quoted (s : string) : string := Ch.QUOTE :: s ++ [Ch.QUOTE].

(** The text [[1.5, -0, {"b": 2e-3, "a": "x
", "1": null}]]. *)
Definition mixed : string :=
  lit "[1.5, -0, {" ++ quoted (lit "b") ++ lit ": 2e-3, "
  ++ quoted (lit "a") ++ lit ": " ++ quoted (lit "x\n") ++ lit ", "
  ++ quoted (lit "1") ++ lit ": null}]".

(** The text [{"b": true, "1": false}]. *)
Definition indexLast : string :=
  lit "{" ++ quoted (lit "b") ++ lit ": true, " ++ quoted (lit "1")
  ++ lit ": false}".
End Examples.

(** ** Escape sequences as tokens

    The output of [escapeString] read as a sequence of tokens: a code unit
    that stands for itself, or a backslash followed by a letter. *)

Inductive Token : Type :=
| Plain (c : char)
| Esc (z : char).

Definition spell (t : Token) : string :=
  match t with
  | Plain c => [c]
  | Esc z => [Ch.BACKSLASH; z]
  end.

Definition render (ts : list Token) : string := flat_map spell ts.

Definition tokenOf (c : char) : Token :=
  if c =? Ch.BACKSLASH then Esc Ch.BACKSLASH
  else if c =? Ch.QUOTE then Esc Ch.QUOTE
  else if c =? Ch.LF then Esc Ch.n
  else if c =? Ch.CR then Esc Ch.r
  else if c =? Ch.TAB then Esc Ch.t
  else if c =? Ch.BS then Esc Ch.b
  else if c =? Ch.FF then Esc Ch.f
  else Plain c.

(** One pass of [unescapeString]: the sequence backslash-[x] becomes [y]. *)
Definition decode (x y : char) (t : Token) : Token :=
  match t with
  | Esc z => if z =? x then Plain y else t
  | Plain _ => t
  end.

(** The first code unit of the text of the tokens that follow is [x]. *)
Definition nextIs (x : char) (ts : list Token) : bool :=
  match ts with
  | Plain c :: _ => c =? x
  | _ => false
  end.

(** A token sequence that the pass for backslash-[x] reads as it was
    written: no plain backslash, and no escaped backslash right before a
    plain [x]. *)
Fixpoint readable (x : char) (ts : list Token) : bool :=
  match ts with
  | [] => true
  | Plain c :: rest => negb (c =? Ch.BACKSLASH) && readable x rest
  | Esc z :: rest =>
      negb ((z =? Ch.BACKSLASH) && nextIs x rest) && readable x rest
  end.

(** The letters that follow a backslash in the five escape sequences for
    control characters. *)
Definition isControlLetter (c : char) : bool :=
  (c =? Ch.n) || (c =? Ch.r) || (c =? Ch.t) || (c =? Ch.b) || (c =? Ch.f).

(** No backslash of [s] is immediately followed by a code unit in [bad]. *)
Fixpoint noBackslashBefore (bad : char -> bool) (s : string) : bool :=
  match s with
  | [] => true
  | c :: rest =>
      negb ((c =? Ch.BACKSLASH)
            && match rest with
               | d :: _ => bad d
               | [] => false
               end)
      && noBackslashBefore bad rest
  end.

(** The strings on which escaping can be undone: no backslash immediately
    followed by one of the letters n, r, t, b, f. *)
Definition roundTrips (s : string) : bool :=
  noBackslashBefore isControlLetter s.

(** After the six passes for the sequences with a letter, what is left of
    the tokens: plain code units other than the backslash, and escaped
    backslashes. *)
Definition settledToken (t : Token) : bool :=
  match t with
  | Plain c => negb (c =? Ch.BACKSLASH)
  | Esc z => z =? Ch.BACKSLASH
  end.

Definition charOf (t : Token) : char :=
  match t with
  | Plain c => c
  | Esc _ => Ch.BACKSLASH
  end.

(** The six passes together, on one token. *)
Definition decodeLetters (t : Token) : Token :=
  decode Ch.QUOTE Ch.QUOTE
    (decode Ch.f Ch.FF
       (decode Ch.b Ch.BS
          (decode Ch.t Ch.TAB
             (decode Ch.r Ch.CR
                (decode Ch.n Ch.LF t))))).

(** ** Occurrences of a pattern *)

(** [contains pat s]: the literal pattern occurs somewhere in [s]
    ([s.includes(pat)]). *)
Fixpoint contains (pat s : string) : bool :=
  starts_with pat s
  || match s with
     | [] => false
     | _ :: rest => contains pat rest
     end.

(** The number of backticks a string starts with. *)
Fixpoint leadingBackticks (s : string) : nat :=
  match s with
  | c :: rest => if c =? 96 then S (leadingBackticks rest) else O
  | [] => O
  end.

(** ** Reading the outline *)

(** Induction on a mounted instance, with the hypothesis for every mounted
    child. *)
Fixpoint Instance_nested_ind (P : JsonTree.Instance -> Prop)
  (HInst : forall expanded kids,
      Forall (fun kid => P (snd kid)) kids ->
      P (JsonTree.Inst expanded kids))
  (i : JsonTree.Instance) : P i :=
  match i with
  | JsonTree.Inst expanded kids =>
      HInst expanded kids
        ((fix each (l : list (string * JsonTree.Instance))
            : Forall (fun kid => P (snd kid)) l :=
            match l with
            | [] => Forall_nil _
            | kid :: rest =>
                Forall_cons kid (Instance_nested_ind P HInst (snd kid))
                  (each rest)
            end) kids)
  end.

(** A row that opens a bracket: the header of an expanded node. *)
Definition opensBracket (r : JsonTree.Row) : bool :=
  match r with
  | JsonTree.Header _ _ _ _ None => true
  | _ => false
  end.

(** A row that closes a bracket. *)
Definition closesBracket (r : JsonTree.Row) : bool :=
  match r with
  | JsonTree.Footer _ _ _ => true
  | _ => false
  end.

(** A sequence of clicks on togglers, from the freshly opened view. *)
Definition clicks (positions : list (list string)) (tv : JsonTree.TreeView)
  : JsonTree.TreeView :=
  fold_left (fun view position => JsonTree.click position view) positions tv.

(** ** The editor surface (components/CodeEditor.tsx) *)

(** [s.split(sep)] for a separator of one code unit: the pieces between the
    separators; a string without separator is its only piece. *)
Fixpoint split (sep : char) (s : string) : list string :=
  match s with
  | [] => [[]]
  | c :: rest =>
      if c =? sep then [] :: split sep rest
      else match split sep rest with
           | piece :: pieces => (c :: piece) :: pieces
           | [] => [[c]]
           end
  end.

Module CodeEditor.
(** Line 21. *)
Definition lineCount (value : string) : nat := length (split Ch.LF value).

(** Line 22: [Array.from({ length: Math.max(lineCount, 15) },
    (_, i) => i + 1)]. *)
Definition lines (value : string) : list nat :=
  map (fun i => (i + 1)%nat) (seq 0 (Nat.max (lineCount value) 15)).
End CodeEditor.

(** ** The parsed value of a session *)

Section Shown.
Context {engine : JsonEngine}.

(** The parsed value follows the buffer: it is [null] for a blank buffer and
    the parse of the buffer when the buffer parses (after a failed parse it
    is whatever it was). *)
Definition ParsedSettled (s : Session) : Prop :=
  if negb (truthy (trim (jsonInput s))) then parsedData s = JNull
  else match JSON_parse (jsonInput s) with
       | Normal parsed => parsedData s = parsed
       | Throw _ => True
       end.
End Shown.

(** ** What the main area shows (App.tsx, lines 434-481) *)

Inductive MainView : Type :=
| TypesEditor (text : string)            (* the generated interfaces *)
| TreeProblem (message : string)         (* Cannot Render Tree View *)
| TreeOutline (value : JsonValue)        (* the JsonTree of parsedData *)
| EmptyJson                              (* Empty JSON *)
| TextEditor (text : string) (error : option string).

(** [parsedData !== null ? <JsonTree value={parsedData} ... /> : ...]. *)
Definition outlineOf (parsedData : JsonValue) : MainView :=
  match parsedData with
  | JNull => EmptyJson
  | value => TreeOutline value
  end.

Definition mainView (s : Session) : MainView :=
  if truthy_opt (generatedTypes s)
  then TypesEditor (orElse (generatedTypes s) [])
  else
    match formatMode s with
    | tree =>
        if truthy_opt (error s) then TreeProblem (orElse (error s) [])
        else outlineOf (parsedData s)
    | _ => TextEditor (jsonInput s) (error s)
    end.

(** The props [App] gives the root of the structure sidebar (line 501). *)
Definition sidebarProps (value : JsonValue) : JsonTree.JsonNodeProps :=
  JsonTree.mkProps None value true 0 [] false.

(** A row that shows no value, no type label and no comma. *)
Definition structureOnly (r : JsonTree.Row) : bool :=
  match r with
  | JsonTree.Header _ _ _ typeLabel collapsed =>
      negb typeLabel
      && match collapsed with
         | Some (_, comma) => negb comma
         | None => true
         end
  | JsonTree.Footer _ _ comma => negb comma
  | JsonTree.Leaf _ _ shown comma =>
      negb comma && match shown with
                    | None => true
                    | Some _ => false
                    end
  end.

(** * Properties *)

(** ** Strings *)

Lemma string_eqb_spec (s1 s2 : string) : reflect (s1 = s2) (string_eqb s1 s2).
Proof.
  revert s2; induction s1 as [|c1 r1 IH]; intros [|c2 r2]; simpl;
    try (constructor; congruence).
  destruct (N.eqb_spec c1 c2) as [->|Hne]; simpl.
  - destruct (IH r2) as [->|Hne]; constructor; congruence.
  - constructor; congruence.
Qed.

Lemma string_eqb_refl (s : string) : string_eqb s s = true.
Proof. destruct (string_eqb_spec s s); congruence. Qed.

Lemma string_eqb_eq (s1 s2 : string) : string_eqb s1 s2 = true <-> s1 = s2.
Proof. destruct (string_eqb_spec s1 s2); split; congruence. Qed.

Lemma string_eqb_neq (s1 s2 : string) : string_eqb s1 s2 = false <-> s1 <> s2.
Proof. destruct (string_eqb_spec s1 s2); split; congruence. Qed.

Lemma trimStart_blank (s : string) :
  forallb isWhiteSpace s = true -> trimStart s = [].
Proof.
  induction s as [|c s IH]; simpl; [reflexivity|].
  intros H; apply andb_prop in H as [Hc Hs]. rewrite Hc. auto.
Qed.

Lemma trim_blank (s : string) : forallb isWhiteSpace s = true -> trim s = [].
Proof.
  intros H. unfold trim. rewrite (trimStart_blank s H). reflexivity.
Qed.

(** ** A global replacement of one code unit works unit by unit *)

Lemma replaceAll_char (p : char) (rep s : string) :
  replaceAll [p] rep s = flat_map (fun c => if c =? p then rep else [c]) s.
Proof.
  unfold replaceAll. induction s as [|c s IH]; simpl; [reflexivity|].
  rewrite (N.eqb_sym p c), andb_true_r.
  destruct (c =? p); simpl; rewrite IH; reflexivity.
Qed.

Lemma flat_map_compose {A B C : Type} (g : A -> list B) (f : B -> list C)
  (l : list A) :
  flat_map f (flat_map g l) = flat_map (fun a => flat_map f (g a)) l.
Proof.
  induction l as [|a l IH]; simpl; [reflexivity|].
  rewrite flat_map_app, IH. reflexivity.
Qed.

Lemma escapeString_by_char (s : string) :
  escapeString s = flat_map escapeChar s.
Proof.
  unfold escapeString. rewrite !replaceAll_char, !flat_map_compose.
  apply flat_map_ext. intros c. unfold escapeChar.
  destruct (N.eqb_spec c Ch.BACKSLASH) as [->|H1]; [reflexivity|].
  destruct (N.eqb_spec c Ch.QUOTE) as [->|H2]; [reflexivity|].
  destruct (N.eqb_spec c Ch.LF) as [->|H3]; [reflexivity|].
  destruct (N.eqb_spec c Ch.CR) as [->|H4]; [reflexivity|].
  destruct (N.eqb_spec c Ch.TAB) as [->|H5]; [reflexivity|].
  destruct (N.eqb_spec c Ch.BS) as [->|H6]; [reflexivity|].
  destruct (N.eqb_spec c Ch.FF) as [->|H7]; [reflexivity|].
  simpl.
  repeat match goal with
         | H : c <> ?k |- context [c =? ?k] =>
             rewrite (proj2 (N.eqb_neq c k) H); simpl
         end.
  reflexivity.
Qed.

Lemma escaped_form_escapeChar (c : char) (rest : string) :
  escaped_form isEscaped (escapeChar c ++ rest) = escaped_form isEscaped rest.
Proof.
  unfold escapeChar.
  destruct (N.eqb_spec c Ch.BACKSLASH) as [->|H1]; [reflexivity|].
  destruct (N.eqb_spec c Ch.QUOTE) as [->|H2]; [reflexivity|].
  destruct (N.eqb_spec c Ch.LF) as [->|H3]; [reflexivity|].
  destruct (N.eqb_spec c Ch.CR) as [->|H4]; [reflexivity|].
  destruct (N.eqb_spec c Ch.TAB) as [->|H5]; [reflexivity|].
  destruct (N.eqb_spec c Ch.BS) as [->|H6]; [reflexivity|].
  destruct (N.eqb_spec c Ch.FF) as [->|H7]; [reflexivity|].
  simpl. unfold isEscaped.
  repeat match goal with
         | H : c <> ?k |- context [c =? ?k] =>
             rewrite (proj2 (N.eqb_neq c k) H); simpl
         end.
  reflexivity.
Qed.

(** ** Undoing the escape, pass by pass *)

Lemma escapeString_render (s : string) :
  escapeString s = render (map tokenOf s).
Proof.
  rewrite escapeString_by_char. unfold render. rewrite flat_map_concat_map.
  rewrite flat_map_concat_map, map_map. f_equal. apply map_ext.
  intros c. unfold escapeChar, tokenOf.
  repeat match goal with
         | |- context [c =? ?k] => destruct (c =? k); [reflexivity|]
         end.
  reflexivity.
Qed.

Lemma render_starts (x : char) (ts : list Token) :
  x <> Ch.BACKSLASH ->
  starts_with [x] (render ts) = nextIs x ts.
Proof.
  intros Hx. destruct ts as [|[c|z] rest]; try reflexivity.
  - cbn [render flat_map spell app starts_with nextIs].
    rewrite andb_true_r. apply N.eqb_sym.
  - cbn [render flat_map spell app starts_with nextIs].
    rewrite andb_true_r. apply N.eqb_neq. exact Hx.
Qed.

(** A pass for backslash-[x] over a readable sequence decodes exactly the
    tokens [Esc x]. *)
Lemma replaceAll_decode (x y : char) (ts : list Token) :
  x <> Ch.BACKSLASH -> readable x ts = true ->
  replaceAll [Ch.BACKSLASH; x] [y] (render ts)
  = render (map (decode x y) ts).
Proof.
  intros Hx. unfold replaceAll.
  induction ts as [|[c|z] rest IH]; intros Hr; [reflexivity| |].
  - simpl in Hr. apply andb_prop in Hr as [Hc Hr].
    apply negb_true_iff in Hc.
    change (render (Plain c :: rest)) with (c :: render rest).
    assert (Hs : starts_with [Ch.BACKSLASH; x] (c :: render rest) = false).
    { cbn [starts_with]. rewrite (N.eqb_sym Ch.BACKSLASH c), Hc.
      reflexivity. }
    cbn [replace_from]. rewrite Hs. cbn [map decode].
    change (render (Plain c :: map (decode x y) rest))
      with (c :: render (map (decode x y) rest)).
    f_equal. apply IH, Hr.
  - simpl in Hr. apply andb_prop in Hr as [Hz Hr].
    apply negb_true_iff in Hz. specialize (IH Hr).
    change (render (Esc z :: rest)) with (Ch.BACKSLASH :: z :: render rest).
    cbn [replace_from length Nat.pred].
    assert (Hs : starts_with [Ch.BACKSLASH; x]
                   (Ch.BACKSLASH :: z :: render rest) = (z =? x)).
    { cbn [starts_with]. rewrite N.eqb_refl, andb_true_r. cbn [andb].
      apply N.eqb_sym. }
    rewrite Hs. cbn [map decode].
    destruct (z =? x) eqn:Hzx.
    + simpl. fold (render rest). rewrite IH. reflexivity.
    + assert (Hs' : starts_with [Ch.BACKSLASH; x] (z :: render rest)
                    = false).
      { change (starts_with [Ch.BACKSLASH; x] (z :: render rest))
          with ((Ch.BACKSLASH =? z) && starts_with [x] (render rest)).
        rewrite (render_starts x rest Hx), (N.eqb_sym Ch.BACKSLASH z).
        exact Hz. }
      rewrite Hs'. rewrite IH. reflexivity.
Qed.

(** Decoding leaves a sequence readable for a later pass. *)
Lemma readable_decode (x y x' : char) (ts : list Token) :
  y <> Ch.BACKSLASH -> y <> x' ->
  readable x' ts = true -> readable x' (map (decode x y) ts) = true.
Proof.
  intros Hy Hyx.
  assert (Hnext : forall rest,
             nextIs x' rest = false ->
             nextIs x' (map (decode x y) rest) = false).
  { intros [|[c|z] rest]; simpl; auto.
    intros _. destruct (z =? x); simpl; auto.
    apply N.eqb_neq. exact Hyx. }
  induction ts as [|[c|z] rest IH]; simpl; intros Hr; [reflexivity| |].
  - apply andb_prop in Hr as [Hc Hr]. rewrite Hc, IH; auto.
  - apply andb_prop in Hr as [Hz Hr]. specialize (IH Hr).
    destruct (z =? x); simpl.
    + rewrite IH, andb_true_r. apply negb_true_iff, N.eqb_neq. exact Hy.
    + rewrite IH, andb_true_r.
      apply negb_true_iff in Hz. apply negb_true_iff.
      destruct (z =? Ch.BACKSLASH); simpl in *; [|reflexivity].
      apply Hnext. exact Hz.
Qed.

(** The last pass turns each escaped backslash into a backslash. *)
Lemma replaceAll_backslashes (ts : list Token) :
  forallb settledToken ts = true ->
  replaceAll [Ch.BACKSLASH; Ch.BACKSLASH] [Ch.BACKSLASH] (render ts)
  = map charOf ts.
Proof.
  unfold replaceAll.
  induction ts as [|[c|z] rest IH]; intros H; [reflexivity| |];
    cbn [forallb settledToken] in H; apply andb_prop in H as [Ht Hr];
    specialize (IH Hr).
  - apply negb_true_iff in Ht.
    change (render (Plain c :: rest)) with (c :: render rest).
    cbn [replace_from starts_with].
    rewrite (N.eqb_sym Ch.BACKSLASH c), Ht. cbn [andb map charOf].
    f_equal. exact IH.
  - apply N.eqb_eq in Ht. subst z.
    change (render (Esc Ch.BACKSLASH :: rest))
      with (Ch.BACKSLASH :: Ch.BACKSLASH :: render rest).
    cbn [replace_from starts_with length Nat.pred].
    rewrite N.eqb_refl. cbn [andb app map charOf]. f_equal. exact IH.
Qed.

Lemma noBackslashBefore_weaken (bad bad' : char -> bool) (s : string) :
  (forall d, bad' d = true -> bad d = true) ->
  noBackslashBefore bad s = true -> noBackslashBefore bad' s = true.
Proof.
  intros Hb. induction s as [|c rest IH]; [reflexivity|].
  cbn [noBackslashBefore]. intros H. apply andb_prop in H as [Hc Hr].
  rewrite (IH Hr), andb_true_r.
  apply negb_true_iff in Hc. apply negb_true_iff.
  destruct (c =? Ch.BACKSLASH); [|reflexivity].
  destruct rest as [|d rest]; [reflexivity|]. cbn [andb] in *.
  destruct (bad' d) eqn:Hd; [|reflexivity].
  rewrite (Hb d Hd) in Hc. discriminate.
Qed.

Lemma tokenOf_cases (c : char) :
  (isEscaped c = false /\ tokenOf c = Plain c /\ c <> Ch.BACKSLASH)
  \/ (isEscaped c = true
      /\ exists z, tokenOf c = Esc z
                   /\ ((z =? Ch.BACKSLASH) = (c =? Ch.BACKSLASH))).
Proof.
  unfold tokenOf, isEscaped.
  destruct (N.eqb_spec c Ch.BACKSLASH) as [->|H1];
    [right; split; [reflexivity | eexists; split; reflexivity]|].
  destruct (N.eqb_spec c Ch.QUOTE) as [->|H2];
    [right; split; [reflexivity | eexists; split; reflexivity]|].
  destruct (N.eqb_spec c Ch.LF) as [->|H3];
    [right; split; [reflexivity | eexists; split; reflexivity]|].
  destruct (N.eqb_spec c Ch.CR) as [->|H4];
    [right; split; [reflexivity | eexists; split; reflexivity]|].
  destruct (N.eqb_spec c Ch.TAB) as [->|H5];
    [right; split; [reflexivity | eexists; split; reflexivity]|].
  destruct (N.eqb_spec c Ch.BS) as [->|H6];
    [right; split; [reflexivity | eexists; split; reflexivity]|].
  destruct (N.eqb_spec c Ch.FF) as [->|H7];
    [right; split; [reflexivity | eexists; split; reflexivity]|].
  left. auto.
Qed.

(** The tokens of an escaped string are readable for the pass of [x] when
    no backslash of the string comes right before an [x] that the escaping
    copies. *)
Lemma readable_tokens (x : char) (s : string) :
  noBackslashBefore (fun d => (d =? x) && negb (isEscaped d)) s = true ->
  readable x (map tokenOf s) = true.
Proof.
  induction s as [|c rest IH]; [reflexivity|].
  cbn [noBackslashBefore map]. intros H. apply andb_prop in H as [Hc Hr].
  specialize (IH Hr).
  destruct (tokenOf_cases c) as [(_ & -> & Hne)|(_ & z & -> & Hz)];
    cbn [readable]; rewrite IH, andb_true_r.
  - apply negb_true_iff, N.eqb_neq, Hne.
  - rewrite Hz. apply negb_true_iff in Hc. apply negb_true_iff.
    destruct (c =? Ch.BACKSLASH); [|reflexivity]. cbn [andb] in *.
    destruct rest as [|d rest]; [reflexivity|]. cbn [map].
    destruct (tokenOf_cases d) as [(He & -> & _)|(_ & z' & -> & _)];
      cbn [nextIs]; [|reflexivity].
    rewrite He, andb_true_r in Hc. exact Hc.
Qed.

Lemma decodeLetters_tokenOf (c : char) :
  settledToken (decodeLetters (tokenOf c)) = true
  /\ charOf (decodeLetters (tokenOf c)) = c.
Proof.
  unfold tokenOf.
  destruct (N.eqb_spec c Ch.BACKSLASH) as [->|H1]; [split; reflexivity|].
  destruct (N.eqb_spec c Ch.QUOTE) as [->|H2]; [split; reflexivity|].
  destruct (N.eqb_spec c Ch.LF) as [->|H3]; [split; reflexivity|].
  destruct (N.eqb_spec c Ch.CR) as [->|H4]; [split; reflexivity|].
  destruct (N.eqb_spec c Ch.TAB) as [->|H5]; [split; reflexivity|].
  destruct (N.eqb_spec c Ch.BS) as [->|H6]; [split; reflexivity|].
  destruct (N.eqb_spec c Ch.FF) as [->|H7]; [split; reflexivity|].
  cbn. split; [|reflexivity]. apply negb_true_iff, N.eqb_neq, H1.
Qed.

(** X1.  Where the escaping can be undone.  For every string in which no
    backslash is immediately followed by one of the letters n, r, t, b, f,
    [unescapeString (escapeString s) = s]. *)
Theorem unescape_escape_roundTrips (s : string) :
  roundTrips s = true -> unescapeString (escapeString s) = s.
Proof.
  intros Hs. unfold roundTrips in Hs.
  assert (R : forall x, isControlLetter x = true \/ isEscaped x = true ->
                        readable x (map tokenOf s) = true).
  { intros x Hx. apply readable_tokens.
    revert Hs. apply noBackslashBefore_weaken. intros d Hd.
    apply andb_prop in Hd as [Hdx Hde]. apply N.eqb_eq in Hdx. subst d.
    destruct Hx as [Hx|Hx]; [exact Hx|].
    rewrite Hx in Hde. discriminate. }
  rewrite escapeString_render. unfold unescapeString.
  rewrite (replaceAll_decode Ch.n Ch.LF)
    by (try discriminate; apply R; left; reflexivity).
  rewrite (replaceAll_decode Ch.r Ch.CR)
    by (try discriminate;
        repeat (apply readable_decode; [discriminate | discriminate |]);
        apply R; left; reflexivity).
  rewrite (replaceAll_decode Ch.t Ch.TAB)
    by (try discriminate;
        repeat (apply readable_decode; [discriminate | discriminate |]);
        apply R; left; reflexivity).
  rewrite (replaceAll_decode Ch.b Ch.BS)
    by (try discriminate;
        repeat (apply readable_decode; [discriminate | discriminate |]);
        apply R; left; reflexivity).
  rewrite (replaceAll_decode Ch.f Ch.FF)
    by (try discriminate;
        repeat (apply readable_decode; [discriminate | discriminate |]);
        apply R; left; reflexivity).
  rewrite (replaceAll_decode Ch.QUOTE Ch.QUOTE)
    by (try discriminate;
        repeat (apply readable_decode; [discriminate | discriminate |]);
        apply R; right; reflexivity).
  rewrite !map_map.
  change (fun c => decode Ch.QUOTE Ch.QUOTE
                     (decode Ch.f Ch.FF
                        (decode Ch.b Ch.BS
                           (decode Ch.t Ch.TAB
                              (decode Ch.r Ch.CR
                                 (decode Ch.n Ch.LF (tokenOf c)))))))
    with (fun c => decodeLetters (tokenOf c)).
  rewrite replaceAll_backslashes.
  - rewrite map_map. rewrite <- (map_id s) at 2. apply map_ext.
    intros c. apply decodeLetters_tokenOf.
  - apply forallb_forall. intros t Ht. apply in_map_iff in Ht as (c & <- & _).
    apply decodeLetters_tokenOf.
Qed.

(** C8 (as amended).  For every string [s], the output of [escapeString]
    contains no unescaped backslash, double quote, newline, carriage return,
    tab, backspace or form feed: read from the left, it is a sequence of the
    seven escape sequences and of code units other than those seven. *)
Theorem escapeString_no_raw_escaped (s : string) :
  no_raw_escaped (escapeString s) = true.
Proof.
  rewrite escapeString_by_char. unfold no_raw_escaped.
  induction s as [|c s IH]; [reflexivity|].
  cbn [flat_map]. rewrite escaped_form_escapeChar. exact IH.
Qed.

(** C8, counterexample.  A vertical tab (U+000B) is a control character;
    [escapeString] copies it, so its output contains an unescaped control
    character. *)
Lemma escapeString_leaves_control :
  isControl Ch.VT = true
  /\ escapeString [Ch.VT] = [Ch.VT]
  /\ no_raw_special (escapeString [Ch.VT]) = false.
Proof. repeat split. Qed.

(** C1, at the failing input.  The two code units backslash, [n] are escaped
    to backslash, backslash, [n]; [unescapeString] first rewrites the pair
    backslash-[n] it finds at offset 1 and returns backslash, line feed. *)
Theorem unescape_escape_backslash_n :
  escapeString [Ch.BACKSLASH; Ch.n] = [Ch.BACKSLASH; Ch.BACKSLASH; Ch.n]
  /\ unescapeString (escapeString [Ch.BACKSLASH; Ch.n])
     = [Ch.BACKSLASH; Ch.LF]
  /\ unescapeString (escapeString [Ch.BACKSLASH; Ch.n])
     <> [Ch.BACKSLASH; Ch.n].
Proof. repeat split. discriminate. Qed.

(** ** The session *)

Section SessionFacts.
Context {engine : JsonEngine}.

Ltac break_match :=
  repeat match goal with
         | |- context [match ?x with _ => _ end] => destruct x eqn:?; simpl
         end.

Lemma parseEffect_jsonInput (s : Session) :
  jsonInput (parseEffect s) = jsonInput s.
Proof. unfold parseEffect. break_match; reflexivity. Qed.

Lemma parseEffect_error (s : Session) :
  error (parseEffect s) = errorFor (jsonInput s).
Proof. unfold parseEffect, errorFor. break_match; reflexivity. Qed.

Lemma commit_jsonInput (before after : Session) :
  jsonInput (commit before after) = jsonInput after.
Proof.
  unfold commit. destruct (string_eqb _ _); [reflexivity|].
  apply parseEffect_jsonInput.
Qed.

Lemma commit_changed (before after : Session) :
  jsonInput after <> jsonInput before ->
  commit before after = parseEffect after.
Proof.
  intros H. unfold commit.
  destruct (string_eqb_spec (jsonInput before) (jsonInput after));
    congruence.
Qed.

Lemma commit_unchanged (before after : Session) :
  jsonInput after = jsonInput before -> commit before after = after.
Proof.
  intros H. unfold commit. rewrite H, string_eqb_refl. reflexivity.
Qed.

Lemma Settled_parseEffect (s : Session) : Settled (parseEffect s).
Proof.
  unfold Settled. rewrite parseEffect_error, parseEffect_jsonInput.
  reflexivity.
Qed.

Lemma Settled_mount (DEMO_JSON : string) : Settled (mount DEMO_JSON).
Proof. apply Settled_parseEffect. Qed.

Lemma handleFormat_sameData (text : string) (s : Session) :
  sameData s (snd (handleFormat text s)).
Proof. unfold handleFormat, sameData. break_match; auto. Qed.

Lemma handleMinify_sameData (text : string) (s : Session) :
  sameData s (snd (handleMinify text s)).
Proof. unfold handleMinify, sameData. break_match; auto. Qed.

Lemma toggleRecovery_sameData (mode : FormatMode) (s s' : Session) :
  toggleRecovery mode s = Some s' -> sameData s s'.
Proof.
  unfold toggleRecovery, sameData.
  destruct (truthy_opt (error s) && _); [|discriminate].
  destruct (JSON_parse _); [|discriminate].
  destruct mode; intros H; inversion H; auto.
Qed.

Lemma toggleFormat_sameData (mode : FormatMode) (s : Session) :
  sameData s (toggleFormat mode s).
Proof.
  unfold toggleFormat.
  destruct (FormatMode_eqb mode (formatMode s) && _);
    [unfold sameData; auto|].
  destruct (toggleRecovery mode s) as [s'|] eqn:Hrec.
  - eapply toggleRecovery_sameData, Hrec.
  - destruct mode;
      [apply handleFormat_sameData | apply handleMinify_sameData
      | unfold sameData; auto].
Qed.

Lemma toggleFormat_error (mode : FormatMode) (s : Session) :
  error (toggleFormat mode s) = error s.
Proof. apply toggleFormat_sameData. Qed.

(** Only [handleClear] writes the error outside the parse effect, and it
    empties the buffer with it. *)
Lemma handle_error (e : Event) (s : Session) :
  error (handle e s) = error s
  \/ (jsonInput (handle e s) = [] /\ error (handle e s) = None).
Proof.
  destruct e; simpl; try (left; reflexivity).
  - left. apply toggleFormat_error.
  - right. split; reflexivity.
  - left. unfold handleAiFix. break_match; reflexivity.
  - left. unfold handleAiFix_resume. break_match; reflexivity.
  - left. unfold handleGenerateTypes. break_match; reflexivity.
  - left. unfold handleGenerateTypes_resume. break_match; reflexivity.
Qed.

(** The error shown is always the one of the current buffer. *)
Lemma Settled_dispatch (e : Event) (s : Session) :
  Settled s -> Settled (dispatch e s).
Proof.
  intros Hs. unfold dispatch, commit.
  destruct (string_eqb_spec (jsonInput s) (jsonInput (handle e s)))
    as [Heq|Hne]; [|apply Settled_parseEffect].
  unfold Settled in *.
  destruct (handle_error e s) as [H|[Ht Herr]].
  - rewrite H, <- Heq. exact Hs.
  - rewrite Herr, Ht. reflexivity.
Qed.

Lemma Settled_run (events : list Event) (s : Session) :
  Settled s -> Settled (run events s).
Proof.
  revert s; induction events as [|e events IH]; intros s Hs; simpl.
  - exact Hs.
  - apply IH, Settled_dispatch, Hs.
Qed.

(** C10.  A buffer that is empty or made of whitespace only is no
    document: the parse effect clears the parsed value, the selection and
    the error to [null], whatever they were, and so does the session after
    a mutation of the text to such a buffer. *)
Theorem blank_buffer_is_no_document (s : Session) (text : string) :
  forallb isWhiteSpace text = true ->
  let s' := parseEffect (setJsonInput text s) in
  parsedData s' = JNull /\ selectedData s' = JNull /\ error s' = None
  /\ (text <> jsonInput s -> dispatch (Edit text) s = s').
Proof.
  intros Hblank s'. subst s'. unfold parseEffect. simpl.
  rewrite (trim_blank text Hblank). simpl. repeat split.
  intros Hne. unfold dispatch. simpl.
  rewrite commit_changed by (simpl; congruence).
  unfold parseEffect. simpl. rewrite (trim_blank text Hblank). reflexivity.
Qed.

(** Apart from [handleClear], which empties the buffer, a handler that
    changes the text keeps the parsed value and the selection. *)
Lemma handle_parsedData (e : Event) (s : Session) :
  (parsedData (handle e s) = parsedData s
   /\ (selectedData (handle e s) = selectedData s
       \/ jsonInput (handle e s) = jsonInput s))
  \/ jsonInput (handle e s) = [].
Proof.
  destruct e; simpl; try (right; reflexivity); left;
    try (split; [reflexivity | left; reflexivity]).
  - destruct (toggleFormat_sameData mode s) as (Hp & Hs & _). auto.
  - unfold handleAiFix. break_match; auto.
  - unfold handleAiFix_resume. break_match; auto.
  - unfold handleGenerateTypes. break_match; auto.
  - unfold handleGenerateTypes_resume. break_match; auto.
  - split; [reflexivity | right; reflexivity].
Qed.

(** C9 (as amended).  After every mutation of the text that leaves a
    buffer that is not blank, the session re-parses the buffer: when the
    parse succeeds the error is cleared and the selection and the parsed
    value are the new root; when it fails the previously parsed value and
    the selection are retained and the error is the parser's message. *)
Theorem reparse_after_text_mutation (e : Event) (s : Session) :
  let text := jsonInput (handle e s) in
  let s' := dispatch e s in
  text <> jsonInput s ->
  truthy (trim text) = true ->
  jsonInput s' = text
  /\ match JSON_parse text with
     | Normal parsed =>
         error s' = None /\ selectedData s' = parsed
         /\ parsedData s' = parsed
     | Throw message =>
         parsedData s' = parsedData s /\ selectedData s' = selectedData s
         /\ error s' = Some message
     end.
Proof.
  intros text s' Hne Hnb. subst s' text. unfold dispatch.
  rewrite (commit_changed _ _ Hne). split; [apply parseEffect_jsonInput|].
  unfold parseEffect. rewrite Hnb. simpl.
  destruct (JSON_parse (jsonInput (handle e s))); simpl; auto.
  destruct (handle_parsedData e s) as [[Hp [Hs|Hs]]|Hb].
  - auto.
  - contradiction.
  - rewrite Hb in Hnb. discriminate.
Qed.

(** C2 (as amended).  In every session the application can reach, when
    the buffer is not blank and both the direct parse and the parse of the
    unescaped buffer fail, formatting returns [false], leaves the buffer
    unchanged, and the error shown is the message of the direct parse; a
    click on Beautify from another mode is that failed formatting. *)
Theorem format_failure_keeps_text_and_first_error
  (DEMO_JSON : string) (events : list Event) (m1 m2 : string) :
  let s := run events (mount DEMO_JSON) in
  let s' := commit s (snd (handleFormat (jsonInput s) s)) in
  truthy (trim (jsonInput s)) = true ->
  JSON_parse (jsonInput s) = Throw m1 ->
  JSON_parse (unescapeString (jsonInput s)) = Throw m2 ->
  fst (handleFormat (jsonInput s) s) = false
  /\ jsonInput s' = jsonInput s
  /\ error s' = Some m1
  /\ (formatMode s <> pretty -> dispatch (ClickFormat pretty) s = s').
Proof.
  intros s s' Hnb H1 H2.
  assert (Hs : Settled s) by (apply Settled_run, Settled_mount).
  assert (Herr : error s = Some m1).
  { unfold Settled, errorFor in Hs. rewrite Hnb, H1 in Hs. exact Hs. }
  subst s'. unfold handleFormat. rewrite H1, H2. simpl.
  rewrite commit_unchanged by reflexivity. simpl.
  repeat split; try assumption.
  intros Hmode. unfold dispatch. simpl. unfold toggleFormat.
  replace (FormatMode_eqb pretty (formatMode s)) with false
    by (destruct (formatMode s) eqn:Hm; simpl; congruence).
  simpl. unfold toggleRecovery. rewrite H2.
  destruct (truthy_opt (error s) && _); simpl;
    unfold handleFormat; rewrite H1, H2; simpl;
    rewrite commit_unchanged; reflexivity.
Qed.

(** C4 (as amended).  Switching to [raw] never enters the recovery block
    of [toggleFormat].  When the mode is already [raw] the switch does
    nothing; otherwise it runs [handleMinify] on the buffer: the text
    becomes the compact serialization of the parsed buffer or, when that
    parse fails, of the parsed unescaped buffer; when both parses fail it
    stays as it is. *)
Theorem toggle_raw_runs_minify (s : Session) :
  toggleRecovery raw s = None
  /\ toggleFormat raw s
     = (if FormatMode_eqb raw (formatMode s) then s
        else snd (handleMinify (jsonInput s) s))
  /\ jsonInput (dispatch (ClickFormat raw) s)
     = (if FormatMode_eqb raw (formatMode s) then jsonInput s
        else match JSON_parse (jsonInput s) with
             | Normal parsed => JSON_stringify parsed 0
             | Throw _ =>
                 match JSON_parse (unescapeString (jsonInput s)) with
                 | Normal parsed => JSON_stringify parsed 0
                 | Throw _ => jsonInput s
                 end
             end).
Proof.
  assert (Hrec : toggleRecovery raw s = None).
  { unfold toggleRecovery. simpl. rewrite andb_false_r. reflexivity. }
  assert (Htog : toggleFormat raw s
                 = (if FormatMode_eqb raw (formatMode s) then s
                    else snd (handleMinify (jsonInput s) s))).
  { unfold toggleFormat. rewrite Hrec. simpl. rewrite andb_true_r.
    reflexivity. }
  repeat split; try assumption.
  unfold dispatch. rewrite commit_jsonInput. cbn [handle]. rewrite Htog.
  destruct (formatMode s); cbn [FormatMode_eqb]; try reflexivity;
    unfold handleMinify; break_match; reflexivity.
Qed.

(** A failed collaborator call carries a non-empty message. *)
Lemma collaborator_error_truthy (kind : AiMode) (API_KEY : string)
  (remote : RemoteOutcome) :
  Result.error (collaborator kind API_KEY remote) <> None ->
  truthy_opt (Result.error (collaborator kind API_KEY remote)) = true.
Proof.
  unfold collaborator, fixMalformedJson, generateTypeScriptInterfaces.
  destruct kind, (truthy API_KEY), remote as [text|[m|]]; simpl;
    try congruence; try reflexivity;
    intros _; unfold orElse; destruct (truthy m) eqn:Hm; auto.
Qed.

(** C7.  When a collaborator call returns an error, the session that
    receives the result keeps its text buffer and its generated interface
    text: a failed repair leaves [jsonInput] as it is, a failed type
    generation leaves [generatedTypes] as it is; and neither handler
    touches them before the call. *)
Theorem failed_call_keeps_state (kind : AiMode) (API_KEY : string)
  (remote : RemoteOutcome) (s : Session) :
  let result := collaborator kind API_KEY remote in
  let s' := dispatch (settled kind result) s in
  Result.error result <> None ->
  jsonInput s' = jsonInput s
  /\ generatedTypes s' = generatedTypes s
  /\ jsonInput (snd (handleAiFix s)) = jsonInput s
  /\ generatedTypes (snd (handleGenerateTypes s)) = generatedTypes s.
Proof.
  intros result s' Herr. subst s'.
  pose proof (collaborator_error_truthy kind API_KEY remote Herr) as Ht.
  fold result in Ht.
  assert (Hh : handle (settled kind result) s
               = match kind with
                 | repair => handleAiFix_resume result s
                 | types => handleGenerateTypes_resume result s
                 end) by (destruct kind; reflexivity).
  assert (Hj : jsonInput (handle (settled kind result) s) = jsonInput s).
  { rewrite Hh. unfold handleAiFix_resume, handleGenerateTypes_resume.
    rewrite Ht. destruct kind; reflexivity. }
  unfold dispatch. rewrite commit_unchanged by exact Hj.
  split; [exact Hj|]. split.
  - rewrite Hh. unfold handleAiFix_resume, handleGenerateTypes_resume.
    rewrite Ht. destruct kind; reflexivity.
  - unfold handleAiFix, handleGenerateTypes.
    split; break_match; reflexivity.
Qed.
End SessionFacts.

(** ** The session on concrete buffers *)

(** C10, at the buffer space, line feed, typed into a session that shows the
    document [true]. *)
Lemma blank_buffer_is_no_document_witness :
  forallb isWhiteSpace [Ch.SPACE; Ch.LF] = true
  /\ parsedData Examples.start = JBoolean true
  /\ (let s' := parseEffect (engine := Lit.engine)
                  (setJsonInput [Ch.SPACE; Ch.LF] Examples.start) in
      parsedData s' = JNull /\ selectedData s' = JNull /\ error s' = None
      /\ ([Ch.SPACE; Ch.LF] <> jsonInput Examples.start ->
          dispatch (engine := Lit.engine) (Edit [Ch.SPACE; Ch.LF])
            Examples.start = s')).
Proof.
  split; [reflexivity|]. split; [reflexivity|].
  apply (blank_buffer_is_no_document (engine := Lit.engine)).
  reflexivity.
Defined.

(** C9, at the edit that replaces the document [true] by the broken buffer. *)
Lemma reparse_after_text_mutation_witness :
  let s := Examples.start in
  let s' := dispatch (engine := Lit.engine) (Edit Examples.broken) s in
  jsonInput s' = Examples.broken
  /\ parsedData s' = JBoolean true
  /\ selectedData s' = JBoolean true
  /\ error s' = Some (lit "Unexpected token " ++ [Ch.BACKSLASH]).
Proof.
  pose proof (reparse_after_text_mutation (engine := Lit.engine)
                (Edit Examples.broken) Examples.start) as H.
  cbv zeta in H. destruct H as [Ht Hp].
  - vm_compute. discriminate.
  - vm_compute. reflexivity.
  - vm_compute in Hp. vm_compute. tauto.
Defined.

(** C9, counterexample.  The session shows the document [true]; the text is
    changed to one space.  The parse of one space fails, yet the previously
    parsed value is not retained and no error is surfaced. *)
Lemma reparse_blank_counterexample :
  let s := Examples.start in
  let s' := dispatch (engine := Lit.engine) (Edit [Ch.SPACE]) s in
  JSON_parse (JsonEngine := Lit.engine) [Ch.SPACE]
    = Throw (lit "Unexpected end of JSON input")
  /\ parsedData s = JBoolean true
  /\ parsedData s' = JNull
  /\ parsedData s' <> parsedData s
  /\ error s' = None.
Proof. vm_compute. repeat split. discriminate. Qed.

(** C2, at the broken buffer: the error shown after the failed formatting is
    the message of the direct parse, not the one of the recovery parse. *)
Lemma format_failure_witness :
  let s := Examples.after [Edit Examples.broken] in
  let s' := commit (engine := Lit.engine) s
              (snd (handleFormat (engine := Lit.engine) (jsonInput s) s)) in
  JSON_parse (JsonEngine := Lit.engine) (unescapeString Examples.broken)
    = Throw (lit "Unexpected token x")
  /\ jsonInput s' = Examples.broken
  /\ error s' = Some (lit "Unexpected token " ++ [Ch.BACKSLASH]).
Proof.
  pose proof (format_failure_keeps_text_and_first_error
                (engine := Lit.engine) (lit "true") [Edit Examples.broken]
                (lit "Unexpected token " ++ [Ch.BACKSLASH])
                (lit "Unexpected token x")) as H.
  cbv zeta in H.
  destruct H as (_ & Ht & He & _); [reflexivity | reflexivity | reflexivity |].
  split; [reflexivity|]. split; [exact Ht | exact He].
Defined.

(** C2, counterexample.  On a buffer of one space both the direct parse and
    the parse of the unescaped buffer fail; formatting leaves the buffer
    unchanged, but the session reports no error at all. *)
Lemma format_blank_counterexample :
  let s := Examples.after [Edit [Ch.SPACE]] in
  let s' := commit (engine := Lit.engine) s
              (snd (handleFormat (engine := Lit.engine) (jsonInput s) s)) in
  JSON_parse (JsonEngine := Lit.engine) (jsonInput s)
    = Throw (lit "Unexpected end of JSON input")
  /\ JSON_parse (JsonEngine := Lit.engine) (unescapeString (jsonInput s))
     = Throw (lit "Unexpected end of JSON input")
  /\ jsonInput s' = jsonInput s
  /\ error s' = None
  /\ error s' <> Some (lit "Unexpected end of JSON input").
Proof. vm_compute. repeat split. discriminate. Qed.

(** C4, counterexample.  In [pretty] mode, switching to [raw] rewrites the
    valid buffer space-[null] to [null]; and on the invalid buffer
    backslash-[t]-[null] it runs the unescape-then-parse recovery, which
    succeeds and rewrites the buffer to [null]. *)
Lemma toggle_raw_counterexample :
  let s1 := Examples.after [Edit (lit " null")] in
  let s2 := Examples.after [Edit Examples.escapedNull] in
  formatMode s1 = pretty
  /\ jsonInput (dispatch (engine := Lit.engine) (ClickFormat raw) s1)
     = lit "null"
  /\ jsonInput (dispatch (engine := Lit.engine) (ClickFormat raw) s1)
     <> jsonInput s1
  /\ truthy_opt (error s2) = true
  /\ jsonInput (dispatch (engine := Lit.engine) (ClickFormat raw) s2)
     = lit "null"
  /\ notification (dispatch (engine := Lit.engine) (ClickFormat raw) s2)
     = Some (lit "Auto-unescaped & Minified").
Proof. vm_compute. repeat split. discriminate. Qed.

(** C7, at a repair call made without an API key, from a session whose
    buffer is broken. *)
Lemma failed_call_keeps_state_witness :
  let s := Examples.after [Edit Examples.broken] in
  let result := fixMalformedJson [] (Responded None) in
  Result.error result = Some (lit "API Key is missing.")
  /\ jsonInput (dispatch (engine := Lit.engine) (AiFixSettled result) s)
     = Examples.broken.
Proof.
  split; [reflexivity|].
  pose proof (failed_call_keeps_state (engine := Lit.engine) repair []
                (Responded None) (Examples.after [Edit Examples.broken])) as H.
  cbv zeta in H. destruct H as (Hj & _).
  - vm_compute. discriminate.
  - exact Hj.
Defined.

(** ** The tree view state *)

Module TreeFacts.
Import JsonTree.

Lemma lookup_update_same (key : string) (f : Instance -> Instance)
  (kids : list (string * Instance)) :
  lookup key (update key f kids) = option_map f (lookup key kids).
Proof.
  induction kids as [|[k i] kids IH]; simpl; [reflexivity|].
  destruct (string_eqb k key) eqn:Hk; simpl; rewrite Hk; auto.
Qed.

Lemma lookup_update_other (key key' : string) (f : Instance -> Instance)
  (kids : list (string * Instance)) :
  string_eqb key key' = false ->
  lookup key' (update key f kids) = lookup key' kids.
Proof.
  intros Hne. induction kids as [|[k i] kids IH]; simpl; [reflexivity|].
  destruct (string_eqb_spec k key) as [->|Hk]; simpl.
  - rewrite Hne. reflexivity.
  - rewrite IH. reflexivity.
Qed.

Lemma lookup_childElements (p : JsonNodeProps) (key : string)
  (ps : list (string * JsonValue)) (index : nat) (child : JsonNodeProps) :
  lookup key (childElements p index ps) = Some child ->
  lookup key ps = Some (value child).
Proof.
  revert index; induction ps as [|[k x] ps IH]; intros index; simpl;
    [discriminate|].
  destruct (string_eqb k key).
  - intros H; inversion H; reflexivity.
  - apply IH.
Qed.

Lemma lookup_children (p child : JsonNodeProps) (key : string) :
  lookup key (children p) = Some child ->
  getProperty (value p) key = Some (value child).
Proof.
  unfold children, getProperty.
  destruct (isObject (value p) && negb (isEmpty (value p)));
    [apply lookup_childElements | discriminate].
Qed.

Lemma propsAt_valueAt (p p' : JsonNodeProps) (position : list string) :
  propsAt p position = Some p' ->
  valueAt (value p) position = Some (value p').
Proof.
  revert p; induction position as [|key rest IH]; intros p; simpl.
  - intros H; inversion H; reflexivity.
  - destruct (lookup key (children p)) as [child|] eqn:Hc; [|discriminate].
    rewrite (lookup_children _ _ _ Hc). apply IH.
Qed.

Lemma mounted_mountValue (v : JsonValue) :
  mounted (mountValue v) = mountChildren v.
Proof.
  unfold mountChildren. destruct v as [| | | |items|members]; simpl;
    try reflexivity.
  - generalize 0%nat. induction items as [|x items IH]; intros n; simpl;
      [reflexivity|]. rewrite IH. reflexivity.
  - induction members as [|[k x] members IH]; simpl; [reflexivity|].
    rewrite IH. reflexivity.
Qed.

(** Below the toggled node the view is the one the toggled instance
    renders. *)
Lemma instanceAt_toggleAt_below (root v : JsonValue) (i0 i : Instance)
  (position q : list string) :
  instanceAt i0 position = Some i ->
  valueAt root position = Some v ->
  isObject v && negb (isEmpty v) = true ->
  instanceAt (toggleAt root position i0) (position ++ q)
  = instanceAt (toggleExpand v i) q.
Proof.
  revert root i0; induction position as [|key rest IH];
    intros root i0; simpl.
  - intros Hi Hv Ht. inversion Hi; inversion Hv; subst.
    rewrite Ht. reflexivity.
  - destruct (lookup key (mounted i0)) as [child|] eqn:Hc; [|discriminate].
    destruct (getProperty root key) as [cv|] eqn:Hg; [|discriminate].
    intros Hi Hv Ht. simpl. rewrite lookup_update_same, Hc. simpl.
    apply IH; assumption.
Qed.

(** Off the subtree of the toggled node every flag is kept. *)
Lemma expandedAt_toggleAt_off (root : JsonValue) (i0 : Instance)
  (position q : list string) :
  prefix position q = false ->
  expandedAt (toggleAt root position i0) q = expandedAt i0 q.
Proof.
  unfold expandedAt.
  revert root i0 q; induction position as [|key rest IH];
    intros root i0 q; simpl; [discriminate|].
  destruct (getProperty root key) as [cv|]; [|reflexivity].
  destruct q as [|k q]; simpl; [reflexivity|].
  destruct (string_eqb key k) eqn:Hk; simpl; intros Hp.
  - apply string_eqb_eq in Hk. subst k.
    rewrite lookup_update_same.
    destruct (lookup key (mounted i0)) as [child|]; simpl; auto.
  - rewrite lookup_update_other by exact Hk. reflexivity.
Qed.

(** Beside the toggled node (neither above nor below it) whole subtrees
    are kept. *)
Lemma instanceAt_toggleAt_beside (root : JsonValue) (i0 : Instance)
  (position q : list string) :
  prefix position q = false -> prefix q position = false ->
  instanceAt (toggleAt root position i0) q = instanceAt i0 q.
Proof.
  revert root i0 q; induction position as [|key rest IH];
    intros root i0 q; simpl; [discriminate|].
  destruct (getProperty root key) as [cv|]; [|reflexivity].
  destruct q as [|k q]; simpl; [discriminate|].
  destruct (string_eqb_spec key k) as [<-|Hk]; simpl.
  - rewrite string_eqb_refl. simpl. intros Hp Hq.
    rewrite lookup_update_same.
    destruct (lookup key (mounted i0)) as [child|]; simpl; auto.
  - intros _ _. rewrite lookup_update_other; [reflexivity|].
    apply string_eqb_neq. exact Hk.
Qed.

Lemma lookup_mountChildren (v : JsonValue) (key : string)
  (child : Instance) :
  lookup key (mountChildren v) = Some child ->
  exists childValue, child = mountValue childValue.
Proof.
  unfold mountChildren.
  induction (properties v) as [|[k x] ps IH]; simpl; [discriminate|].
  destruct (string_eqb k key); [|exact IH].
  intros H; inversion H. exists x. reflexivity.
Qed.

(** A freshly mounted subtree is expanded throughout. *)
Lemma mountValue_expanded (v : JsonValue) (q : list string) (b : bool) :
  expandedAt (mountValue v) q = Some b -> b = true.
Proof.
  unfold expandedAt. revert v; induction q as [|k q IH]; intros v; simpl.
  - destruct v; intros H; inversion H; reflexivity.
  - rewrite mounted_mountValue.
    destruct (lookup k (mountChildren v)) as [child|] eqn:Hc;
      [|discriminate].
    destruct (lookup_mountChildren _ _ _ Hc) as [cv ->]. apply IH.
Qed.

Lemma Synced_mountChildren (ps : list (string * JsonValue)) :
  Forall (fun m => Synced (snd m) (mountValue (snd m))) ps ->
  Forall2 (fun m kid => fst m = fst kid /\ Synced (snd m) (snd kid))
    ps (map (fun m => (fst m, mountValue (snd m))) ps).
Proof.
  induction 1 as [|m ps Hm _ IH]; simpl; constructor; auto.
Qed.

Lemma Forall_indexed (P : JsonValue -> Prop) (items : list JsonValue)
  (from : nat) :
  Forall P items -> Forall (fun m => P (snd m)) (indexed from items).
Proof.
  intros H; revert from; induction H; intros from; simpl; constructor; auto.
Qed.

(** A freshly mounted view is in step with its value. *)
Lemma Synced_mountValue (v : JsonValue) : Synced v (mountValue v).
Proof.
  induction v using JsonValue_nested_ind;
    try (constructor; constructor).
  - replace (mountValue (JArray items))
      with (Inst true (mountChildren (JArray items)))
      by (rewrite <- mounted_mountValue; reflexivity).
    constructor. apply Synced_mountChildren. simpl.
    apply (Forall_indexed (fun v => Synced v (mountValue v))). assumption.
  - replace (mountValue (JObject members))
      with (Inst true (mountChildren (JObject members)))
      by (rewrite <- mounted_mountValue; reflexivity).
    constructor. apply Synced_mountChildren. assumption.
Qed.

Lemma Synced_update (ps : list (string * JsonValue))
  (kids : list (string * Instance)) (key : string) (childValue : JsonValue)
  (f : Instance -> Instance) :
  (forall i, Synced childValue i -> Synced childValue (f i)) ->
  lookup key ps = Some childValue ->
  Forall2 (fun m kid => fst m = fst kid /\ Synced (snd m) (snd kid))
    ps kids ->
  Forall2 (fun m kid => fst m = fst kid /\ Synced (snd m) (snd kid))
    ps (update key f kids).
Proof.
  intros Hf Hl H; revert Hl.
  induction H as [|[k x] [k' i] ps kids [Hk Hs] Ht IH]; simpl;
    [constructor|].
  simpl in Hk, Hs. subst k'.
  destruct (string_eqb k key).
  - intros E; inversion E; subst. constructor; [split|]; simpl; auto.
  - intros E. constructor; [split|]; simpl; auto.
Qed.

(** The view stays in step with the document under every click. *)
Lemma Synced_toggleAt (position : list string) :
  forall (v : JsonValue) (i : Instance),
    Synced v i -> Synced v (toggleAt v position i).
Proof.
  induction position as [|key rest IH]; intros v i Hs; simpl.
  - destruct (isObject v && negb (isEmpty v)); [|exact Hs].
    unfold toggleExpand. destruct (negb (isExpanded i)).
    + constructor. apply Synced_mountChildren.
      apply Forall_forall. intros m _. apply Synced_mountValue.
    + constructor.
  - destruct (getProperty v key) as [cv|] eqn:Hg; [|exact Hs].
    inversion Hs as [v'|v' kids Hkids]; subst; simpl.
    + constructor.
    + constructor. eapply Synced_update; eauto.
Qed.

(** C6 (as amended).  A click on the toggler of a mounted node flips the
    flag of that node and leaves the document as it is.  Every node that is
    not the toggled node or below it (its ancestors, its siblings and what
    is below them) keeps its flag and the rows it renders itself, and every
    node beside it keeps its whole rendered subtree.  Below the toggled
    node nothing stays mounted when it is collapsed, and when it is
    expanded again its descendants are mounted anew, all of them
    expanded. *)
Theorem toggle_flips_one_flag (tv : TreeView) (position : list string)
  (p : JsonNodeProps) (i : Instance) :
  propsAt (rootProps (document tv)) position = Some p ->
  isObject (value p) && negb (isEmpty (value p)) = true ->
  instanceAt (view tv) position = Some i ->
  let tv' := click position tv in
  document tv' = document tv
  /\ expandedAt (view tv') position = Some (negb (isExpanded i))
  /\ (forall q, prefix position q = false ->
        expandedAt (view tv') q = expandedAt (view tv) q
        /\ ownRowsAt (document tv') (view tv') q
           = ownRowsAt (document tv) (view tv) q)
  /\ (forall q, prefix position q = false -> prefix q position = false ->
        instanceAt (view tv') q = instanceAt (view tv) q
        /\ rowsAt (document tv') (view tv') q
           = rowsAt (document tv) (view tv) q)
  /\ (forall q, q <> [] ->
        instanceAt (view tv') (position ++ q)
        = if isExpanded i then None
          else instanceAt (mountValue (value p)) q)
  /\ (forall q b, q <> [] -> expandedAt (view tv') (position ++ q) = Some b ->
        b = true).
Proof.
  intros Hp Ht Hi tv'. subst tv'. simpl.
  pose proof (propsAt_valueAt _ _ _ Hp) as Hv. simpl in Hv.
  assert (Hbelow : forall q, q <> [] ->
            instanceAt (toggleAt (document tv) position (view tv))
              (position ++ q)
            = if isExpanded i then None
              else instanceAt (mountValue (value p)) q).
  { intros q Hq.
    rewrite (instanceAt_toggleAt_below _ _ _ _ _ q Hi Hv Ht).
    destruct q as [|k q]; [congruence|]. unfold toggleExpand.
    destruct (isExpanded i); simpl; [reflexivity|].
    rewrite mounted_mountValue. reflexivity. }
  split; [reflexivity|]. split.
  { unfold expandedAt.
    rewrite <- (List.app_nil_r position) at 2.
    rewrite (instanceAt_toggleAt_below _ _ _ _ _ [] Hi Hv Ht).
    reflexivity. }
  split.
  { intros q Hq. unfold ownRowsAt.
    rewrite (expandedAt_toggleAt_off _ _ _ _ Hq). split; reflexivity. }
  split.
  { intros q Hq Hq'. unfold rowsAt.
    rewrite (instanceAt_toggleAt_beside _ _ _ _ Hq Hq').
    split; reflexivity. }
  split; [exact Hbelow|].
  intros q b Hq. unfold expandedAt. rewrite (Hbelow q Hq).
  destruct (isExpanded i); [discriminate|].
  apply mountValue_expanded.
Qed.
End TreeFacts.

(** C6, at the node [a] of the example document: collapsing it flips its
    flag and leaves the rendered subtree of its sibling [c] as it was. *)
Lemma toggle_flips_one_flag_witness :
  let tv := JsonTree.open Examples.nested in
  let tv' := JsonTree.click [lit "a"] tv in
  JsonTree.expandedAt (JsonTree.view tv) [lit "a"] = Some true
  /\ JsonTree.expandedAt (JsonTree.view tv') [lit "a"] = Some false
  /\ JsonTree.rowsAt (JsonTree.document tv') (JsonTree.view tv') [lit "c"]
     = JsonTree.rowsAt (JsonTree.document tv) (JsonTree.view tv) [lit "c"].
Proof.
  intros tv tv'.
  eassert (H : _)
    by (eapply (TreeFacts.toggle_flips_one_flag tv [lit "a"]); reflexivity).
  cbv zeta in H. destruct H as (_ & Hflip & _ & Hbeside & _).
  split; [reflexivity|]. split; [exact Hflip|].
  apply (Hbeside [lit "c"]); reflexivity.
Defined.

(** C6, counterexample.  In the example document the node [a] is
    collapsed, then the root is collapsed and expanded again.  While the root
    is collapsed no state is stored for [a], and after the root is expanded
    [a] is expanded: its collapsed state was not retained, and the outline
    differs from the one before the root was collapsed. *)
Lemma collapse_discards_descendant_state :
  let doc := Examples.nested in
  let t1 := JsonTree.click [lit "a"] (JsonTree.open doc) in
  let t2 := JsonTree.click [] t1 in
  let t3 := JsonTree.click [] t2 in
  JsonTree.expandedAt (JsonTree.view t1) [lit "a"] = Some false
  /\ JsonTree.expandedAt (JsonTree.view t2) [lit "a"] = None
  /\ JsonTree.expandedAt (JsonTree.view t3) [lit "a"] = Some true
  /\ JsonTree.rows (JsonTree.rootProps doc) (JsonTree.view t3)
     <> JsonTree.rows (JsonTree.rootProps doc) (JsonTree.view t1).
Proof. vm_compute. repeat split. discriminate. Qed.

(** ** Path addressing *)

Module PathFacts.
Import JsonTree.

(** *** Index names *)

Lemma digits_inj (u u' : Decimal.uint) : digits u = digits u' -> u = u'.
Proof.
  revert u'; induction u; intros u'; destruct u'; simpl; intros H;
    try reflexivity; try discriminate H;
    injection H as H; f_equal; auto.
Qed.

Lemma indexKey_inj (i j : nat) : indexKey i = indexKey j -> i = j.
Proof.
  intros H. apply DecimalNat.Unsigned.to_uint_inj, digits_inj, H.
Qed.

Lemma indexKey_truthy (i : nat) : truthy (indexKey i) = true.
Proof.
  unfold indexKey.
  assert (H : Nat.to_uint i <> Decimal.Nil).
  { rewrite <- (DecimalNat.Unsigned.of_to i) at 1.
    rewrite DecimalNat.Unsigned.to_of. apply DecimalFacts.unorm_nonnil. }
  destruct (Nat.to_uint i); simpl; congruence.
Qed.

Lemma digits_no (c : char) (u : Decimal.uint) :
  (c <? 48) || (57 <? c) = true -> existsb (N.eqb c) (digits u) = false.
Proof.
  intros Hc. induction u; simpl; try reflexivity; rewrite IHu;
    rewrite orb_false_r; apply N.eqb_neq; intros ->; discriminate Hc.
Qed.

Lemma indexKey_no_bracket (i : nat) :
  existsb (N.eqb Ch.RBRACKET) (indexKey i) = false.
Proof. apply digits_no. reflexivity. Qed.

(** *** Splitting a string at the first separator *)

Lemma split_unique (sep : char) (k1 k2 t1 t2 : string) :
  existsb (N.eqb sep) k1 = false ->
  existsb (N.eqb sep) k2 = false ->
  tailAt sep t1 -> tailAt sep t2 ->
  k1 ++ t1 = k2 ++ t2 -> k1 = k2.
Proof.
  revert k2; induction k1 as [|c k1 IH]; intros [|c' k2]; simpl;
    intros H1 H2 T1 T2 E.
  - reflexivity.
  - apply orb_false_elim in H2 as [Hc _].
    destruct T1 as [->|[t' ->]]; [discriminate E|].
    injection E as E _. subst c'. rewrite N.eqb_refl in Hc. discriminate.
  - apply orb_false_elim in H1 as [Hc _].
    destruct T2 as [->|[t' ->]]; [discriminate E|].
    injection E as E _. subst c. rewrite N.eqb_refl in Hc. discriminate.
  - apply orb_false_elim in H1 as [_ H1].
    apply orb_false_elim in H2 as [_ H2].
    injection E as -> E. f_equal. eapply IH; eassumption.
Qed.

(** *** The children of a node *)

Lemma lookup_childElements_inv (p : JsonNodeProps) (key : string)
  (ps : list (string * JsonValue)) (index : nat) (c : JsonNodeProps) :
  lookup key (childElements p index ps) = Some c ->
  keyName c = Some key /\ path c = childPath p key
  /\ In (key, value c) ps.
Proof.
  revert index; induction ps as [|[k x] ps IH]; intros index; simpl;
    [discriminate|].
  destruct (string_eqb_spec k key) as [->|Hk].
  - intros H; inversion H; simpl. auto.
  - intros H. destruct (IH _ H) as (? & ? & ?). auto.
Qed.

Lemma In_indexed (key : string) (x : JsonValue) (items : list JsonValue)
  (from : nat) :
  In (key, x) (indexed from items) ->
  In x items /\ exists i, key = indexKey i.
Proof.
  revert from; induction items as [|y items IH]; intros from; simpl;
    [tauto|].
  intros [H|H].
  - inversion H; subst. split; [auto | eauto].
  - destruct (IH _ H) as [? ?]. auto.
Qed.

Lemma In_properties (v x : JsonValue) (key : string) :
  plainKeys v = true -> In (key, x) (properties v) ->
  plainKeys x = true /\ goodKey (isArray v) key.
Proof.
  destruct v as [| | | |items|members]; simpl; try tauto; intros Hv Hin.
  - destruct (In_indexed _ _ _ _ Hin) as [Hx [i ->]].
    rewrite forallb_forall in Hv. split; [auto|].
    split; [apply indexKey_truthy | apply indexKey_no_bracket].
  - rewrite forallb_forall in Hv. specialize (Hv _ Hin). simpl in Hv.
    apply andb_prop in Hv as [Hk Hx]. split; [exact Hx|].
    unfold plainKey in Hk. apply andb_prop in Hk as [Ht Hd].
    split; [exact Ht|]. apply negb_true_iff in Hd. exact Hd.
Qed.

Lemma wf_root (root : JsonValue) :
  plainKeys root = true -> wf (rootProps root).
Proof. intros H. split; [exact H | exact I]. Qed.

Lemma truthy_app_r (a b : string) : truthy b = true -> truthy (a ++ b) = true.
Proof. destruct a, b; simpl; congruence. Qed.

Lemma truthy_length (a : string) : truthy a = true <-> (0 < length a)%nat.
Proof. destruct a; simpl; split; intros; try lia; congruence. Qed.

Lemma currentPath_length (p : JsonNodeProps) :
  (length (path p) <= length (currentPath p))%nat.
Proof.
  unfold currentPath. destruct (keyName p) as [k|]; [|lia].
  destruct (truthy k); [|lia].
  destruct (path p) eqn:Hp; simpl; [lia|].
  rewrite length_app. simpl. lia.
Qed.

Lemma childPath_length (p : JsonNodeProps) (key : string) :
  truthy key = true ->
  (length (path p) < length (childPath p key))%nat.
Proof.
  intros Hk. apply truthy_length in Hk.
  pose proof (currentPath_length p) as Hc. unfold childPath.
  destruct (isArray (value p)).
  - rewrite !length_app. simpl. lia.
  - destruct (currentPath p) eqn:Hcp; simpl in *; [lia|].
    rewrite length_app. simpl. lia.
Qed.

Lemma child_facts (p c : JsonNodeProps) (key : string) :
  wf p -> lookup key (children p) = Some c ->
  wf c /\ keyName c = Some key /\ path c = childPath p key
  /\ goodKey (isArray (value p)) key.
Proof.
  intros [Hv _] Hc. unfold children in Hc.
  destruct (isObject (value p) && negb (isEmpty (value p)));
    [|discriminate].
  destruct (lookup_childElements_inv _ _ _ _ _ Hc) as (Hk & Hp & Hin).
  destruct (In_properties _ _ _ Hv Hin) as [Hx Hg].
  repeat split; try assumption; try apply Hg.
  rewrite Hk. split; [apply Hg|].
  rewrite Hp. apply truthy_length.
  pose proof (childPath_length p key (proj1 Hg)). lia.
Qed.

(** The path of a node below a child extends the path of the child, and
    what is added starts with the dot that [currentPath] puts before the
    key of the child. *)
Lemma path_extends (position : list string) :
  forall (c a : JsonNodeProps) (key : string),
    wf c -> keyName c = Some key -> propsAt c position = Some a ->
    exists tail, path a = path c ++ tail /\ tailAt Ch.DOT tail.
Proof.
  induction position as [|k rest IH]; intros c a key Hwf Hkey; simpl.
  - intros H; inversion H; subst. exists []. split.
    + symmetry. apply List.app_nil_r.
    + left. reflexivity.
  - destruct (lookup k (children c)) as [g|] eqn:Hg; [|discriminate].
    intros Ha.
    destruct (child_facts _ _ _ Hwf Hg) as (Hwfg & Hkg & Hpg & _).
    destruct (IH g a k Hwfg Hkg Ha) as (tail & Hpa & _).
    assert (Hcur : currentPath c = path c ++ Ch.DOT :: key).
    { destruct Hwf as [_ Hk]. rewrite Hkey in Hk. destruct Hk as [Hk Hp].
      unfold currentPath. rewrite Hkey, Hk, Hp. reflexivity. }
    rewrite Hpa, Hpg. unfold childPath. rewrite Hcur.
    destruct (isArray (value c)).
    + eexists. split; [|right; eexists; reflexivity].
      rewrite <- !app_assoc. reflexivity.
    + rewrite truthy_app_r by reflexivity.
      eexists. split; [|right; eexists; reflexivity].
      rewrite <- !app_assoc. reflexivity.
Qed.

(** Two children of one node whose subtrees contain nodes with the same
    path have the same key. *)
Lemma same_path_same_key (p c1 c2 a b : JsonNodeProps)
  (k1 k2 : string) (rest1 rest2 : list string) :
  wf p ->
  lookup k1 (children p) = Some c1 -> lookup k2 (children p) = Some c2 ->
  propsAt c1 rest1 = Some a -> propsAt c2 rest2 = Some b ->
  path a = path b -> k1 = k2.
Proof.
  intros Hwf H1 H2 Ha Hb Hab.
  destruct (child_facts _ _ _ Hwf H1) as (Hw1 & Hk1 & Hp1 & Ht1 & Hg1).
  destruct (child_facts _ _ _ Hwf H2) as (Hw2 & Hk2 & Hp2 & Ht2 & Hg2).
  destruct (path_extends _ _ _ _ Hw1 Hk1 Ha) as (t1 & Hpa & T1).
  destruct (path_extends _ _ _ _ Hw2 Hk2 Hb) as (t2 & Hpb & T2).
  rewrite Hpa, Hpb, Hp1, Hp2 in Hab. unfold childPath in Hab.
  destruct (isArray (value p)).
  - rewrite <- !app_assoc in Hab. apply app_inv_head in Hab.
    simpl in Hab. injection Hab as Hab.
    apply (split_unique Ch.RBRACKET k1 k2 (Ch.RBRACKET :: t1)
             (Ch.RBRACKET :: t2)); auto; right; eexists; reflexivity.
  - destruct (truthy (currentPath p)).
    + rewrite <- !app_assoc in Hab. apply app_inv_head in Hab.
      simpl in Hab. injection Hab as Hab.
      apply (split_unique Ch.DOT k1 k2 t1 t2); auto.
    + apply (split_unique Ch.DOT k1 k2 t1 t2); auto.
Qed.

Lemma below_is_longer (p c b : JsonNodeProps) (key : string)
  (rest : list string) :
  wf p -> lookup key (children p) = Some c -> propsAt c rest = Some b ->
  (length (path p) < length (path b))%nat.
Proof.
  intros Hwf Hc Hb.
  destruct (child_facts _ _ _ Hwf Hc) as (Hw & Hk & Hp & Ht & _).
  destruct (path_extends _ _ _ _ Hw Hk Hb) as (t & Hpb & _).
  rewrite Hpb, Hp, length_app.
  pose proof (childPath_length p key Ht). lia.
Qed.

Lemma propsAt_path_inj (pos1 : list string) :
  forall (pos2 : list string) (p a b : JsonNodeProps),
    wf p -> propsAt p pos1 = Some a -> propsAt p pos2 = Some b ->
    path a = path b -> pos1 = pos2.
Proof.
  induction pos1 as [|k1 rest1 IH]; intros [|k2 rest2] p a b Hwf; simpl.
  - reflexivity.
  - intros Ha. inversion Ha; subst a.
    destruct (lookup k2 (children p)) as [c|] eqn:Hc; [|discriminate].
    intros Hb Hab. pose proof (below_is_longer _ _ _ _ _ Hwf Hc Hb).
    rewrite Hab in H. lia.
  - destruct (lookup k1 (children p)) as [c|] eqn:Hc; [|discriminate].
    intros Ha Hb Hab. inversion Hb; subst b.
    pose proof (below_is_longer _ _ _ _ _ Hwf Hc Ha).
    rewrite Hab in H. lia.
  - destruct (lookup k1 (children p)) as [c1|] eqn:Hc1; [|discriminate].
    destruct (lookup k2 (children p)) as [c2|] eqn:Hc2; [|discriminate].
    intros Ha Hb Hab.
    assert (k1 = k2) by
      (eapply (same_path_same_key p c1 c2 a b); eassumption).
    subst k2. rewrite Hc1 in Hc2. inversion Hc2; subst c2.
    f_equal. eapply (IH rest2 c1 a b); try eassumption.
    eapply child_facts; eassumption.
Qed.

Lemma pathAt_inj (root : JsonValue) (pos1 pos2 : list string)
  (s : string) :
  plainKeys root = true ->
  pathAt root pos1 = Some s -> pathAt root pos2 = Some s ->
  pos1 = pos2.
Proof.
  unfold pathAt. intros Hroot H1 H2.
  destruct (propsAt (rootProps root) pos1) as [a|] eqn:Ha; [|discriminate].
  destruct (propsAt (rootProps root) pos2) as [b|] eqn:Hb; [|discriminate].
  simpl in H1, H2.
  eapply (propsAt_path_inj pos1 pos2 (rootProps root) a b);
    try eassumption; [apply wf_root, Hroot | congruence].
Qed.

Lemma bareKey_plainKey (key : string) :
  bareKey key = true -> plainKey key = true.
Proof.
  unfold bareKey, plainKey. intros H.
  apply andb_prop in H as [H _]. exact H.
Qed.

Lemma bareKeys_plainKeys (v : JsonValue) :
  bareKeys v = true -> plainKeys v = true.
Proof.
  induction v as [| | | |items IH|members IH] using JsonValue_nested_ind;
    simpl; try reflexivity; rewrite !forallb_forall; intros H x Hx;
    rewrite Forall_forall in IH; specialize (H x Hx).
  - auto.
  - apply andb_prop in H as [Hk Hv].
    rewrite (bareKey_plainKey _ Hk), (IH x Hx Hv). reflexivity.
Qed.

(** *** The rendering of the design document *)

Lemma accessorTail_spec (t : string) :
  Described.accessorTail t ->
  t = [] \/ exists c t', t = c :: t' /\ Described.isAccessor c = true.
Proof.
  intros [->|(c & t' & -> & [->| ->])]; [left; reflexivity | right..];
    eexists; eexists; (split; [reflexivity|reflexivity]).
Qed.

Lemma split_unique_by (stop : char -> bool) (k1 k2 t1 t2 : string) :
  existsb stop k1 = false ->
  existsb stop k2 = false ->
  (t1 = [] \/ exists c t', t1 = c :: t' /\ stop c = true) ->
  (t2 = [] \/ exists c t', t2 = c :: t' /\ stop c = true) ->
  k1 ++ t1 = k2 ++ t2 -> k1 = k2.
Proof.
  revert k2; induction k1 as [|c k1 IH]; intros [|c' k2]; simpl;
    intros H1 H2 T1 T2 E.
  - reflexivity.
  - apply orb_false_elim in H2 as [Hc _].
    destruct T1 as [->|(d & t' & -> & Hd)]; [discriminate E|].
    injection E as E _. subst c'. congruence.
  - apply orb_false_elim in H1 as [Hc _].
    destruct T2 as [->|(d & t' & -> & Hd)]; [discriminate E|].
    injection E as E _. subst c. congruence.
  - apply orb_false_elim in H1 as [_ H1].
    apply orb_false_elim in H2 as [_ H2].
    injection E as -> E. f_equal. eapply IH; eassumption.
Qed.

Lemma bareKey_no_accessor (key : string) :
  bareKey key = true ->
  truthy key = true /\ existsb Described.isAccessor key = false.
Proof.
  unfold bareKey. intros H.
  apply andb_prop in H as [H Hb]. apply andb_prop in H as [Ht Hd].
  split; [exact Ht|].
  apply negb_true_iff in Hb, Hd. clear Ht.
  induction key as [|c key IH]; cbn [existsb] in *; [reflexivity|].
  apply orb_false_elim in Hb as [Hb1 Hb2].
  apply orb_false_elim in Hd as [Hd1 Hd2].
  unfold Described.isAccessor at 1. rewrite Hb1, Hd1. cbn [orb]. auto.
Qed.

Lemma lookup_In {A : Type} (key : string) (ps : list (string * A)) (x : A) :
  lookup key ps = Some x -> In (key, x) ps.
Proof.
  induction ps as [|[k y] ps IH]; simpl; [discriminate|].
  destruct (string_eqb_spec k key) as [->|Hk].
  - intros H; inversion H; auto.
  - auto.
Qed.

(** What a key of a document with bare keys looks like. *)
Lemma described_child (v childValue : JsonValue) (key : string) :
  bareKeys v = true -> getProperty v key = Some childValue ->
  bareKeys childValue = true /\ truthy key = true
  /\ if isArray v then existsb (N.eqb Ch.RBRACKET) key = false
     else existsb Described.isAccessor key = false.
Proof.
  intros Hv Hget. apply lookup_In in Hget.
  destruct v as [| | | |items|members]; simpl in *; try tauto.
  - destruct (In_indexed _ _ _ _ Hget) as [Hx [i ->]].
    rewrite forallb_forall in Hv.
    repeat split; [auto | apply indexKey_truthy | apply indexKey_no_bracket].
  - rewrite forallb_forall in Hv. specialize (Hv _ Hget). simpl in Hv.
    apply andb_prop in Hv as [Hk Hx].
    destruct (bareKey_no_accessor _ Hk). auto.
Qed.

Lemma accessor_length (v : JsonValue) (depth : nat) (path key : string) :
  truthy key = true -> (depth = 0%nat -> path = []) ->
  (length path < length (Described.accessor v depth path key))%nat.
Proof.
  intros Hk Hroot. apply truthy_length in Hk. unfold Described.accessor.
  destruct (isArray v); [rewrite !length_app; simpl; lia|].
  destruct depth; [rewrite Hroot by reflexivity; simpl; lia|].
  rewrite !length_app. simpl. lia.
Qed.

(** Below depth 0 the path of a descendant extends the path of the node by
    accessors. *)
Lemma described_extends (position : list string) :
  forall (v : JsonValue) (depth : nat) (path s : string),
    Described.pathFrom v (S depth) path position = Some s ->
    exists tail, s = path ++ tail /\ Described.accessorTail tail.
Proof.
  induction position as [|key rest IH]; intros v depth path s; simpl.
  - intros H; inversion H; subst. exists []. split.
    + symmetry. apply List.app_nil_r.
    + left. reflexivity.
  - destruct (getProperty v key) as [c|]; [|discriminate].
    intros H. destruct (IH _ _ _ _ H) as (tail & -> & _).
    unfold Described.accessor. destruct (isArray v);
      rewrite <- !app_assoc; eexists; (split; [reflexivity|]);
      right; eexists; eexists; (split; [reflexivity|]); auto.
Qed.

Lemma described_longer (v : JsonValue) (depth : nat) (path s key : string)
  (rest : list string) :
  bareKeys v = true -> (depth = 0%nat -> path = []) ->
  Described.pathFrom v depth path (key :: rest) = Some s ->
  (length path < length s)%nat.
Proof.
  intros Hv Hroot. simpl.
  destruct (getProperty v key) as [c|] eqn:Hget; [|discriminate].
  intros H. destruct (described_child _ _ _ Hv Hget) as (_ & Hk & _).
  destruct (described_extends _ _ _ _ _ H) as (tail & -> & _).
  pose proof (accessor_length v depth path key Hk Hroot).
  rewrite length_app. lia.
Qed.

Lemma described_inj (pos1 : list string) :
  forall (pos2 : list string) (v : JsonValue) (depth : nat)
    (path s : string),
    bareKeys v = true -> (depth = 0%nat -> path = []) ->
    Described.pathFrom v depth path pos1 = Some s ->
    Described.pathFrom v depth path pos2 = Some s ->
    pos1 = pos2.
Proof.
  induction pos1 as [|k1 rest1 IH]; intros [|k2 rest2] v depth path s Hv Hroot.
  - reflexivity.
  - intros H1 H2. inversion H1; subst s.
    pose proof (described_longer _ _ _ _ _ _ Hv Hroot H2). lia.
  - intros H1 H2. inversion H2; subst s.
    pose proof (described_longer _ _ _ _ _ _ Hv Hroot H1). lia.
  - simpl.
    destruct (getProperty v k1) as [c1|] eqn:Hc1; [|discriminate].
    destruct (getProperty v k2) as [c2|] eqn:Hc2; [|discriminate].
    intros H1 H2.
    destruct (described_child _ _ _ Hv Hc1) as (Hb1 & Ht1 & Hg1).
    destruct (described_child _ _ _ Hv Hc2) as (Hb2 & Ht2 & Hg2).
    destruct (described_extends _ _ _ _ _ H1) as (t1 & E1 & T1).
    destruct (described_extends _ _ _ _ _ H2) as (t2 & E2 & T2).
    assert (k1 = k2) as <-.
    { rewrite E1 in E2. unfold Described.accessor in E2.
      destruct (isArray v).
      - rewrite <- !app_assoc in E2. apply app_inv_head in E2.
        simpl in E2. injection E2 as E2.
        apply (split_unique Ch.RBRACKET k1 k2 (Ch.RBRACKET :: t1)
                 (Ch.RBRACKET :: t2)); auto; right; eexists; reflexivity.
      - apply accessorTail_spec in T1, T2. destruct depth.
        + apply (split_unique_by Described.isAccessor k1 k2 t1 t2); auto.
        + rewrite <- !app_assoc in E2. apply app_inv_head in E2.
          simpl in E2. injection E2 as E2.
          apply (split_unique_by Described.isAccessor k1 k2 t1 t2); auto. }
    rewrite Hc1 in Hc2. inversion Hc2; subst c2.
    f_equal. eapply (IH rest2 c1 (S depth)); try eassumption. discriminate.
Qed.

(** C5 (as amended).  In any document whose object keys are all non-empty
    and free of the dot and of the opening bracket, path addressing is
    injective: two distinct positions are never given the same path string.
    This holds of the strings the component computes and of the rendering
    the design document describes alike. *)
Theorem path_injective (root : JsonValue) (pos1 pos2 : list string) :
  bareKeys root = true -> pos1 <> pos2 ->
  (forall s1 s2 : string,
      pathAt root pos1 = Some s1 -> pathAt root pos2 = Some s2 ->
      s1 <> s2)
  /\ (forall s1 s2 : string,
        Described.pathAt root pos1 = Some s1 ->
        Described.pathAt root pos2 = Some s2 ->
        s1 <> s2).
Proof.
  intros Hroot Hpos. split; intros s1 s2 H1 H2 E; subst s2; apply Hpos.
  - apply (pathAt_inj root pos1 pos2 s1); auto using bareKeys_plainKeys.
  - apply (described_inj pos1 pos2 root 0%nat [] s1); auto.
Qed.
End PathFacts.

(** C5, at the array of the example document and the leaf below it. *)
Lemma path_injective_witness :
  let inner := [lit "a"; lit "0"; lit "b"] in
  let outer := [lit "a"; lit "0"] in
  JsonTree.bareKeys Examples.listed = true
  /\ inner <> outer
  /\ JsonTree.pathAt Examples.listed inner = Some (lit "a.a[0].0.b")
  /\ JsonTree.pathAt Examples.listed outer = Some (lit "a.a[0]")
  /\ lit "a.a[0].0.b" <> lit "a.a[0]"
  /\ Described.pathAt Examples.listed inner = Some (lit "a[0].b")
  /\ Described.pathAt Examples.listed outer = Some (lit "a[0]")
  /\ lit "a[0].b" <> lit "a[0]".
Proof.
  assert (Hpos : [lit "a"; lit "0"; lit "b"] <> [lit "a"; lit "0"])
    by discriminate.
  destruct (PathFacts.path_injective Examples.listed
              [lit "a"; lit "0"; lit "b"] [lit "a"; lit "0"]
              eq_refl Hpos) as [Hcode Hdescribed].
  cbv zeta. repeat split; try exact Hpos.
  - apply Hcode; reflexivity.
  - apply Hdescribed; reflexivity.
Defined.

(** C5, counterexample.  In the document with the member [a.a], holding an
    object with the member [a], and the member [a], holding [a] in [a], the
    two innermost members are distinct positions with the same path string:
    in the strings the component computes, and in the rendering the design
    document describes as well. *)
Lemma path_collision :
  let short := [lit "a.a"; lit "a"] in
  let long := [lit "a"; lit "a"; lit "a"] in
  short <> long
  /\ JsonTree.pathAt Examples.dotted short = Some (lit "a.a.a.a.a")
  /\ JsonTree.pathAt Examples.dotted long = Some (lit "a.a.a.a.a")
  /\ Described.pathAt Examples.dotted short = Some (lit "a.a.a")
  /\ Described.pathAt Examples.dotted long = Some (lit "a.a.a").
Proof. cbv zeta. repeat split. discriminate. Qed.

(** In the described rendering an element of an array collides with a key
    that spells the access: [{"a": [null], "a[0]": true}]. *)
Example described_bracket_collision :
  let doc := JObject [(lit "a", JArray [JNull]); (lit "a[0]", JBoolean true)] in
  Described.pathAt doc [lit "a"; lit "0"] = Some (lit "a[0]")
  /\ Described.pathAt doc [lit "a[0]"] = Some (lit "a[0]")
  /\ JsonTree.pathAt doc [lit "a"; lit "0"] = Some (lit "a.a[0]").
Proof. cbv zeta. repeat split. Qed.

(** The member with the empty key has the path of its parent. *)
Example path_of_empty_key :
  JsonTree.pathAt (JObject [([], JNull)]) [] = Some []
  /\ JsonTree.pathAt (JObject [([], JNull)]) [[]] = Some [].
Proof. split; reflexivity. Qed.

(** The path the component computes for a leaf below an array. *)
Example path_of_listed_leaf :
  JsonTree.pathAt Examples.listed [lit "a"; lit "0"; lit "b"]
  = Some (lit "a.a[0].0.b").
Proof. reflexivity. Qed.

(** * Further properties of the program *)

(** ** The escape engine *)

(** X1 is [unescape_escape_roundTrips] above; here at a Windows path. *)
Lemma unescape_escape_roundTrips_witness :
  roundTrips (lit "C:\Users\me") = true
  /\ unescapeString (escapeString (lit "C:\Users\me")) = lit "C:\Users\me".
Proof.
  split; [reflexivity|].
  apply (unescape_escape_roundTrips (lit "C:\Users\me")). reflexivity.
Defined.

Lemma spell_split (t1 t2 : Token) (r1 r2 : string) :
  (forall c, t1 = Plain c -> c <> Ch.BACKSLASH) ->
  (forall c, t2 = Plain c -> c <> Ch.BACKSLASH) ->
  spell t1 ++ r1 = spell t2 ++ r2 -> t1 = t2 /\ r1 = r2.
Proof.
  intros H1 H2. destruct t1 as [c1|z1], t2 as [c2|z2]; simpl; intros E.
  - injection E as -> ->. auto.
  - injection E as -> _. exfalso. exact (H1 _ eq_refl eq_refl).
  - injection E as <- _. exfalso. exact (H2 _ eq_refl eq_refl).
  - injection E as -> ->. auto.
Qed.

Lemma tokenOf_plain (c d : char) : tokenOf c = Plain d -> d <> Ch.BACKSLASH.
Proof.
  destruct (tokenOf_cases c) as [(_ & -> & Hne)|(_ & z & -> & _)];
    intros E; inversion E; subst; assumption.
Qed.

Lemma tokenOf_inj (c1 c2 : char) : tokenOf c1 = tokenOf c2 -> c1 = c2.
Proof.
  intros E.
  rewrite <- (proj2 (decodeLetters_tokenOf c1)),
          <- (proj2 (decodeLetters_tokenOf c2)), E.
  reflexivity.
Qed.

(** X2.  [escapeString] is injective: two strings with the same escaped form
    are the same string. *)
Theorem escapeString_injective (s1 s2 : string) :
  escapeString s1 = escapeString s2 -> s1 = s2.
Proof.
  rewrite !escapeString_render. unfold render.
  revert s2; induction s1 as [|c1 r1 IH]; intros [|c2 r2]; simpl; intros E.
  - reflexivity.
  - destruct (tokenOf c2); discriminate E.
  - destruct (tokenOf c1); discriminate E.
  - destruct (spell_split _ _ _ _ (tokenOf_plain c1) (tokenOf_plain c2) E)
      as [Et Er].
    apply tokenOf_inj in Et. subst c2. f_equal. apply IH, Er.
Qed.

(** X2, at a path with a backslash. *)
Lemma escapeString_injective_witness :
  escapeString (lit "C:\tmp") = escapeString (lit "C:\tmp")
  /\ lit "C:\tmp" = lit "C:\tmp".
Proof.
  split; [reflexivity|].
  apply (escapeString_injective (lit "C:\tmp") (lit "C:\tmp")).
  reflexivity.
Defined.

(** X3.  [escapeString] works unit by unit: the escaped form of a
    concatenation is the concatenation of the escaped forms, and its length
    is the length of the string plus the number of code units that are
    escaped. *)
Theorem escapeString_app_length (s1 s2 : string) :
  escapeString (s1 ++ s2) = escapeString s1 ++ escapeString s2
  /\ length (escapeString s1)
     = (length s1 + length (filter isEscaped s1))%nat.
Proof.
  rewrite !escapeString_by_char. split; [apply flat_map_app|].
  induction s1 as [|c r IH]; [reflexivity|].
  cbn [flat_map filter]. rewrite length_app, IH.
  assert (Hc : length (escapeChar c)
               = if isEscaped c then 2%nat else 1%nat).
  { unfold escapeChar, isEscaped.
    repeat match goal with
           | |- context [c =? ?k] => destruct (c =? k); [reflexivity|]
           end.
    reflexivity. }
  rewrite Hc. destruct (isEscaped c); simpl; lia.
Qed.

(** X4.  A string is its own escaped form exactly when it contains none of
    the seven code units that [escapeString] rewrites. *)
Theorem escapeString_fixed (s : string) :
  escapeString s = s <-> forallb (fun c => negb (isEscaped c)) s = true.
Proof.
  split.
  - intros E. apply (f_equal (@length char)) in E.
    rewrite (proj2 (escapeString_app_length s [])) in E.
    assert (Hf : filter isEscaped s = []).
    { destruct (filter isEscaped s); [reflexivity | simpl in E; lia]. }
    clear E. induction s as [|c r IH]; [reflexivity|].
    simpl in *. destruct (isEscaped c); [discriminate Hf|].
    simpl. apply IH, Hf.
  - intros H. rewrite escapeString_by_char.
    induction s as [|c r IH]; [reflexivity|].
    simpl in H. apply andb_prop in H as [Hc Hr]. cbn [flat_map].
    rewrite (IH Hr). apply negb_true_iff in Hc.
    unfold escapeChar, isEscaped in *.
    repeat match goal with
           | |- context [c =? ?k] =>
               destruct (c =? k); [discriminate Hc|]
           end.
    reflexivity.
Qed.

(** A global replacement whose pattern starts with a code unit that does not
    occur in the string leaves the string as it is. *)
Lemma replaceAll_absent (p : char) (pat rep s : string) :
  existsb (N.eqb p) s = false -> replaceAll (p :: pat) rep s = s.
Proof.
  unfold replaceAll. induction s as [|c r IH]; [reflexivity|].
  simpl. intros H. apply orb_false_elim in H as [Hc Hr].
  rewrite Hc. simpl. rewrite (IH Hr). reflexivity.
Qed.

Lemma unescapeString_absent (s : string) :
  existsb (N.eqb Ch.BACKSLASH) s = false -> unescapeString s = s.
Proof.
  intros H. unfold unescapeString.
  repeat rewrite (replaceAll_absent Ch.BACKSLASH _ _ s) by exact H.
  reflexivity.
Qed.

(** ** The session controller *)

Section SessionMore.
Context {engine : JsonEngine}.

Ltac fields :=
  cbn [jsonInput parsedData selectedData error isProcessing notification
       isSidebarOpen aiMode generatedTypes formatMode
       setJsonInput setParsedData setSelectedData setError setIsProcessing
       setNotification setIsSidebarOpen setAiMode setGeneratedTypes
       setFormatMode showNotification FormatMode_eqb negb andb orb fst snd].

Lemma errorFor_Some (text m : string) :
  errorFor text = Some m ->
  truthy (trim text) = true /\ JSON_parse text = Throw m.
Proof.
  unfold errorFor. destruct (truthy (trim text)); simpl; [|discriminate].
  destruct (JSON_parse text); [discriminate|].
  intros E; inversion E; auto.
Qed.

Lemma Settled_error_truthy (s : Session) :
  Settled s -> truthy_opt (error s) = true ->
  exists m, error s = Some m /\ truthy (trim (jsonInput s)) = true
            /\ JSON_parse (jsonInput s) = Throw m.
Proof.
  intros Hs Ht. destruct (error s) as [m|] eqn:He; [|discriminate].
  exists m. split; [reflexivity|]. apply errorFor_Some.
  rewrite <- Hs. exact He.
Qed.

(** X5.  Unescaping leaves a text without backslash as it is, so the
    recovery pass cannot help such a buffer: when its parse fails, formatting
    and minifying fail and leave the session with the failure toast only. *)
Theorem format_without_backslash (text m : string) (s : Session) :
  existsb (N.eqb Ch.BACKSLASH) text = false ->
  JSON_parse text = Throw m ->
  unescapeString text = text
  /\ handleFormat text s
     = (false, showNotification (lit "Cannot format invalid JSON") s)
  /\ handleMinify text s
     = (false, showNotification (lit "Cannot minify invalid JSON") s).
Proof.
  intros Hb Hp. pose proof (unescapeString_absent text Hb) as Hu.
  unfold handleFormat, handleMinify. rewrite Hu, Hp. auto.
Qed.

(** X6.  In every session the application can reach, the error shown is the
    one of the current buffer: none when the buffer is blank or parses, the
    parser's message otherwise. *)
Theorem reachable_error_is_buffer_error (DEMO_JSON : string)
  (events : list Event) :
  let s := run events (mount DEMO_JSON) in
  error s
  = if negb (truthy (trim (jsonInput s))) then None
    else match JSON_parse (jsonInput s) with
         | Normal _ => None
         | Throw message => Some message
         end.
Proof. apply (Settled_run events), Settled_mount. Qed.

(** X7.  In every session the application can reach, [handleAiFix] calls
    the repair collaborator exactly when the buffer is not blank and its
    parse throws a non-empty message, and [handleGenerateTypes] calls the
    type generator exactly when the buffer is not blank and its parse does
    not throw such a message. *)
Theorem collaborator_calls_follow_the_buffer (DEMO_JSON : string)
  (events : list Event) :
  let s := run events (mount DEMO_JSON) in
  fst (handleAiFix s)
  = truthy (trim (jsonInput s))
    && match JSON_parse (jsonInput s) with
       | Normal _ => false
       | Throw message => truthy message
       end
  /\ fst (handleGenerateTypes s)
     = truthy (trim (jsonInput s))
       && match JSON_parse (jsonInput s) with
          | Normal _ => true
          | Throw message => negb (truthy message)
          end.
Proof.
  intros s.
  assert (Hs : Settled s) by (apply Settled_run, Settled_mount).
  unfold handleAiFix, handleGenerateTypes. rewrite Hs. unfold errorFor.
  destruct (truthy (trim (jsonInput s))); simpl; [|auto].
  destruct (JSON_parse (jsonInput s)) as [v|m]; simpl; [auto|].
  destruct (truthy m); auto.
Qed.

(** X8.  In every session the application can reach, a click on Beautify
    from another mode leaves the text and the mode that [handleFormat] on
    the buffer leaves: the recovery block of [toggleFormat] only changes the
    toast. *)
Theorem beautify_is_handleFormat (DEMO_JSON : string) (events : list Event) :
  let s := run events (mount DEMO_JSON) in
  let clicked := toggleFormat pretty s in
  let formatted := snd (handleFormat (jsonInput s) s) in
  formatMode s <> pretty ->
  jsonInput clicked = jsonInput formatted
  /\ formatMode clicked = formatMode formatted.
Proof.
  intros s clicked formatted Hmode. subst clicked formatted.
  assert (Hs : Settled s) by (apply Settled_run, Settled_mount).
  unfold toggleFormat.
  replace (FormatMode_eqb pretty (formatMode s)) with false
    by (destruct (formatMode s) eqn:Hm; simpl; congruence).
  simpl. unfold toggleRecovery.
  destruct (truthy_opt (error s)) eqn:Ht; simpl; [|auto].
  destruct (Settled_error_truthy s Hs Ht) as (m & _ & _ & Hp).
  destruct (JSON_parse (unescapeString (jsonInput s))) as [v|m'] eqn:Hu;
    [|auto].
  unfold handleFormat. rewrite Hp, Hu. auto.
Qed.

(** X10.  In every session the application can reach, when the session
    shows an error and the unescaped buffer is not blank and parses, a click
    on Tree View replaces the buffer by its unescaped form, without
    reformatting it, and the session then shows the parsed document with no
    error. *)
Theorem tree_view_recovers (DEMO_JSON : string) (events : list Event)
  (parsed : JsonValue) :
  let s := run events (mount DEMO_JSON) in
  let s' := dispatch (ClickFormat tree) s in
  truthy_opt (error s) = true ->
  JSON_parse (unescapeString (jsonInput s)) = Normal parsed ->
  truthy (trim (unescapeString (jsonInput s))) = true ->
  jsonInput s' = unescapeString (jsonInput s)
  /\ formatMode s' = tree
  /\ parsedData s' = parsed /\ selectedData s' = parsed
  /\ error s' = None.
Proof.
  intros s s' Ht Hu Hnb. subst s'.
  assert (Hs : Settled s) by (apply Settled_run, Settled_mount).
  destruct (Settled_error_truthy s Hs Ht) as (m & _ & _ & Hp).
  assert (Hne : unescapeString (jsonInput s) <> jsonInput s).
  { intros E. rewrite E in Hu. congruence. }
  unfold dispatch. cbn [handle]. unfold toggleFormat, toggleRecovery.
  rewrite Ht, Hu. cbn [FormatMode_eqb negb andb orb].
  rewrite andb_false_r.
  rewrite commit_changed by exact Hne.
  unfold parseEffect. cbn [jsonInput showNotification setNotification
    setFormatMode setJsonInput]. rewrite Hnb, Hu. simpl. auto.
Qed.

Lemma parseEffect_formatMode (s : Session) :
  formatMode (parseEffect s) = formatMode s.
Proof.
  unfold parseEffect.
  destruct (negb _); [reflexivity|]. destruct (JSON_parse _); reflexivity.
Qed.

Lemma commit_formatMode (before after : Session) :
  formatMode (commit before after) = formatMode after.
Proof.
  unfold commit. destruct (string_eqb _ _); [reflexivity|].
  apply parseEffect_formatMode.
Qed.

Lemma parseEffect_error_parsed (s : Session) (parsed : JsonValue) :
  JSON_parse (jsonInput s) = Normal parsed -> error (parseEffect s) = None.
Proof.
  intros H. unfold parseEffect. rewrite H.
  destruct (negb _); reflexivity.
Qed.

(** A switch to a mode the session is in already, other than [tree], does
    nothing. *)
Lemma toggleFormat_same_mode (mode : FormatMode) (s : Session) :
  mode <> tree -> formatMode s = mode -> toggleFormat mode s = s.
Proof.
  intros Ht Hm. unfold toggleFormat. rewrite Hm.
  destruct mode; simpl; congruence.
Qed.

Lemma toggleFormat_tree_again (s : Session) :
  toggleFormat tree (commit s (toggleFormat tree s))
  = commit s (toggleFormat tree s).
Proof.
  destruct s as [text pd sd err ip nt sb am gt fm].
  unfold toggleFormat at 2 3. fields.
  rewrite andb_false_r. unfold toggleRecovery. fields. rewrite andb_true_r.
  destruct (truthy_opt err) eqn:Ht.
  - destruct (JSON_parse (unescapeString text)) as [v|m] eqn:Hu.
    + unfold commit. fields.
      destruct (string_eqb_spec text (unescapeString text)) as [E|E].
      * assert (Huu : unescapeString (unescapeString text)
                      = unescapeString text)
          by (symmetry; apply (f_equal unescapeString E)).
        unfold toggleFormat, toggleRecovery. fields.
        rewrite Ht, Huu, Hu. reflexivity.
      * unfold parseEffect. fields. rewrite Hu.
        destruct (negb (truthy (trim (unescapeString text))));
          unfold toggleFormat, toggleRecovery; fields; reflexivity.
    + rewrite commit_unchanged by reflexivity.
      unfold toggleFormat, toggleRecovery. fields. rewrite Ht, Hu.
      reflexivity.
  - rewrite commit_unchanged by reflexivity.
    unfold toggleFormat, toggleRecovery. fields. rewrite Ht.
    reflexivity.
Qed.

Lemma toggleFormat_raw_again (s : Session) :
  toggleFormat raw (commit s (toggleFormat raw s))
  = commit s (toggleFormat raw s).
Proof.
  destruct (FormatMode_eqb raw (formatMode (toggleFormat raw s))) eqn:Hm.
  - apply toggleFormat_same_mode; [discriminate|].
    rewrite commit_formatMode.
    destruct (formatMode (toggleFormat raw s)); simpl in Hm; congruence.
  - destruct s as [text pd sd err ip nt sb am gt fm].
    revert Hm. unfold toggleFormat at 1 3 4, toggleRecovery, handleMinify.
    fields. rewrite !andb_false_r.
    destruct fm; fields; try (intros Hm; discriminate Hm);
      (destruct (JSON_parse text) as [v|m] eqn:Hp;
       [intros Hm; discriminate Hm|]);
      (destruct (JSON_parse (unescapeString text)) as [v|m'] eqn:Hu;
       [intros Hm; discriminate Hm|]);
      intros _; fields; rewrite commit_unchanged by reflexivity;
      unfold toggleFormat, toggleRecovery, handleMinify; fields;
      rewrite Hp, Hu, ?andb_false_r; reflexivity.
Qed.

Lemma toggleFormat_pretty_again (s : Session) :
  toggleFormat pretty (commit s (toggleFormat pretty s))
  = commit s (toggleFormat pretty s).
Proof.
  destruct (FormatMode_eqb pretty (formatMode (toggleFormat pretty s)))
    eqn:Hm.
  - apply toggleFormat_same_mode; [discriminate|].
    rewrite commit_formatMode.
    destruct (formatMode (toggleFormat pretty s)); simpl in Hm; congruence.
  - destruct s as [text pd sd err ip nt sb am gt fm].
    revert Hm. unfold toggleFormat at 1 3 4, toggleRecovery, handleFormat.
    fields. rewrite !andb_true_r.
    destruct fm; fields; try (intros Hm; discriminate Hm);
      (destruct (JSON_parse (unescapeString text)) as [v|m'] eqn:Hu;
       [destruct (truthy_opt err); [|destruct (JSON_parse text)];
        intros Hm; discriminate Hm|]);
      (destruct (JSON_parse text) as [v|m] eqn:Hp;
       [destruct (truthy_opt err); intros Hm; discriminate Hm|]);
      intros _;
      (replace (if truthy_opt err then None else None)
         with (@None Session) by (destruct (truthy_opt err); reflexivity));
      fields; rewrite commit_unchanged by reflexivity;
      unfold toggleFormat, toggleRecovery, handleFormat; fields;
      rewrite Hp, Hu, ?andb_true_r;
      destruct (truthy_opt err); reflexivity.
Qed.

(** X9.  Clicking a format button twice is the same as clicking it once:
    the second click on Raw, Beautify or Tree View leaves the session the
    first click produced. *)
Theorem format_click_idempotent (mode : FormatMode) (s : Session) :
  dispatch (ClickFormat mode) (dispatch (ClickFormat mode) s)
  = dispatch (ClickFormat mode) s.
Proof.
  unfold dispatch. cbn [handle].
  assert (H : toggleFormat mode (commit s (toggleFormat mode s))
              = commit s (toggleFormat mode s)).
  { destruct mode;
      [apply toggleFormat_pretty_again | apply toggleFormat_raw_again
      | apply toggleFormat_tree_again]. }
  rewrite H. apply commit_unchanged. reflexivity.
Qed.
End SessionMore.

Section ParsedValue.
Context {engine : JsonEngine}.

Lemma ParsedSettled_parseEffect (s : Session) :
  ParsedSettled (parseEffect s).
Proof.
  unfold ParsedSettled. rewrite parseEffect_jsonInput. unfold parseEffect.
  destruct (negb (truthy (trim (jsonInput s)))); [reflexivity|].
  destruct (JSON_parse (jsonInput s)); [reflexivity | exact I].
Qed.

(** A handler keeps the parsed value, except [handleClear], which resets it
    and empties the buffer. *)
Lemma handle_parsedData_or_clear (e : Event) (s : Session) :
  parsedData (handle e s) = parsedData s
  \/ (jsonInput (handle e s) = [] /\ parsedData (handle e s) = JNull).
Proof.
  destruct e; simpl; try (left; reflexivity); try (right; split; reflexivity).
  - left. apply toggleFormat_sameData.
  - left. unfold handleAiFix.
    destruct (isProcessing s || _); [reflexivity|].
    destruct (negb _); reflexivity.
  - left. unfold handleAiFix_resume. destruct (truthy_opt _); reflexivity.
  - left. unfold handleGenerateTypes.
    destruct (isProcessing s || _); [reflexivity|].
    destruct (truthy_opt (generatedTypes s)); [reflexivity|].
    destruct (_ || _); reflexivity.
  - left. unfold handleGenerateTypes_resume.
    destruct (truthy_opt _); reflexivity.
Qed.

Lemma ParsedSettled_dispatch (e : Event) (s : Session) :
  ParsedSettled s -> ParsedSettled (dispatch e s).
Proof.
  intros Hs. unfold dispatch, commit.
  destruct (string_eqb_spec (jsonInput s) (jsonInput (handle e s)))
    as [Heq|Hne]; [|apply ParsedSettled_parseEffect].
  unfold ParsedSettled in *.
  destruct (handle_parsedData_or_clear e s) as [H|[Ht Hp]].
  - rewrite H, <- Heq. exact Hs.
  - rewrite Ht, Hp. reflexivity.
Qed.

Lemma ParsedSettled_run (events : list Event) :
  forall s, ParsedSettled s -> ParsedSettled (run events s).
Proof.
  unfold run. induction events as [|e rest IH]; intros s Hs; simpl;
    [exact Hs|].
  apply IH, ParsedSettled_dispatch, Hs.
Qed.

(** X11.  In every session the application can reach, the parsed value is
    [null] when the buffer is blank and is the parse of the buffer when the
    buffer parses: the tree view never shows the document of an earlier
    buffer next to a buffer that parses. *)
Theorem reachable_parsedData_is_buffer_parse (DEMO_JSON : string)
  (events : list Event) :
  let s := run events (mount DEMO_JSON) in
  if negb (truthy (trim (jsonInput s))) then parsedData s = JNull
  else match JSON_parse (jsonInput s) with
       | Normal parsed => parsedData s = parsed
       | Throw _ => True
       end.
Proof.
  cbv zeta. change (ParsedSettled (run events (mount DEMO_JSON))).
  apply ParsedSettled_run.
  apply ParsedSettled_parseEffect.
Qed.
(** X23.  In every session the application can reach, in tree mode and
    with no generated interfaces open, the main area follows the buffer: a
    blank buffer and the document [null] show the empty placeholder, a buffer
    that parses shows the outline of its parse, and a buffer whose parse
    throws a non-empty message shows that message instead of a tree. *)
Theorem tree_mode_view (DEMO_JSON : string) (events : list Event) :
  let s := run events (mount DEMO_JSON) in
  truthy_opt (generatedTypes s) = false ->
  formatMode s = tree ->
  mainView s
  = if negb (truthy (trim (jsonInput s))) then EmptyJson
    else match JSON_parse (jsonInput s) with
         | Normal parsed => outlineOf parsed
         | Throw message =>
             if truthy message then TreeProblem message
             else outlineOf (parsedData s)
         end.
Proof.
  intros s Hg Hm.
  pose proof (ParsedSettled_run events
                (mount DEMO_JSON) (ParsedSettled_parseEffect _)) as Hp.
  assert (He : Settled s) by (apply Settled_run, Settled_mount).
  fold s in Hp. unfold ParsedSettled in Hp.
  unfold Settled in He. unfold mainView. rewrite Hg, Hm, !He.
  unfold errorFor.
  destruct (negb (truthy (trim (jsonInput s)))); simpl.
  - rewrite Hp. reflexivity.
  - destruct (JSON_parse (jsonInput s)) as [v|m]; simpl.
    + rewrite Hp. reflexivity.
    + destruct (truthy m); reflexivity.
Qed.
End ParsedValue.

(** ** The collaborator services *)

Lemma trimStart_fixed (s : string) :
  match s with
  | [] => True
  | c :: _ => isWhiteSpace c = false
  end -> trimStart s = s.
Proof. destruct s as [|c r]; simpl; [reflexivity|]. intros ->. reflexivity. Qed.

Lemma trimStart_head (s : string) :
  match trimStart s with
  | [] => True
  | c :: _ => isWhiteSpace c = false
  end.
Proof.
  induction s as [|c r IH]; simpl; [exact I|].
  destruct (isWhiteSpace c) eqn:Hc; [exact IH | exact Hc].
Qed.

Lemma trimStart_suffix (s : string) : exists w, s = w ++ trimStart s.
Proof.
  induction s as [|c r [w IH]]; simpl; [exists []; reflexivity|].
  destruct (isWhiteSpace c).
  - exists (c :: w). simpl. f_equal. exact IH.
  - exists []. reflexivity.
Qed.

(** Trimming a trimmed string changes nothing. *)
Lemma trim_idempotent (s : string) : trim (trim s) = trim s.
Proof.
  unfold trim, trimEnd.
  pose proof (trimStart_head s) as Hy.
  set (y := trimStart s) in *.
  pose proof (trimStart_head (rev y)) as Hz.
  destruct (trimStart_suffix (rev y)) as [w Hw].
  set (z := trimStart (rev y)) in *.
  assert (Hrz : trimStart (rev z) = rev z).
  { apply trimStart_fixed.
    assert (Hyz : y = rev z ++ rev w).
    { rewrite <- rev_app_distr, <- Hw, rev_involutive. reflexivity. }
    destruct (rev z) as [|c r] eqn:E; [exact I|].
    rewrite Hyz in Hy. exact Hy. }
  rewrite Hrz, rev_involutive.
  rewrite (trimStart_fixed z Hz). reflexivity.
Qed.

(** X13.  A collaborator call ends in one of two shapes.  A failure, when
    the API key is missing or the remote call threw, carries a non-empty
    message and an empty content; a success carries no error and a content
    without leading or trailing whitespace. *)
Theorem collaborator_result_shape (kind : AiMode) (API_KEY : string)
  (remote : RemoteOutcome) :
  let result := collaborator kind API_KEY remote in
  match Result.error result with
  | Some message =>
      truthy message = true /\ Result.content result = []
      /\ (truthy API_KEY = false \/ exists m, remote = Rejected m)
  | None =>
      truthy API_KEY = true /\ (exists text, remote = Responded text)
      /\ trim (Result.content result) = Result.content result
  end.
Proof.
  unfold collaborator, fixMalformedJson, generateTypeScriptInterfaces.
  destruct kind, (truthy API_KEY) eqn:Hk, remote as [text|[m|]]; simpl;
    repeat split; eauto using trim_idempotent;
    unfold orElse; destruct (truthy m) eqn:Hm; auto.
Qed.

Lemma contains_app_l (pat a b : string) :
  contains pat (a ++ b) = false -> contains pat a = false.
Proof.
  assert (Hs : forall p x, starts_with p (x ++ b) = false ->
                           starts_with p x = false).
  { induction p as [|c p IH]; intros [|d x]; simpl; auto; try discriminate.
    destruct (c =? d); simpl; auto. }
  induction a as [|c a IH]; simpl; intros H.
  - destruct pat; [|reflexivity].
    destruct b; simpl in H; discriminate H.
  - apply orb_false_elim in H as [H1 H2].
    rewrite (Hs pat (c :: a) H1), (IH H2). reflexivity.
Qed.

Lemma contains_app_r (pat a b : string) :
  contains pat (a ++ b) = false -> contains pat b = false.
Proof.
  induction a as [|c a IH]; simpl; [auto|].
  intros H. apply orb_false_elim in H as [_ H]. auto.
Qed.

Lemma contains_trim (pat s : string) :
  contains pat s = false -> contains pat (trim s) = false.
Proof.
  intros H. unfold trim, trimEnd.
  destruct (trimStart_suffix s) as [w Hw].
  assert (Hy : contains pat (trimStart s) = false)
    by (rewrite Hw in H; eapply contains_app_r; eassumption).
  set (y := trimStart s) in *.
  destruct (trimStart_suffix (rev y)) as [w' Hw'].
  assert (Hyz : y = rev (trimStart (rev y)) ++ rev w').
  { rewrite <- rev_app_distr, <- Hw', rev_involutive. reflexivity. }
  rewrite Hyz in Hy. eapply contains_app_l. eassumption.
Qed.

Lemma starts_with_fence (s : string) :
  starts_with backticks s = (3 <=? leadingBackticks s)%nat.
Proof.
  change backticks with [96; 96; 96].
  destruct s as [|a s1]; [reflexivity|].
  cbn [starts_with leadingBackticks]. rewrite (N.eqb_sym 96 a).
  destruct (a =? 96); [|reflexivity]. cbn [andb].
  destruct s1 as [|b s2]; [reflexivity|].
  cbn [starts_with leadingBackticks]. rewrite (N.eqb_sym 96 b).
  destruct (b =? 96); [|reflexivity]. cbn [andb].
  destruct s2 as [|c r]; [reflexivity|].
  cbn [starts_with leadingBackticks]. rewrite (N.eqb_sym 96 c).
  destruct (c =? 96); reflexivity.
Qed.

Lemma leadingBackticks_three (s : string) :
  (3 <= leadingBackticks s)%nat ->
  exists rest, s = 96 :: 96 :: 96 :: rest
               /\ leadingBackticks s = (3 + leadingBackticks rest)%nat.
Proof.
  destruct s as [|a s1]; simpl; [lia|].
  destruct (N.eqb_spec a 96) as [->|]; [|lia].
  destruct s1 as [|b s2]; simpl; [lia|].
  destruct (N.eqb_spec b 96) as [->|]; [|lia].
  destruct s2 as [|c rest]; simpl; [lia|].
  destruct (N.eqb_spec c 96) as [->|]; [|lia].
  intros _. exists rest. auto.
Qed.

(** Removing the fences leaves no fence: the output has fewer than three
    backticks in a row. *)
Lemma replaceAll_fence (n : nat) :
  forall s, (length s <= n)%nat ->
    contains backticks (replaceAll backticks [] s) = false
    /\ (leadingBackticks (replaceAll backticks [] s)
        <= leadingBackticks s)%nat.
Proof.
  unfold replaceAll.
  induction n as [|n IH]; intros s Hn.
  - destruct s; [|simpl in Hn; lia]. split; [reflexivity | simpl; lia].
  - destruct s as [|c s']; [split; [reflexivity | simpl; lia]|].
    cbn [replace_from]. rewrite starts_with_fence.
    destruct (3 <=? leadingBackticks (c :: s'))%nat eqn:H3.
    + apply Nat.leb_le in H3.
      destruct (leadingBackticks_three _ H3) as (s3 & E & Hl3).
      rewrite Hl3. injection E as -> ->.
      change (length backticks) with 3%nat. cbn [Nat.pred app replace_from].
      destruct (IH s3) as [Hc Hl]; [simpl in Hn; lia|].
      split; [exact Hc | lia].
    + apply Nat.leb_gt in H3.
      destruct (IH s') as [Hc Hl]; [simpl in Hn; lia|].
      split.
      * cbn [contains]. rewrite Hc, orb_false_r, starts_with_fence.
        apply Nat.leb_gt. simpl in H3 |- *.
        destruct (c =? 96); lia.
      * simpl. destruct (c =? 96); lia.
Qed.

(** X14.  The content [fixMalformedJson] returns never contains a code
    fence: three backticks in a row do not occur in it. *)
Theorem fixMalformedJson_no_fence (API_KEY : string) (remote : RemoteOutcome) :
  contains backticks (Result.content (fixMalformedJson API_KEY remote))
  = false.
Proof.
  unfold fixMalformedJson.
  destruct (truthy API_KEY); simpl; [|reflexivity].
  destruct remote as [text|m]; simpl; [|reflexivity].
  apply contains_trim. eapply replaceAll_fence. apply Nat.le_refl.
Qed.

Lemma blank_has_no_backtick (s : string) :
  forallb isWhiteSpace s = true -> existsb (N.eqb 96) s = false.
Proof.
  induction s as [|c r IH]; [reflexivity|].
  cbn [forallb existsb]. intros H. apply andb_prop in H as [Hc Hr].
  rewrite (IH Hr), orb_false_r.
  apply N.eqb_neq. intros <-. discriminate Hc.
Qed.

Section Answers.
Context {engine : JsonEngine}.

(** X12.  A repair call that is answered with no text, or with whitespace
    only, counts as a success with an empty content: the session that
    receives it empties its buffer and shows no document and no error, under
    the toast of a successful repair. *)
Theorem empty_answer_empties_buffer (API_KEY : string) (text : option string)
  (s : Session) :
  let result := fixMalformedJson API_KEY (Responded text) in
  let s' := dispatch (AiFixSettled result) s in
  truthy API_KEY = true ->
  forallb isWhiteSpace (orElse text []) = true ->
  jsonInput s <> [] ->
  Result.error result = None /\ Result.content result = []
  /\ jsonInput s' = [] /\ parsedData s' = JNull /\ selectedData s' = JNull
  /\ error s' = None
  /\ notification s' = Some (lit "JSON Repaired by Gemini AI").
Proof.
  intros result s' Hk Hb Hne. subst s'.
  assert (Hr : result = Result.make [] None).
  { subst result. unfold fixMalformedJson. rewrite Hk. cbn [negb].
    change backticks with (96 :: [96; 96]).
    change ((96 :: [96; 96]) ++ lit "json")
      with (96 :: [96; 96] ++ lit "json").
    repeat rewrite (replaceAll_absent 96 _ [] (orElse text []))
      by (apply blank_has_no_backtick, Hb).
    rewrite (trim_blank _ Hb). reflexivity. }
  rewrite Hr. split; [reflexivity|]. split; [reflexivity|].
  unfold dispatch. cbn [handle]. unfold handleAiFix_resume.
  cbn [Result.error Result.content truthy_opt].
  rewrite commit_changed by (simpl; congruence).
  unfold parseEffect. simpl. auto.
Qed.
End Answers.

(** ** The extras on concrete buffers *)

(** X5, at the buffer [{a:1]. *)
Lemma format_without_backslash_witness :
  handleFormat (engine := Lit.engine) (lit "{a:1") Examples.start
  = (false,
     showNotification (lit "Cannot format invalid JSON") Examples.start).
Proof.
  apply (format_without_backslash (engine := Lit.engine) (lit "{a:1")
           (lit "Unexpected token {") Examples.start); reflexivity.
Defined.

(** X8, at the escaped document typed again while in tree mode. *)
Lemma beautify_is_handleFormat_witness :
  let s := Examples.after [Edit Examples.escapedNull; ClickFormat tree;
                           Edit Examples.escapedNull] in
  formatMode s = tree
  /\ jsonInput (toggleFormat (engine := Lit.engine) pretty s) = lit "null"
  /\ jsonInput (snd (handleFormat (engine := Lit.engine) (jsonInput s) s))
     = lit "null".
Proof.
  pose proof (beautify_is_handleFormat (engine := Lit.engine) (lit "true")
                [Edit Examples.escapedNull; ClickFormat tree;
                 Edit Examples.escapedNull]) as H.
  cbv zeta in H. destruct H as [Ht _]; [vm_compute; discriminate|].
  split; [reflexivity|]. split; [|reflexivity].
  refine (eq_trans Ht _). reflexivity.
Defined.

(** X10, at the escaped document. *)
Lemma tree_view_recovers_witness :
  let s := Examples.after [Edit Examples.escapedNull] in
  let s' := dispatch (engine := Lit.engine) (ClickFormat tree) s in
  jsonInput s' = Ch.TAB :: lit "null" /\ formatMode s' = tree
  /\ parsedData s' = JNull /\ error s' = None.
Proof.
  pose proof (tree_view_recovers (engine := Lit.engine) (lit "true")
                [Edit Examples.escapedNull] JNull) as H.
  cbv zeta in H.
  destruct H as (Hj & Hm & Hp & _ & He); [reflexivity..|].
  repeat split; assumption.
Defined.

(** X12, at an answer without text, in a session with a broken buffer. *)
Lemma empty_answer_empties_buffer_witness :
  let s := Examples.after [Edit Examples.broken] in
  let result := fixMalformedJson (lit "key") (Responded None) in
  jsonInput (dispatch (engine := Lit.engine) (AiFixSettled result) s) = []
  /\ error (dispatch (engine := Lit.engine) (AiFixSettled result) s) = None.
Proof.
  pose proof (empty_answer_empties_buffer (engine := Lit.engine) (lit "key")
                None (Examples.after [Edit Examples.broken])) as H.
  cbv zeta in H.
  destruct H as (_ & _ & Hj & _ & _ & He & _);
    [reflexivity | reflexivity | vm_compute; discriminate |].
  split; assumption.
Defined.

(** ** The tree component *)

Module TreeMore.
Import JsonTree.

Lemma lookup_childElements_props (p : JsonNodeProps) (key : string)
  (ps : list (string * JsonValue)) (index : nat) (c : JsonNodeProps) :
  lookup key (childElements p index ps) = Some c ->
  keyName c = Some key /\ depth c = (depth p + 1)%nat
  /\ showValues c = showValues p.
Proof.
  revert index; induction ps as [|[k x] ps IH]; intros index; simpl;
    [discriminate|].
  destruct (string_eqb_spec k key) as [->|Hk].
  - intros H; inversion H; simpl. auto.
  - apply IH.
Qed.

Lemma last_default {A : Type} (l : list A) (a d1 d2 : A) :
  last (a :: l) d1 = last (a :: l) d2.
Proof.
  revert a; induction l as [|b l IH]; intros a; [reflexivity|].
  change (last (b :: l) d1 = last (b :: l) d2). apply IH.
Qed.

Lemma propsAt_from (position : list string) :
  forall (p0 p : JsonNodeProps),
    propsAt p0 position = Some p ->
    depth p = (depth p0 + length position)%nat
    /\ showValues p = showValues p0
    /\ keyName p = last (map Some position) (keyName p0).
Proof.
  induction position as [|key rest IH]; intros p0 p; simpl.
  - intros H; inversion H; subst. repeat split; lia.
  - destruct (lookup key (children p0)) as [c|] eqn:Hc; [|discriminate].
    intros Hp. unfold children in Hc.
    destruct (isObject (value p0) && negb (isEmpty (value p0)));
      [|discriminate].
    destruct (lookup_childElements_props _ _ _ _ _ Hc) as (Hk & Hd & Hs).
    destruct (IH c p Hp) as (Hd' & Hs' & Hk').
    repeat split; [lia | congruence |].
    rewrite Hk', Hk. destruct rest as [|k' rest']; [reflexivity|].
    cbn [map]. rewrite (last_default _ _ (Some key) (keyName p0)).
    reflexivity.
Qed.

(** X15.  The node rendered at a position of the main tree has the value
    found by following the keys of the position, a depth equal to the number
    of keys, the last key as its label (none at the root), and shows
    values. *)
Theorem propsAt_carries (root : JsonValue) (position : list string)
  (p : JsonNodeProps) :
  propsAt (rootProps root) position = Some p ->
  valueAt root position = Some (value p)
  /\ depth p = length position
  /\ keyName p = last (map Some position) None
  /\ showValues p = true.
Proof.
  intros H. split; [exact (TreeFacts.propsAt_valueAt _ _ _ H)|].
  destruct (propsAt_from _ _ _ H) as (Hd & Hs & Hk). auto.
Qed.

Lemma childElements_keys (p : JsonNodeProps)
  (ps : list (string * JsonValue)) (index : nat) :
  map fst (childElements p index ps) = map fst ps.
Proof.
  revert index; induction ps as [|[k x] ps IH]; intros index; simpl;
    [reflexivity|]. rewrite IH. reflexivity.
Qed.

Lemma childElements_isLast (p : JsonNodeProps)
  (ps : list (string * JsonValue)) :
  forall (index i : nat) (key : string) (c : JsonNodeProps),
    nth_error (childElements p index ps) i = Some (key, c) ->
    isLast c
    = (index + i =? length (Object_keys (value p)) - 1)%nat.
Proof.
  induction ps as [|[k x] ps IH]; intros index i key c; simpl.
  - destruct i; discriminate.
  - destruct i as [|i]; simpl.
    + intros H; inversion H; simpl. rewrite Nat.add_0_r. reflexivity.
    + intros H. rewrite (IH _ _ _ _ H). f_equal. lia.
Qed.

(** X16.  A node renders one child per key, in the order of its keys, and
    marks as last exactly the child at the last index. *)
Theorem children_in_key_order (p : JsonNodeProps) (i : nat) (key : string)
  (c : JsonNodeProps) :
  nth_error (children p) i = Some (key, c) ->
  map fst (children p) = Object_keys (value p)
  /\ isLast c = (i =? length (children p) - 1)%nat.
Proof.
  unfold children.
  destruct (isObject (value p) && negb (isEmpty (value p)));
    [|destruct i; discriminate].
  intros H. split; [apply childElements_keys|].
  rewrite (childElements_isLast _ _ _ _ _ _ H).
  rewrite <- (length_map fst (childElements p 0 _)), childElements_keys.
  reflexivity.
Qed.

Lemma currentPath_extends (p : JsonNodeProps) :
  exists x, currentPath p = path p ++ x.
Proof.
  unfold currentPath. destruct (keyName p) as [k|].
  - destruct (truthy k).
    + destruct (path p) as [|c r] eqn:E; simpl.
      * exists k. reflexivity.
      * exists (Ch.DOT :: k). reflexivity.
    + exists []. symmetry. apply List.app_nil_r.
  - exists []. symmetry. apply List.app_nil_r.
Qed.

Lemma childPath_extends (p : JsonNodeProps) (key : string) :
  exists x, childPath p key = path p ++ x.
Proof.
  destruct (currentPath_extends p) as [x Hx]. unfold childPath.
  destruct (isArray (value p)).
  - rewrite Hx, <- app_assoc. eexists. reflexivity.
  - destruct (truthy (currentPath p)) eqn:T.
    + rewrite Hx, <- app_assoc. eexists. reflexivity.
    + destruct (currentPath p); [|discriminate T].
      destruct (path p); [exists key; reflexivity | discriminate Hx].
Qed.

(** X17.  In every document, the path string of a node starts with the path
    string of each of its ancestors. *)
Theorem path_extends_ancestor (position : list string) :
  forall (p a : JsonNodeProps),
    propsAt p position = Some a -> exists tail, path a = path p ++ tail.
Proof.
  induction position as [|key rest IH]; intros p a; simpl.
  - intros H; inversion H. exists []. symmetry. apply List.app_nil_r.
  - destruct (lookup key (children p)) as [c|] eqn:Hc; [|discriminate].
    intros Ha. destruct (IH c a Ha) as [t Ht].
    unfold children in Hc.
    destruct (isObject (value p) && negb (isEmpty (value p)));
      [|discriminate].
    destruct (PathFacts.lookup_childElements_inv _ _ _ _ _ Hc)
      as (_ & Hp & _).
    destruct (childPath_extends p key) as [x Hx].
    rewrite Ht, Hp, Hx, <- app_assoc. eexists. reflexivity.
Qed.

Lemma lookup_indexed (items : list JsonValue) :
  forall from j,
    lookup (indexKey (from + j)) (indexed from items) = nth_error items j.
Proof.
  induction items as [|x items IH]; intros from j; simpl.
  - destruct j; reflexivity.
  - destruct (string_eqb_spec (indexKey from) (indexKey (from + j)))
      as [E|E].
    + apply PathFacts.indexKey_inj in E.
      assert (j = 0)%nat by lia. subst j. reflexivity.
    + destruct j as [|j]; [rewrite Nat.add_0_r in E; congruence|].
      simpl. rewrite <- (IH (S from) j). f_equal. f_equal. lia.
Qed.

Lemma lookup_childElements_Some (p : JsonNodeProps) (key : string)
  (ps : list (string * JsonValue)) (x : JsonValue) :
  forall index,
    lookup key ps = Some x ->
    exists c, lookup key (childElements p index ps) = Some c
              /\ path c = childPath p key.
Proof.
  induction ps as [|[k y] ps IH]; intros index; simpl; [discriminate|].
  destruct (string_eqb_spec k key) as [->|Hk].
  - intros _. eexists. split; reflexivity.
  - apply IH.
Qed.

Lemma pathAt_child (root : JsonValue) (key : string) :
  pathAt root [key]
  = option_map (fun _ => childPath (rootProps root) key)
      (getProperty root key).
Proof.
  unfold pathAt. cbn [propsAt]. unfold children, getProperty.
  cbn [value rootProps].
  destruct (isObject root && negb (isEmpty root)) eqn:Hc.
  - destruct (lookup key (properties root)) as [x|] eqn:Hg.
    + destruct (lookup_childElements_Some (rootProps root) _ _ _ 0 Hg)
        as (c & Hl & Hp).
      rewrite Hl. cbn [option_map]. rewrite Hp. reflexivity.
    + destruct (lookup key (childElements (rootProps root) 0
                              (properties root))) as [c|] eqn:Hl;
        [|reflexivity].
      apply TreeFacts.lookup_childElements in Hl. congruence.
  - assert (Hp : properties root = []).
    { unfold isEmpty, Object_keys in Hc.
      destruct root; try reflexivity; simpl in Hc;
        [destruct items | destruct members]; try reflexivity;
        discriminate Hc. }
    rewrite Hp. reflexivity.
Qed.

(** X18.  The children of the root are addressed as follows.  Reading the
    property of an array named by the decimal index [i] gives the element at
    [i], or nothing beyond the end; the path of that element is the index
    between brackets, and the path of a member of an object document is its
    key. *)
Theorem root_children_addresses (items : list JsonValue)
  (members : list (string * JsonValue)) (i : nat) (key : string) :
  getProperty (JArray items) (indexKey i) = nth_error items i
  /\ pathAt (JArray items) [indexKey i]
     = option_map (fun _ => [Ch.LBRACKET] ++ indexKey i ++ [Ch.RBRACKET])
         (nth_error items i)
  /\ pathAt (JObject members) [key]
     = option_map (fun _ => key) (lookup key members).
Proof.
  assert (Hg : getProperty (JArray items) (indexKey i) = nth_error items i)
    by (apply (lookup_indexed items 0 i)).
  split; [exact Hg|]. rewrite !pathAt_child, Hg. split; reflexivity.
Qed.

(** X19.  Whatever togglers are clicked after the tree is opened, the
    document stays as it is and the view stays in step with it: every
    expanded node has one mounted child per key, in key order, and every
    collapsed node has none. *)
Theorem view_stays_synced (document0 : JsonValue)
  (positions : list (list string)) :
  let tv := clicks positions (open document0) in
  document tv = document0 /\ Synced document0 (view tv).
Proof.
  unfold clicks.
  assert (H : forall tv, Synced (document tv) (view tv) ->
              document (fold_left (fun v p => click p v) positions tv)
              = document tv
              /\ Synced (document tv)
                   (view (fold_left (fun v p => click p v) positions tv))).
  { induction positions as [|pos rest IH]; intros tv Hs; simpl; [auto|].
    destruct (IH (click pos tv)) as [Hd Hv].
    - simpl. apply TreeFacts.Synced_toggleAt, Hs.
    - simpl in Hd, Hv. auto. }
  apply (H (open document0)). simpl. apply TreeFacts.Synced_mountValue.
Qed.

Lemma mountValue_unfold (v : JsonValue) :
  mountValue v = Inst true (mountChildren v).
Proof.
  rewrite <- TreeFacts.mounted_mountValue. destruct v; reflexivity.
Qed.

Lemma update_twice_fresh (key : string) (childValue : JsonValue)
  (f : Instance -> Instance) (ps : list (string * JsonValue)) :
  f (f (mountValue childValue)) = mountValue childValue ->
  lookup key ps = Some childValue ->
  update key f (update key f (map (fun m => (fst m, mountValue (snd m))) ps))
  = map (fun m => (fst m, mountValue (snd m))) ps.
Proof.
  intros Hf. induction ps as [|[k x] ps IH]; simpl; [reflexivity|].
  destruct (string_eqb k key) eqn:Hk; simpl; rewrite Hk.
  - intros E; inversion E; subst. rewrite Hf. reflexivity.
  - intros E. rewrite (IH E). reflexivity.
Qed.

Lemma toggleAt_twice_fresh (position : list string) :
  forall v, toggleAt v position (toggleAt v position (mountValue v))
            = mountValue v.
Proof.
  induction position as [|key rest IH]; intros v; cbn [toggleAt].
  - destruct (isObject v && negb (isEmpty v)) eqn:Ht; [|reflexivity].
    rewrite (mountValue_unfold v). unfold toggleExpand.
    cbn [isExpanded negb]. reflexivity.
  - destruct (getProperty v key) as [cv|] eqn:Hg; [|reflexivity].
    rewrite (mountValue_unfold v). cbn [isExpanded mounted].
    unfold mountChildren.
    rewrite (update_twice_fresh key cv _ (properties v) (IH cv) Hg).
    reflexivity.
Qed.

(** X22.  On a freshly opened tree, clicking the same toggler twice gives
    the freshly opened tree again, wherever the click lands. *)
Theorem click_twice_on_open (document0 : JsonValue)
  (position : list string) :
  click position (click position (open document0)) = open document0.
Proof.
  unfold click, open. simpl. rewrite toggleAt_twice_fresh. reflexivity.
Qed.

Lemma balanced_flat_map {A : Type} (f : A -> list Row) (l : list A) :
  Forall (fun a => length (filter opensBracket (f a))
                   = length (filter closesBracket (f a))) l ->
  length (filter opensBracket (flat_map f l))
  = length (filter closesBracket (flat_map f l)).
Proof.
  induction 1 as [|a l Ha _ IH]; simpl; [reflexivity|].
  rewrite !filter_app, !length_app. lia.
Qed.

(** X20.  The outline is never empty and its brackets are balanced: it has
    as many closing rows as headers of expanded nodes, whatever the view
    state. *)
Theorem rows_balanced (i : Instance) :
  forall p : JsonNodeProps,
    rows p i <> []
    /\ length (filter opensBracket (rows p i))
       = length (filter closesBracket (rows p i)).
Proof.
  induction i as [expanded kids IH] using Instance_nested_ind.
  intros p. cbn [rows].
  destruct (isObject (value p) && negb (isEmpty (value p)));
    [|split; [discriminate | reflexivity]].
  split; [discriminate|].
  destruct expanded; [|reflexivity].
  cbn [filter headerRow opensBracket closesBracket length].
  rewrite !filter_app, !length_app. cbn [filter footerRow opensBracket
    closesBracket length].
  rewrite (balanced_flat_map _ kids); [lia|].
  eapply Forall_impl; [|exact IH].
  intros kid Hkid. cbn beta.
  destruct (lookup (fst kid) (children p)); [apply Hkid | reflexivity].
Qed.
Lemma structureOnly_rows (i : Instance) :
  forall p : JsonNodeProps,
    showValues p = false -> forallb structureOnly (rows p i) = true.
Proof.
  induction i as [expanded kids IH] using Instance_nested_ind.
  intros p Hs. cbn [rows].
  destruct (isObject (value p) && negb (isEmpty (value p))) eqn:Hc;
    [|cbn; rewrite Hs; reflexivity].
  cbn [forallb headerRow structureOnly]. rewrite Hs. cbn [negb andb].
  assert (Hh : (if expanded then true
                else negb (negb (isLast p) && false)) = true)
    by (destruct expanded; [reflexivity | rewrite andb_false_r; reflexivity]).
  destruct expanded; [|cbn; rewrite andb_false_r; reflexivity].
  cbn [andb]. rewrite forallb_app. cbn [forallb footerRow structureOnly].
  rewrite Hs, andb_false_r. cbn [negb andb]. rewrite andb_true_r.
  apply forallb_forall. intros r Hr. apply in_flat_map in Hr as (kid & Hk & Hr).
  rewrite Forall_forall in IH. specialize (IH kid Hk).
  destruct (lookup (fst kid) (children p)) as [c|] eqn:Hl; [|destruct Hr].
  assert (Hsc : showValues c = false).
  { unfold children in Hl. rewrite Hc in Hl.
    destruct (lookup_childElements_props _ _ _ _ _ Hl) as (_ & _ & E).
    congruence. }
  pose proof (IH c Hsc) as Hall. rewrite forallb_forall in Hall. auto.
Qed.

(** X24.  The structure sidebar never shows a value: whatever the selected
    value and the view state, no row of its outline carries a value, a type
    label or a comma. *)
Theorem sidebar_shows_structure_only (selected : JsonValue) (i : Instance) :
  forallb structureOnly (rows (sidebarProps selected) i) = true.
Proof. apply structureOnly_rows. reflexivity. Qed.
End TreeMore.

(** ** The editor surface *)

Lemma split_length (sep : char) (s : string) :
  length (split sep s) = S (length (filter (N.eqb sep) s)).
Proof.
  induction s as [|c rest IH]; [reflexivity|].
  cbn [split filter]. rewrite (N.eqb_sym sep c).
  destruct (c =? sep); simpl; [rewrite IH; reflexivity|].
  destruct (split sep rest); simpl in *; [discriminate IH | exact IH].
Qed.

(** X21.  The gutter of the editor shows the numbers 1, 2, 3, ... without
    gap: one per line of the text (one more than it has line feeds), and
    never fewer than fifteen. *)
Theorem gutter_numbers (value : string) :
  CodeEditor.lines value
  = seq 1 (Nat.max (S (length (filter (N.eqb Ch.LF) value))) 15).
Proof.
  unfold CodeEditor.lines, CodeEditor.lineCount. rewrite split_length.
  rewrite <- seq_shift. apply map_ext. intros i. lia.
Qed.

(** ** The tree extras on the example documents *)

(** X15, at the leaf below the array of the example document. *)
Lemma propsAt_carries_witness :
  exists p,
    JsonTree.propsAt (JsonTree.rootProps Examples.listed)
      [lit "a"; lit "0"; lit "b"] = Some p
    /\ JsonTree.value p = JBoolean true /\ JsonTree.depth p = 3%nat
    /\ JsonTree.keyName p = Some (lit "b").
Proof.
  eexists. split; [reflexivity|].
  eassert (H : _)
    by (eapply (TreeMore.propsAt_carries Examples.listed
                  [lit "a"; lit "0"; lit "b"]); reflexivity).
  destruct H as (Hv & Hd & Hk & _).
  split; [reflexivity|]. split; [exact Hd | exact Hk].
Defined.

(** X16, at the second child of the root of the example document. *)
Lemma children_in_key_order_witness :
  map fst (JsonTree.children (JsonTree.rootProps Examples.nested))
  = [lit "a"; lit "c"].
Proof.
  eassert (H : _)
    by (eapply (TreeMore.children_in_key_order
                  (JsonTree.rootProps Examples.nested) 1 (lit "c"));
        reflexivity).
  destruct H as [Hk _]. exact Hk.
Defined.

(** X17, at the leaf below the array of the example document, seen from the
    member [a] of the root. *)
Lemma path_extends_ancestor_witness :
  exists tail, lit "a.a[0].0.b" = lit "a" ++ tail.
Proof.
  eassert (H : _)
    by (eapply (TreeMore.path_extends_ancestor [lit "0"; lit "b"]
                  (JsonTree.childProps (JsonTree.rootProps Examples.listed)
                     0 (lit "a")
                     (JArray [JObject [(lit "b", JBoolean true)]])));
        reflexivity).
  exact H.
Defined.

(** X23, at the document [null] shown in tree mode. *)
Lemma tree_mode_view_witness :
  mainView (Examples.after [Edit (lit "null"); ClickFormat tree]) = EmptyJson.
Proof.
  pose proof (tree_mode_view (engine := Lit.engine) (lit "true")
                [Edit (lit "null"); ClickFormat tree]) as H.
  cbv zeta in H. refine (eq_trans (H _ _) _); reflexivity.
Defined.

(** * The JSON object of the standard: reading back what was written *)

Module EcmaFacts.
Import Ecma.
Local Open Scope Z_scope.

(** ** Numbers *)

Lemma isBinary64_finite (negative : bool) (m : positive) (exponent : Z) :
  isBinary64 (S754_finite negative m exponent) = true ->
  Zpos m < 2 ^ 53 /\ -1074 <= exponent <= 971
  /\ (exponent = -1074 \/ 2 ^ 52 <= Zpos m).
Proof.
  unfold isBinary64. intros H.
  apply andb_prop in H as [H H4]. apply andb_prop in H as [H H3].
  apply andb_prop in H as [H1 H2].
  apply Z.ltb_lt in H1. apply Z.leb_le in H2, H3.
  apply orb_prop in H4. rewrite Z.eqb_eq, Z.leb_le in H4. auto.
Qed.

(** A binary64 value is its own Number value. *)
Lemma significand_exact (p q : Z) (m : positive) (exponent : Z) :
  0 < q ->
  Zpos m < 2 ^ 53 -> -1074 <= exponent <= 971 ->
  (exponent = -1074 \/ 2 ^ 52 <= Zpos m) ->
  p * 2 ^ 1074 = Zpos m * 2 ^ (exponent + 1074) * q ->
  significand p q = (Zpos m, exponent + 1074).
Proof.
  intros Hq Hm He Hn Hp. unfold significand.
  set (s0 := exponent + 1074) in *.
  assert (Hs0 : 0 <= s0) by (unfold s0; lia).
  assert (Hpow : 0 < 2 ^ s0) by (apply Z.pow_pos_nonneg; lia).
  assert (Hquot : p * 2 ^ 1074 / q = Zpos m * 2 ^ s0).
  { rewrite Hp. apply Z.div_mul. lia. }
  rewrite Hquot.
  assert (Hlog : Z.log2 (Zpos m * 2 ^ s0) = s0 + Z.log2 (Zpos m))
    by (apply Z.log2_mul_pow2; lia).
  rewrite Hlog.
  assert (Hle : Z.log2 (Zpos m) < 53)
    by (apply Z.log2_lt_pow2; [lia | exact Hm]).
  assert (Hshift : Z.max (s0 + Z.log2 (Zpos m) - 52) 0 = s0).
  { destruct Hn as [Hn|Hn].
    - unfold s0 in *. lia.
    - apply Z.log2_le_pow2 in Hn; lia. }
  rewrite Hshift.
  assert (Hden : p * 2 ^ 1074 = Zpos m * (q * 2 ^ s0)) by (rewrite Hp; ring).
  rewrite Hden.
  assert (Hd : 0 < q * 2 ^ s0) by lia.
  rewrite Z.div_mul by lia. rewrite Z.mod_mul by lia.
  replace (2 * 0 =? q * 2 ^ s0) with false by (symmetry; apply Z.eqb_neq; lia).
  replace (q * 2 ^ s0 <? 2 * 0) with false by (symmetry; apply Z.ltb_ge; lia).
  replace (Zpos m =? 2 ^ 53) with false by (symmetry; apply Z.eqb_neq; lia).
  reflexivity.
Qed.

Lemma roundRatio_exact (negative : bool) (p q : Z) (m : positive)
  (exponent : Z) :
  0 < q ->
  isBinary64 (S754_finite negative m exponent) = true ->
  p * 2 ^ 1074 = Zpos m * 2 ^ (exponent + 1074) * q ->
  roundRatio negative p q = S754_finite negative m exponent.
Proof.
  intros Hq Hx Hp. apply isBinary64_finite in Hx as (Hm & He & Hn).
  unfold roundRatio. rewrite (significand_exact p q m exponent) by assumption.
  replace (2045 <? exponent + 1074) with false
    by (symmetry; apply Z.ltb_ge; lia).
  f_equal. lia.
Qed.

(** The rounded significand has at most 53 bits, and has them all unless
    the shift is 0. *)
Lemma significand_bounds (p q : Z) :
  0 < p -> 0 < q ->
  0 <= fst (significand p q) < 2 ^ 53
  /\ 0 <= snd (significand p q)
  /\ (snd (significand p q) = 0 \/ 2 ^ 52 <= fst (significand p q)).
Proof.
  intros Hp Hq. unfold significand.
  assert (H53 : 2 ^ 53 = 2 * 2 ^ 52) by reflexivity.
  assert (H52 : 0 < 2 ^ 52) by reflexivity.
  set (scaled := p * 2 ^ 1074).
  assert (Hs : 0 < scaled).
  { unfold scaled. apply Z.mul_pos_pos; [lia|]. apply Z.pow_pos_nonneg; lia. }
  set (t := scaled / q).
  assert (Ht : 0 <= t) by (apply Z.div_pos; lia).
  set (shift := Z.max (Z.log2 t - 52) 0).
  assert (Hshift : 0 <= shift) by lia.
  assert (Hpow : 0 < 2 ^ shift) by (apply Z.pow_pos_nonneg; lia).
  set (den := q * 2 ^ shift).
  assert (Hden : 0 < den) by (unfold den; lia).
  assert (Hm1 : scaled / den = t / 2 ^ shift).
  { unfold den, t. rewrite Z.div_div by lia. reflexivity. }
  assert (Hup : t / 2 ^ shift < 2 ^ 53).
  { apply Z.div_lt_upper_bound; [lia|].
    destruct (Z.eq_dec t 0) as [->|Hnz]; [lia|].
    destruct (Z.log2_spec t) as [_ Hlt]; [lia|].
    rewrite <- Z.pow_add_r by lia.
    eapply Z.lt_le_trans; [exact Hlt|].
    apply Z.pow_le_mono_r; lia. }
  assert (Hlow : shift = 0 \/ 2 ^ 52 <= t / 2 ^ shift).
  { destruct (Z.eq_dec shift 0) as [H0|H0]; [left; exact H0 | right].
    assert (Hsh : shift = Z.log2 t - 52) by lia.
    assert (Htpos : 0 < t).
    { destruct (Z.eq_dec t 0) as [E|E]; [|lia].
      rewrite E in Hsh. simpl in Hsh. lia. }
    apply Z.div_le_lower_bound; [lia|].
    destruct (Z.log2_spec t) as [Hge _]; [lia|].
    rewrite <- Z.pow_add_r by lia.
    replace (shift + 52) with (Z.log2 t) by lia. exact Hge. }
  assert (Hm0 : 0 <= t / 2 ^ shift) by (apply Z.div_pos; lia).
  rewrite Hm1.
  set (m1 := t / 2 ^ shift) in *.
  set (up := if 2 * (scaled mod den) =? den then Z.odd m1
             else den <? 2 * (scaled mod den)).
  set (m2 := if up then m1 + 1 else m1).
  assert (Hm2 : m1 <= m2 <= m1 + 1) by (unfold m2; destruct up; lia).
  destruct (Z.eqb_spec m2 (2 ^ 53)) as [E|E]; cbn [fst snd]; lia.
Qed.

Lemma roundRatio_binary64 (negative : bool) (p q : Z) :
  0 < p -> 0 < q -> isBinary64 (roundRatio negative p q) = true.
Proof.
  intros Hp Hq. pose proof (significand_bounds p q Hp Hq) as (Hm & Hs & Hn).
  unfold roundRatio. destruct (significand p q) as [m shift].
  cbn [fst snd] in *. destruct m as [|mantissa|mantissa]; try reflexivity.
  destruct (Z.ltb_spec 2045 shift) as [Hinf|Hfin]; [reflexivity|].
  unfold isBinary64.
  replace (Zpos mantissa <? 2 ^ 53) with true
    by (symmetry; apply Z.ltb_lt; lia).
  replace (-1074 <=? shift - 1074) with true
    by (symmetry; apply Z.leb_le; lia).
  replace (shift - 1074 <=? 971) with true
    by (symmetry; apply Z.leb_le; lia).
  cbn [andb]. apply orb_true_iff. rewrite Z.eqb_eq, Z.leb_le. lia.
Qed.

Lemma roundRatio_sign (negative : bool) (p q : Z) :
  roundRatio negative p q
  = match roundRatio false p q with
    | S754_zero _ => S754_zero negative
    | S754_infinity _ => S754_infinity negative
    | S754_finite _ m exponent => S754_finite negative m exponent
    | S754_nan => S754_nan
    end.
Proof.
  unfold roundRatio. destruct (significand p q) as [[|m|m] shift];
    try reflexivity.
  destruct (2045 <? shift); reflexivity.
Qed.

Lemma toNumber_binary64 (negative : bool) (digits exponent : Z) :
  isBinary64 (toNumber negative digits exponent) = true.
Proof.
  unfold toNumber. destruct (Z.leb_spec digits 0); [reflexivity|].
  destruct (Z.ltb_spec exponent 0).
  - apply roundRatio_binary64; [lia|]. apply Z.pow_pos_nonneg; lia.
  - apply roundRatio_binary64; [|lia].
    apply Z.mul_pos_pos; [lia|]. apply Z.pow_pos_nonneg; lia.
Qed.

Lemma toNumber_sign (negative : bool) (digits exponent : Z)
  (m : positive) (e2 : Z) :
  sameFinite m e2 (toNumber false digits exponent) = true ->
  toNumber negative digits exponent = S754_finite negative m e2
  /\ 0 < digits.
Proof.
  unfold toNumber. destruct (Z.leb_spec digits 0); [discriminate|].
  intros Hs. split; [|assumption].
  destruct (exponent <? 0); rewrite roundRatio_sign;
    match goal with
    | Hx : sameFinite _ _ ?x = true |- _ =>
        destruct x as [| | |[|] m' e']; try discriminate Hx;
        unfold sameFinite in Hx; apply andb_prop in Hx as [Hm He];
        apply Pos.eqb_eq in Hm; apply Z.eqb_eq in He; subst; reflexivity
    end.
Qed.

(** The full expansion of a binary64 value reads back as the value. *)
Lemma toNumber_exactDecimal (m : positive) (exponent : Z) :
  isBinary64 (S754_finite false m exponent) = true ->
  sameFinite m exponent
    (toNumber false (fst (exactDecimal m exponent))
       (snd (exactDecimal m exponent))) = true.
Proof.
  intros Hx. pose proof (isBinary64_finite _ _ _ Hx) as (Hm & He & Hn).
  assert (Hsame : sameFinite m exponent (S754_finite false m exponent) = true).
  { unfold sameFinite. rewrite Pos.eqb_refl, Z.eqb_refl. reflexivity. }
  unfold exactDecimal, toNumber.
  destruct (Z.ltb_spec exponent 0) as [Hneg|Hpos]; cbn [fst snd].
  - assert (H5 : 0 < 5 ^ (- exponent)) by (apply Z.pow_pos_nonneg; lia).
    replace (Zpos m * 5 ^ (- exponent) <=? 0) with false
      by (symmetry; apply Z.leb_gt; lia).
    replace (exponent <? 0) with true by (symmetry; apply Z.ltb_lt; lia).
    rewrite (roundRatio_exact false _ _ m exponent); auto.
    + apply Z.pow_pos_nonneg; lia.
    + replace 10 with (2 * 5) by reflexivity.
      rewrite Z.pow_mul_l.
      replace (2 ^ 1074) with (2 ^ (exponent + 1074) * 2 ^ (- exponent)).
      * ring.
      * rewrite <- Z.pow_add_r by lia. f_equal. lia.
  - assert (H2 : 0 < 2 ^ exponent) by (apply Z.pow_pos_nonneg; lia).
    replace (Zpos m * 2 ^ exponent <=? 0) with false
      by (symmetry; apply Z.leb_gt; lia).
    cbn [Z.ltb Z.compare].
    rewrite (roundRatio_exact false _ _ m exponent); auto; [lia|].
    rewrite (Z.pow_add_r 2 exponent 1074) by lia.
    change (10 ^ 0) with 1. ring.
Qed.
End EcmaFacts.

Module EcmaDigits.
Import Ecma.
Local Open Scope Z_scope.

(** ** Decimal digits *)

Lemma digitChar_digit (d : Z) :
  0 <= d <= 9 ->
  isDigit (digitChar d) = true /\ digitValue (digitChar d) = d.
Proof.
  intros Hd. unfold isDigit, digitChar, digitValue. split.
  - apply andb_true_intro. rewrite !N.leb_le. lia.
  - lia.
Qed.

Lemma decimalValue_from (ds : string) (a : Z) :
  fold_left (fun a c => a * 10 + digitValue c) ds a
  = a * 10 ^ Z.of_nat (length ds) + decimalValue ds.
Proof.
  unfold decimalValue. revert a.
  induction ds as [|c ds IH]; intros a.
  - simpl. lia.
  - cbn [fold_left length]. rewrite IH, (IH (0 * 10 + digitValue c)).
    rewrite Nat2Z.inj_succ, Z.pow_succ_r by lia. ring.
Qed.

Lemma decimalValue_app (a b : string) :
  decimalValue (a ++ b)
  = decimalValue a * 10 ^ Z.of_nat (length b) + decimalValue b.
Proof.
  unfold decimalValue at 1. rewrite fold_left_app. apply decimalValue_from.
Qed.

Lemma decimalValue_zeros (j : nat) : decimalValue (repeat ZERO j) = 0.
Proof.
  induction j as [|j IH]; [reflexivity|].
  change (repeat ZERO (S j)) with ([ZERO] ++ repeat ZERO j).
  rewrite decimalValue_app, IH. reflexivity.
Qed.

Lemma digits_zeros (j : nat) : forallb isDigit (repeat ZERO j) = true.
Proof. induction j as [|j IH]; [reflexivity|]. simpl. exact IH. Qed.

Lemma takeDigits_app (ds rest : string) :
  forallb isDigit ds = true ->
  match rest with
  | [] => True
  | c :: _ => isDigit c = false
  end ->
  takeDigits (ds ++ rest) = (ds, rest).
Proof.
  intros Hds Hrest. induction ds as [|c ds IH].
  - destruct rest as [|c rest]; [reflexivity|].
    cbn [app takeDigits]. rewrite Hrest. reflexivity.
  - cbn [forallb] in Hds. apply andb_prop in Hds as [Hc Hds].
    cbn [app takeDigits]. rewrite Hc, (IH Hds). reflexivity.
Qed.

Lemma hd_app_nonempty (d : char) (l r : string) :
  l <> [] -> hd d (l ++ r) = hd d l.
Proof. destruct l; [congruence | reflexivity]. Qed.

(** The digits of a number below [2 ^ bits], least significant first. *)
Lemma decimalRev_spec (bits : nat) :
  forall n : Z,
    0 <= n < 2 ^ Z.of_nat (S bits) ->
    let l := decimalRev (S bits) n in
    forallb isDigit l = true /\ decimalValue (rev l) = n /\ l <> []
    /\ (0 < n -> hd ZERO (rev l) <> ZERO).
Proof.
  induction bits as [|bits IH]; intros n Hn l; subst l.
  - change (2 ^ Z.of_nat 1) with 2 in Hn. cbn [decimalRev].
    replace (n <? 10) with true by (symmetry; apply Z.ltb_lt; lia).
    destruct (digitChar_digit n) as [Hd Hv]; [lia|].
    cbn [forallb rev app hd]. rewrite Hd. unfold decimalValue.
    cbn [fold_left]. rewrite Hv.
    repeat split; try lia; try discriminate.
    intros Hpos E. unfold digitChar, ZERO in E. lia.
  - change (decimalRev (S (S bits)) n)
      with (if n <? 10 then [digitChar n]
            else digitChar (n mod 10) :: decimalRev (S bits) (n / 10)).
    destruct (Z.ltb_spec n 10) as [Hlt|Hge].
    + destruct (digitChar_digit n) as [Hd Hv]; [lia|].
      cbn [forallb rev app hd]. rewrite Hd. unfold decimalValue.
      cbn [fold_left]. rewrite Hv.
      repeat split; try lia; try discriminate.
      intros Hpos E. unfold digitChar, ZERO in E. lia.
    + assert (Hdiv : 0 <= n / 10 < 2 ^ Z.of_nat (S bits)).
      { split; [apply Z.div_pos; lia|].
        apply Z.div_lt_upper_bound; [lia|].
        rewrite (Nat2Z.inj_succ (S bits)), Z.pow_succ_r in Hn by lia.
        assert (0 < 2 ^ Z.of_nat (S bits)) by (apply Z.pow_pos_nonneg; lia).
        lia. }
      destruct (IH (n / 10) Hdiv) as (Hd & Hv & Hne & Hhd).
      destruct (digitChar_digit (n mod 10)) as [Hd0 Hv0].
      { pose proof (Z.mod_pos_bound n 10). lia. }
      set (l := decimalRev (S bits) (n / 10)) in *.
      cbn [forallb rev]. rewrite Hd0, Hd.
      repeat split; try discriminate.
      * rewrite decimalValue_app, Hv. unfold decimalValue at 1.
        cbn [fold_left length]. rewrite Hv0.
        change (10 ^ Z.of_nat 1) with 10.
        pose proof (Z.div_mod n 10). lia.
      * intros _. rewrite hd_app_nonempty.
        -- apply Hhd. apply Z.div_str_pos. lia.
        -- intros E. apply Hne. apply (f_equal (@rev char)) in E.
           rewrite rev_involutive in E. exact E.
Qed.

Lemma decimal_spec (n : Z) :
  0 <= n ->
  forallb isDigit (decimal n) = true /\ decimalValue (decimal n) = n
  /\ decimal n <> [] /\ (0 < n -> hd ZERO (decimal n) <> ZERO).
Proof.
  intros Hn. unfold decimal.
  assert (Hb : 0 <= n < 2 ^ Z.of_nat (S (Z.to_nat (Z.log2 n)))).
  { split; [exact Hn|].
    rewrite Nat2Z.inj_succ, Z2Nat.id by apply Z.log2_nonneg.
    destruct (Z.eq_dec n 0) as [->|Hnz]; [reflexivity|].
    apply Z.log2_spec. lia. }
  destruct (decimalRev_spec _ n Hb) as (Hd & Hv & Hne & Hhd).
  repeat split; auto.
  - rewrite forallb_forall in *. intros c Hc. apply Hd.
    apply in_rev. exact Hc.
  - intros E. apply Hne. apply (f_equal (@rev char)) in E.
    rewrite rev_involutive in E. exact E.
Qed.
End EcmaDigits.

Module EcmaNumbers.
Import Ecma EcmaFacts EcmaDigits.
Local Open Scope Z_scope.

(** ** Reading back a number *)

Lemma endsNumber_head (c : char) (rest : string) :
  endsNumber (c :: rest) = true ->
  isDigit c = false /\ (c =? Ch.DOT)%N = false /\ (c =? e)%N = false
  /\ (c =? LetterE)%N = false.
Proof.
  unfold endsNumber. intros H. apply negb_true_iff in H.
  apply orb_false_elim in H as [H H4]. apply orb_false_elim in H as [H H3].
  apply orb_false_elim in H as [H1 H2]. auto.
Qed.

Lemma endsNumber_noDigit (rest : string) :
  endsNumber rest = true -> noDigitAhead rest.
Proof.
  destruct rest as [|c rest]; [exact (fun _ => I)|].
  intros H. apply (endsNumber_head _ _ H).
Qed.

Lemma fractionPart_none (rest : string) :
  endsNumber rest = true -> fractionPart rest = Some ([], rest).
Proof.
  destruct rest as [|c rest]; [reflexivity|]. intros H.
  destruct (endsNumber_head _ _ H) as (_ & Hdot & _).
  unfold fractionPart. rewrite Hdot. reflexivity.
Qed.

Lemma exponentPart_none (rest : string) :
  endsNumber rest = true -> exponentPart rest = Some (0, rest).
Proof.
  destruct rest as [|c rest]; [reflexivity|]. intros H.
  destruct (endsNumber_head _ _ H) as (_ & _ & He & HE).
  unfold exponentPart. rewrite He, HE. reflexivity.
Qed.

Lemma integerPart_digits (ds rest : string) :
  forallb isDigit ds = true -> ds <> [] -> hd ZERO ds <> ZERO ->
  noDigitAhead rest ->
  integerPart (ds ++ rest) = Some (ds, rest).
Proof.
  intros Hds Hne Hhd Hrest. destruct ds as [|c ds]; [congruence|].
  cbn [hd] in Hhd. pose proof Hds as Hall.
  cbn [forallb] in Hds. apply andb_prop in Hds as [Hc _].
  change ((c :: ds) ++ rest) with (c :: (ds ++ rest)).
  unfold integerPart.
  replace (c =? ZERO)%N with false by (symmetry; apply N.eqb_neq; exact Hhd).
  rewrite Hc. change (c :: (ds ++ rest)) with ((c :: ds) ++ rest).
  rewrite takeDigits_app by assumption. reflexivity.
Qed.

Lemma fractionPart_digits (ds rest : string) :
  forallb isDigit ds = true -> ds <> [] -> noDigitAhead rest ->
  fractionPart (Ch.DOT :: ds ++ rest) = Some (ds, rest).
Proof.
  intros Hds Hne Hrest. unfold fractionPart. rewrite N.eqb_refl.
  rewrite takeDigits_app by assumption.
  destruct ds; [congruence | reflexivity].
Qed.

Lemma exponentPart_digits (x : Z) (rest : string) :
  endsNumber rest = true ->
  exponentPart
    (([e; if x <? 0 then MINUS else PLUS] ++ decimal (Z.abs x)) ++ rest)
  = Some (x, rest).
Proof.
  intros Hrest.
  destruct (decimal_spec (Z.abs x)) as (Hd & Hv & Hne & _); [lia|].
  cbn [app]. unfold exponentPart. rewrite N.eqb_refl. cbn [orb].
  unfold signedDigits.
  assert (Hsign : forall c : char,
             (c = MINUS \/ c = PLUS) ->
             ((c =? MINUS)%N || (c =? PLUS)%N) = true).
  { intros c [-> | ->]; reflexivity. }
  destruct (Z.ltb_spec x 0) as [Hneg|Hpos].
  - rewrite (Hsign MINUS) by auto.
    rewrite (takeDigits_app _ _ Hd (endsNumber_noDigit _ Hrest)).
    rewrite N.eqb_refl, Hv.
    destruct (decimal (Z.abs x)); [congruence|]. f_equal. f_equal. lia.
  - rewrite (Hsign PLUS) by auto.
    rewrite (takeDigits_app _ _ Hd (endsNumber_noDigit _ Hrest)).
    change (PLUS =? MINUS)%N with false. rewrite Hv.
    destruct (decimal (Z.abs x)); [congruence|]. f_equal. f_equal. lia.
Qed.

Lemma toNumber_shift (negative : bool) (s p : Z) :
  0 < s -> 0 <= p ->
  toNumber negative (s * 10 ^ p) 0 = toNumber negative s p.
Proof.
  intros Hs Hp. unfold toNumber.
  assert (H10 : 0 < 10 ^ p) by (apply Z.pow_pos_nonneg; lia).
  replace (s * 10 ^ p <=? 0) with false by (symmetry; apply Z.leb_gt; lia).
  replace (s <=? 0) with false by (symmetry; apply Z.leb_gt; lia).
  replace (p <? 0) with false by (symmetry; apply Z.ltb_ge; lia).
  change (0 <? 0) with false. cbv iota. rewrite Z.pow_0_r, Z.mul_1_r.
  reflexivity.
Qed.

Lemma forallb_firstn_skipn (f : char -> bool) (j : nat) (ds : string) :
  forallb f ds = true ->
  forallb f (firstn j ds) = true /\ forallb f (skipn j ds) = true.
Proof.
  intros H. rewrite <- (firstn_skipn j ds), forallb_app in H.
  apply andb_prop in H. exact H.
Qed.

Lemma formatDecimal_cases (ds : string) (n : Z) :
  let k := Z.of_nat (length ds) in
  (k <= n <= 21
   /\ formatDecimal ds n = ds ++ repeat ZERO (Z.to_nat (n - k)))
  \/ (0 < n <= 21 /\ n < k
      /\ formatDecimal ds n
         = firstn (Z.to_nat n) ds ++ [Ch.DOT] ++ skipn (Z.to_nat n) ds)
  \/ (-6 < n <= 0 /\ n < k
      /\ formatDecimal ds n
         = [ZERO; Ch.DOT] ++ repeat ZERO (Z.to_nat (- n)) ++ ds)
  \/ ((n <= -6 \/ 21 < n)
      /\ formatDecimal ds n
         = match ds with
           | [] => []
           | [d] =>
               d :: [e; if n - 1 <? 0 then MINUS else PLUS]
                 ++ decimal (Z.abs (n - 1))
           | d :: rest =>
               d :: Ch.DOT :: rest
                 ++ [e; if n - 1 <? 0 then MINUS else PLUS]
                 ++ decimal (Z.abs (n - 1))
           end).
Proof.
  intros k. unfold formatDecimal. fold k.
  assert (Hk : 0 <= k) by (unfold k; lia).
  destruct (Z.leb_spec k n), (Z.leb_spec n 21), (Z.ltb_spec 0 n),
    (Z.ltb_spec (-6) n), (Z.leb_spec n 0); cbn [andb];
    try (exfalso; lia);
    solve [ left; repeat split; (lia || reflexivity)
          | right; left; repeat split; (lia || reflexivity)
          | right; right; left; repeat split; (lia || reflexivity)
          | right; right; right; split; [lia | reflexivity] ].
Qed.

(** The layout of Number::toString reads back as the Number value of the
    digits and the power of ten it was made from. *)
Lemma parseUnsigned_formatDecimal (negative : bool) (s p : Z)
  (rest : string) :
  0 < s -> endsNumber rest = true ->
  parseUnsigned negative
    (formatDecimal (decimal s) (p + Z.of_nat (length (decimal s))) ++ rest)
  = Some (toNumber negative s p, rest).
Proof.
  intros Hs Hrest.
  destruct (decimal_spec s) as (Hd & Hv & Hne & Hhd); [lia|].
  specialize (Hhd Hs). pose proof (endsNumber_noDigit _ Hrest) as Hno.
  set (ds := decimal s) in *.
  set (n := p + Z.of_nat (length ds)).
  destruct (formatDecimal_cases ds n)
    as [(Hn & ->) | [(Hn & Hnk & ->) | [(Hn & Hnk & ->) | (Hn & ->)]]].
  - (* digits and zeros *)
    set (j := Z.to_nat (n - Z.of_nat (length ds))).
    unfold parseUnsigned.
    rewrite (integerPart_digits (ds ++ repeat ZERO j) rest); auto.
    + rewrite fractionPart_none, exponentPart_none by assumption.
      rewrite List.app_nil_r, decimalValue_app, decimalValue_zeros, Hv.
      rewrite repeat_length. cbn [length].
      rewrite Z.add_0_r, Z.sub_0_r.
      replace (Z.of_nat j) with p by (unfold j, n; lia).
      rewrite toNumber_shift by (unfold n in *; lia). reflexivity.
    + rewrite forallb_app, Hd, digits_zeros. reflexivity.
    + destruct ds; [congruence | discriminate].
    + rewrite hd_app_nonempty by assumption. exact Hhd.
  - (* a dot inside the digits *)
    set (j := Z.to_nat n).
    destruct (forallb_firstn_skipn isDigit j ds Hd) as [Hf Hsk].
    assert (Hlen : (length (skipn j ds) = length ds - j)%nat)
      by apply length_skipn.
    assert (Hj : (0 < j < length ds)%nat) by (unfold j in *; lia).
    unfold parseUnsigned. rewrite <- !app_assoc.
    rewrite (integerPart_digits (firstn j ds)); auto.
    + cbn [app].
      rewrite (fractionPart_digits (skipn j ds)); auto.
      * rewrite exponentPart_none by assumption.
        rewrite firstn_skipn, Hv, Hlen. f_equal. f_equal. f_equal.
        unfold j, n in *. lia.
      * intros E. rewrite E in Hlen. cbn [length] in Hlen. lia.
    + destruct ds, j; cbn [firstn]; try discriminate; cbn [length] in *; lia.
    + destruct ds as [|d ds']; [congruence|].
      destruct j; [lia|]. exact Hhd.
    + exact (eq_refl : isDigit Ch.DOT = false).
  - (* zeros after the dot *)
    set (j := Z.to_nat (- n)).
    change (([ZERO; Ch.DOT] ++ repeat ZERO j ++ ds) ++ rest)
      with (ZERO :: Ch.DOT :: (repeat ZERO j ++ ds) ++ rest).
    unfold parseUnsigned.
    change (integerPart (ZERO :: Ch.DOT :: (repeat ZERO j ++ ds) ++ rest))
      with (Some ([ZERO], Ch.DOT :: (repeat ZERO j ++ ds) ++ rest)).
    cbv beta iota.
    rewrite (fractionPart_digits (repeat ZERO j ++ ds)); auto.
    + rewrite exponentPart_none by assumption.
      rewrite decimalValue_app, decimalValue_app, decimalValue_zeros.
      rewrite Hv, length_app, repeat_length. f_equal. f_equal.
      change (decimalValue [ZERO]) with 0. f_equal.
      unfold j, n in *. lia.
    + rewrite forallb_app, Hd, digits_zeros. reflexivity.
    + destruct ds; [congruence|]. destruct (repeat ZERO j); discriminate.
  - (* exponent notation *)
    destruct ds as [|d ds'] eqn:Eds; [congruence|].
    cbn [hd] in Hhd. cbn [forallb] in Hd.
    apply andb_prop in Hd as [Hd0 Hd'].
    assert (Hone : forallb isDigit [d] = true)
      by (cbn [forallb]; rewrite Hd0; reflexivity).
    assert (Hne1 : [d] <> []) by discriminate.
    set (mark := ([e; if n - 1 <? 0 then MINUS else PLUS]
                    ++ decimal (Z.abs (n - 1))) ++ rest).
    assert (Hmark : exponentPart mark = Some (n - 1, rest))
      by (apply exponentPart_digits; assumption).
    assert (Hnone : fractionPart mark = Some ([], mark)) by reflexivity.
    assert (Hahead : noDigitAhead mark) by reflexivity.
    destruct ds' as [|d' ds''].
    + change ((d :: [e; if n - 1 <? 0 then MINUS else PLUS]
                 ++ decimal (Z.abs (n - 1))) ++ rest)
        with ([d] ++ mark).
      unfold parseUnsigned.
      rewrite (integerPart_digits [d] mark Hone Hne1 Hhd Hahead).
      rewrite Hnone, Hmark.
      rewrite List.app_nil_r. cbn [length]. f_equal. f_equal.
      rewrite Z.sub_0_r. rewrite Hv. f_equal.
      unfold n. cbn [length]. lia.
    + replace ((d :: Ch.DOT :: (d' :: ds'')
                  ++ [e; if n - 1 <? 0 then MINUS else PLUS]
                  ++ decimal (Z.abs (n - 1))) ++ rest)
        with ([d] ++ Ch.DOT :: (d' :: ds'') ++ mark)
        by (unfold mark; cbn [app]; rewrite <- !app_assoc; reflexivity).
      unfold parseUnsigned.
      rewrite (integerPart_digits [d] (Ch.DOT :: (d' :: ds'') ++ mark)
                 Hone Hne1 Hhd (eq_refl : isDigit Ch.DOT = false)).
      rewrite (fractionPart_digits (d' :: ds'') mark Hd'
                 ltac:(discriminate) Hahead).
      rewrite Hmark. change ([d] ++ d' :: ds'') with (d :: d' :: ds'').
      f_equal. f_equal. rewrite Hv. f_equal.
      unfold n. cbn [length]. lia.
Qed.
End EcmaNumbers.

Module EcmaToString.
Import Ecma EcmaFacts EcmaDigits EcmaNumbers.
Local Open Scope Z_scope.

(** ** Number::toString is read back as the number *)

Lemma shortest_passes (isNumber : Z -> Z -> bool) (full scale length : Z)
  (dropped : nat) :
  isNumber full scale = true ->
  isNumber (fst (shortest isNumber full scale length dropped))
    (snd (shortest isNumber full scale length dropped)) = true.
Proof.
  intros Hfull. induction dropped as [|dropped IH]; [exact Hfull|].
  cbn [shortest].
  destruct (filter _ _) as [|c l] eqn:Hf; [exact IH|].
  assert (Hin : In c (filter (fun c => isNumber (fst c) (snd c))
                        (candidates full scale
                           (length - Z.of_nat (S dropped))
                           (Z.of_nat (S dropped)))))
    by (rewrite Hf; left; reflexivity).
  apply filter_In in Hin. apply Hin.
Qed.

Lemma formatDecimal_head (ds : string) (n : Z) :
  forallb isDigit ds = true -> ds <> [] ->
  exists c r, formatDecimal ds n = c :: r /\ isDigit c = true.
Proof.
  intros Hd Hne. destruct ds as [|d ds']; [congruence|].
  cbn [forallb] in Hd. apply andb_prop in Hd as [Hd0 _].
  destruct (formatDecimal_cases (d :: ds') n)
    as [(Hn & ->) | [(Hn & Hnk & ->) | [(Hn & Hnk & ->) | (Hn & ->)]]].
  - eexists; eexists; split; [reflexivity | exact Hd0].
  - destruct (Z.to_nat n) eqn:Hj; [lia|].
    eexists; eexists; split; [reflexivity | exact Hd0].
  - eexists; eexists; split; reflexivity.
  - destruct ds'; eexists; eexists; (split; [reflexivity | exact Hd0]).
Qed.

Lemma positiveToString_spec (negative : bool) (m : positive) (exponent : Z)
  (rest : string) :
  isBinary64 (S754_finite false m exponent) = true ->
  endsNumber rest = true ->
  parseUnsigned negative (positiveToString m exponent ++ rest)
  = Some (S754_finite negative m exponent, rest)
  /\ exists c r, positiveToString m exponent = c :: r /\ isDigit c = true.
Proof.
  intros Hx Hrest. unfold positiveToString.
  pose proof (toNumber_exactDecimal m exponent Hx) as Hexact.
  destruct (exactDecimal m exponent) as [full scale]. cbn [fst snd] in Hexact.
  set (isNumber := fun s power : Z =>
                     sameFinite m exponent (toNumber false s power)).
  pose proof (shortest_passes isNumber full scale
                (Z.of_nat (length (decimal full)))
                (Z.to_nat (Z.of_nat (length (decimal full)) - 1)) Hexact)
    as Hpass.
  destruct (shortest isNumber full scale _ _) as [s power].
  cbn [fst snd] in Hpass. unfold isNumber in Hpass.
  destruct (toNumber_sign negative s power m exponent Hpass) as [Hnum Hs].
  split.
  - rewrite parseUnsigned_formatDecimal by assumption.
    rewrite Hnum. reflexivity.
  - destruct (decimal_spec s) as (Hd & _ & Hne & _); [lia|].
    apply formatDecimal_head; assumption.
Qed.

(** A finite number is written with a digit or a minus sign in front, and
    read back as itself, a negative zero as zero. *)
Lemma parseNumber_numberToString (x : spec_float) (rest : string) :
  isBinary64 x = true -> isFinite x = true -> endsNumber rest = true ->
  parseNumber (numberToString x ++ rest) = Some (unsignedZero x, rest)
  /\ exists c r, numberToString x = c :: r /\ startsNumber c = true.
Proof.
  intros Hx Hfin Hrest.
  destruct x as [negative|negative| |negative m exponent];
    try discriminate Hfin.
  - split; [|eexists; eexists; split; reflexivity].
    change (numberToString (S754_zero negative) ++ rest) with (ZERO :: rest).
    unfold parseNumber. change (ZERO =? MINUS)%N with false. cbv iota.
    unfold parseUnsigned.
    change (integerPart (ZERO :: rest)) with (Some ([ZERO], rest)).
    cbv beta iota.
    rewrite fractionPart_none, exponentPart_none by assumption.
    reflexivity.
  - assert (Hx' : isBinary64 (S754_finite false m exponent) = true)
      by exact Hx.
    destruct (positiveToString_spec negative m exponent rest Hx' Hrest)
      as (Hparse & c & r & Hc & Hdigit).
    unfold numberToString. destruct negative.
    + split.
      * cbn [app]. unfold parseNumber. rewrite N.eqb_refl. exact Hparse.
      * eexists; eexists; split; reflexivity.
    + split.
      * cbn [app]. rewrite Hc in *. cbn [app] in *. unfold parseNumber.
        replace (c =? MINUS)%N with false; [exact Hparse|].
        symmetry. apply N.eqb_neq. intros ->. discriminate Hdigit.
      * exists c, r. split; [exact Hc|].
        unfold startsNumber. rewrite Hdigit. reflexivity.
Qed.
End EcmaToString.

Module EcmaStrings.
Import Ecma.
Local Open Scope N_scope.

(** ** String literals *)

Lemma hexValue_hexDigit (d : N) : d < 16 -> hexValue (hexDigit d) = Some d.
Proof.
  intros Hd. unfold hexDigit, hexValue.
  destruct (N.ltb_spec d 10) as [Hlt|Hge].
  - replace ((48 <=? 48 + d) && (48 + d <=? 57)) with true
      by (symmetry; apply andb_true_intro; rewrite !N.leb_le; lia).
    f_equal. lia.
  - replace ((48 <=? 87 + d) && (87 + d <=? 57)) with false
      by (symmetry; apply andb_false_iff; right; apply N.leb_gt; lia).
    replace ((97 <=? 87 + d) && (87 + d <=? 102)) with true
      by (symmetry; apply andb_true_intro; rewrite !N.leb_le; lia).
    f_equal. lia.
Qed.

Lemma hex4_unicodeEscape (c : char) :
  c < 65536 ->
  hex4 (hexDigit (c / 4096)) (hexDigit ((c / 256) mod 16))
    (hexDigit ((c / 16) mod 16)) (hexDigit (c mod 16)) = Some c.
Proof.
  intros Hc. unfold hex4.
  rewrite !hexValue_hexDigit;
    try (apply N.mod_lt; discriminate);
    [|apply N.Div0.div_lt_upper_bound; exact Hc].
  f_equal.
  assert (E1 : c / 256 = c / 16 / 16)
    by (rewrite N.Div0.div_div; reflexivity).
  assert (E2 : c / 4096 = c / 256 / 16)
    by (rewrite N.Div0.div_div; reflexivity).
  pose proof (N.div_mod c 16 ltac:(discriminate)) as H0.
  pose proof (N.div_mod (c / 16) 16 ltac:(discriminate)) as H1.
  pose proof (N.div_mod (c / 256) 16 ltac:(discriminate)) as H2.
  rewrite <- E1 in H1. rewrite <- E2 in H2.
  lia.
Qed.

(** What the parser does with the quoted form of one code unit. *)
Lemma parseCharacters_quoteCharacter (c : char) (t : string) :
  parseCharacters (quoteCharacter c ++ t)
  = match parseCharacters t with
    | Some (value, rest) => Some (c :: value, rest)
    | None => None
    end.
Proof.
  unfold quoteCharacter.
  destruct (N.eqb_spec c Ch.BS) as [->|H1]; [reflexivity|].
  destruct (N.eqb_spec c Ch.TAB) as [->|H2]; [reflexivity|].
  destruct (N.eqb_spec c Ch.LF) as [->|H3]; [reflexivity|].
  destruct (N.eqb_spec c Ch.FF) as [->|H4]; [reflexivity|].
  destruct (N.eqb_spec c Ch.CR) as [->|H5]; [reflexivity|].
  destruct (N.eqb_spec c Ch.QUOTE) as [->|H6]; [reflexivity|].
  destruct (N.eqb_spec c Ch.BACKSLASH) as [->|H7]; [reflexivity|].
  destruct (N.ltb_spec c 32) as [Hlow|Hhigh]; cbn [orb].
  - unfold unicodeEscape.
    change (parseCharacters
              ([Ch.BACKSLASH; u; hexDigit (c / 4096);
                hexDigit ((c / 256) mod 16); hexDigit ((c / 16) mod 16);
                hexDigit (c mod 16)] ++ t))
      with (match hex4 (hexDigit (c / 4096)) (hexDigit ((c / 256) mod 16))
                    (hexDigit ((c / 16) mod 16)) (hexDigit (c mod 16)),
                  parseCharacters t with
            | Some x, Some (value, rest) => Some (x :: value, rest)
            | _, _ => None
            end).
    rewrite hex4_unicodeEscape by lia. reflexivity.
  - destruct (isLeadingSurrogate c || isTrailingSurrogate c) eqn:Hs.
    + assert (Hc : c < 65536).
      { unfold isLeadingSurrogate, isTrailingSurrogate in Hs.
        apply orb_prop in Hs as [Hs|Hs]; apply andb_prop in Hs as [_ Hs];
          apply N.leb_le in Hs; lia. }
      unfold unicodeEscape.
      change (parseCharacters
                ([Ch.BACKSLASH; u; hexDigit (c / 4096);
                  hexDigit ((c / 256) mod 16); hexDigit ((c / 16) mod 16);
                  hexDigit (c mod 16)] ++ t))
        with (match hex4 (hexDigit (c / 4096)) (hexDigit ((c / 256) mod 16))
                      (hexDigit ((c / 16) mod 16)) (hexDigit (c mod 16)),
                    parseCharacters t with
              | Some x, Some (value, rest) => Some (x :: value, rest)
              | _, _ => None
              end).
      rewrite hex4_unicodeEscape by exact Hc. reflexivity.
    + cbn [app parseCharacters].
      replace (c =? Ch.QUOTE) with false by (symmetry; apply N.eqb_neq; exact H6).
      replace (c =? Ch.BACKSLASH) with false
        by (symmetry; apply N.eqb_neq; exact H7).
      replace (c <? 32) with false by (symmetry; apply N.ltb_ge; exact Hhigh).
      reflexivity.
Qed.

Lemma parseCharacters_plain (c : char) (t : string) :
  32 <= c -> c <> Ch.QUOTE -> c <> Ch.BACKSLASH ->
  parseCharacters (c :: t)
  = match parseCharacters t with
    | Some (value, rest) => Some (c :: value, rest)
    | None => None
    end.
Proof.
  intros Hc Hq Hb. cbn [parseCharacters].
  replace (c =? Ch.QUOTE) with false by (symmetry; apply N.eqb_neq; exact Hq).
  replace (c =? Ch.BACKSLASH) with false
    by (symmetry; apply N.eqb_neq; exact Hb).
  replace (c <? 32) with false by (symmetry; apply N.ltb_ge; exact Hc).
  reflexivity.
Qed.

Lemma parseCharacters_quoteCharacters_upto (n : nat) :
  forall (s rest : string),
    (length s <= n)%nat ->
    parseCharacters (quoteCharacters s ++ Ch.QUOTE :: rest) = Some (s, rest).
Proof.
  induction n as [|n IH]; intros s rest Hn.
  - destruct s; [reflexivity | cbn [length] in Hn; lia].
  - destruct s as [|c [|d s2]]; [reflexivity| |].
    + cbn [quoteCharacters]. rewrite parseCharacters_quoteCharacter.
      reflexivity.
    + cbn [length] in Hn. cbn [quoteCharacters].
      destruct (isLeadingSurrogate c && isTrailingSurrogate d) eqn:Hpair.
      * apply andb_prop in Hpair as [Hl Ht].
        unfold isLeadingSurrogate in Hl. unfold isTrailingSurrogate in Ht.
        apply andb_prop in Hl as [Hl _]. apply andb_prop in Ht as [Ht _].
        apply N.leb_le in Hl, Ht. cbn [app].
        rewrite parseCharacters_plain;
          [|lia | unfold Ch.QUOTE; lia | unfold Ch.BACKSLASH; lia].
        rewrite parseCharacters_plain;
          [|lia | unfold Ch.QUOTE; lia | unfold Ch.BACKSLASH; lia].
        rewrite IH by lia. reflexivity.
      * rewrite <- app_assoc, parseCharacters_quoteCharacter.
        rewrite (IH (d :: s2)) by (cbn [length]; lia). reflexivity.
Qed.

(** The string literal [QuoteJSONString] writes is read back as the
    string. *)
Lemma parseCharacters_quoteCharacters (s rest : string) :
  parseCharacters (quoteCharacters s ++ Ch.QUOTE :: rest) = Some (s, rest).
Proof. apply (parseCharacters_quoteCharacters_upto (length s)). lia. Qed.
End EcmaStrings.

Module EcmaObjects.
Import Ecma EcmaDigits.
Local Open Scope Z_scope.

(** ** Property order *)

Lemma digitValue_digit (c : char) :
  isDigit c = true -> 0 <= digitValue c <= 9.
Proof.
  unfold isDigit, digitValue. intros H. apply andb_prop in H as [H1 H2].
  apply N.leb_le in H1, H2. lia.
Qed.

Lemma decimalValue_cons (c : char) (ds : string) :
  decimalValue (c :: ds)
  = digitValue c * 10 ^ Z.of_nat (length ds) + decimalValue ds.
Proof.
  change (c :: ds) with ([c] ++ ds). rewrite decimalValue_app.
  unfold decimalValue at 1. cbn [fold_left]. lia.
Qed.

Lemma decimalValue_bound (ds : string) :
  forallb isDigit ds = true ->
  0 <= decimalValue ds < 10 ^ Z.of_nat (length ds).
Proof.
  induction ds as [|c ds IH]; intros H.
  - split; [reflexivity|reflexivity].
  - cbn [forallb] in H. apply andb_prop in H as [Hc Hds].
    specialize (IH Hds). apply digitValue_digit in Hc.
    rewrite decimalValue_cons. cbn [length].
    rewrite Nat2Z.inj_succ, Z.pow_succ_r by lia.
    assert (0 < 10 ^ Z.of_nat (length ds)) by (apply Z.pow_pos_nonneg; lia).
    nia.
Qed.

Lemma digits_same_length (ds1 : string) :
  forall ds2 : string,
    length ds1 = length ds2 ->
    forallb isDigit ds1 = true -> forallb isDigit ds2 = true ->
    decimalValue ds1 = decimalValue ds2 -> ds1 = ds2.
Proof.
  induction ds1 as [|c1 ds1 IH]; intros [|c2 ds2] Hlen H1 H2 Hv;
    try discriminate Hlen; [reflexivity|].
  cbn [length] in Hlen. injection Hlen as Hlen.
  cbn [forallb] in H1, H2.
  apply andb_prop in H1 as [Hc1 H1]. apply andb_prop in H2 as [Hc2 H2].
  rewrite !decimalValue_cons, Hlen in Hv.
  pose proof (decimalValue_bound ds1 H1) as B1.
  pose proof (decimalValue_bound ds2 H2) as B2.
  rewrite Hlen in B1.
  pose proof (digitValue_digit c1 Hc1) as D1.
  pose proof (digitValue_digit c2 Hc2) as D2.
  assert (Hd : digitValue c1 = digitValue c2) by nia.
  assert (c1 = c2) by (unfold digitValue in Hd; lia). subst c2.
  f_equal. apply IH; auto. lia.
Qed.

(** The shape of an array index: decimal digits, no leading zero. *)
Lemma arrayIndex_Some (key : string) (i : Z) :
  arrayIndex key = Some i ->
  forallb isDigit key = true /\ i = decimalValue key
  /\ exists c rest, key = c :: rest /\ (c <> ZERO \/ rest = []).
Proof.
  unfold arrayIndex. destruct key as [|c rest]; [discriminate|].
  destruct (forallb isDigit (c :: rest)) eqn:Hd; [|discriminate].
  destruct (negb (c =? ZERO)%N || (length rest =? 0)%nat) eqn:Hz;
    [|discriminate].
  cbn [andb]. destruct (_ && _); [|discriminate].
  intros H. injection H as <-. repeat split.
  exists c, rest. split; [reflexivity|].
  apply orb_prop in Hz as [Hz|Hz].
  - left. apply negb_true_iff, N.eqb_neq in Hz. exact Hz.
  - right. apply Nat.eqb_eq in Hz. destruct rest; [reflexivity|discriminate].
Qed.

Lemma canonical_low (c : char) (rest : string) :
  forallb isDigit (c :: rest) = true -> c <> ZERO ->
  10 ^ Z.of_nat (length rest) <= decimalValue (c :: rest).
Proof.
  intros H Hc. cbn [forallb] in H. apply andb_prop in H as [Hd Hrest].
  rewrite decimalValue_cons.
  pose proof (decimalValue_bound rest Hrest).
  pose proof (digitValue_digit c Hd).
  assert (1 <= digitValue c).
  { unfold digitValue, ZERO in *. lia. }
  assert (0 < 10 ^ Z.of_nat (length rest)) by (apply Z.pow_pos_nonneg; lia).
  nia.
Qed.

Lemma canonical_shorter (k1 k2 : string) (i : Z) :
  arrayIndex k1 = Some i -> arrayIndex k2 = Some i ->
  (length k1 < length k2)%nat -> False.
Proof.
  intros H1 H2 Hlen.
  destruct (arrayIndex_Some _ _ H1) as (Hd1 & -> & _).
  destruct (arrayIndex_Some _ _ H2) as (Hd2 & Hv & c & rest & -> & Hz).
  pose proof (decimalValue_bound k1 Hd1) as B1.
  destruct Hz as [Hz| ->].
  - pose proof (canonical_low c rest Hd2 Hz) as B2.
    cbn [length] in Hlen.
    assert (10 ^ Z.of_nat (length k1) <= 10 ^ Z.of_nat (length rest))
      by (apply Z.pow_le_mono_r; lia).
    lia.
  - cbn [length] in Hlen. destruct k1; [discriminate H1|].
    cbn [length] in Hlen. lia.
Qed.

Lemma arrayIndex_inj (k1 k2 : string) (i : Z) :
  arrayIndex k1 = Some i -> arrayIndex k2 = Some i -> k1 = k2.
Proof.
  intros H1 H2.
  destruct (Nat.lt_trichotomy (length k1) (length k2)) as [Hlt|[Heq|Hgt]].
  - destruct (canonical_shorter k1 k2 i H1 H2 Hlt).
  - destruct (arrayIndex_Some _ _ H1) as (Hd1 & Hv1 & _).
    destruct (arrayIndex_Some _ _ H2) as (Hd2 & Hv2 & _).
    apply digits_same_length; auto. congruence.
  - destruct (canonical_shorter k2 k1 i H2 H1 Hgt).
Qed.

Lemma keyBefore_irrefl (k : string) : keyBefore k k = false.
Proof.
  unfold keyBefore. destruct (arrayIndex k).
  - apply Z.ltb_irrefl.
  - rewrite string_eqb_refl. reflexivity.
Qed.

Lemma keyBefore_trans (k1 k2 k3 : string) :
  keyBefore k1 k2 = true -> keyBefore k2 k3 = true ->
  arrayIndex k2 <> None \/ arrayIndex k1 <> None \/ arrayIndex k3 = None ->
  k1 <> k3 -> keyBefore k1 k3 = true.
Proof.
  unfold keyBefore.
  destruct (arrayIndex k1), (arrayIndex k2), (arrayIndex k3);
    try discriminate; try reflexivity; intros H1 H2 Hs Hne.
  - apply Z.ltb_lt in H1, H2. apply Z.ltb_lt. lia.
  - apply negb_true_iff, string_eqb_neq. exact Hne.
Qed.

Lemma keysInOrder_app (a b : list string) :
  keysInOrder (a ++ b) = true
  <-> keysInOrder a = true /\ keysInOrder b = true
      /\ forall k1 k2, In k1 a -> In k2 b -> keyBefore k1 k2 = true.
Proof.
  induction a as [|k a IH]; cbn [app keysInOrder].
  - split; [intros H; repeat split; auto; intros ? ? []|tauto].
  - rewrite andb_true_iff, forallb_app, andb_true_iff, IH.
    rewrite !forallb_forall. split.
    + intros ((Ha & Hb) & Hoa & Hob & Hab). repeat split; auto.
      * apply andb_true_intro. split; [|exact Hoa].
        apply forallb_forall. exact Ha.
      * intros k1 k2 [<-|H1] H2; auto.
    + intros (Hka & Hob & Hab). apply andb_prop in Hka as [Hk Hoa].
      rewrite forallb_forall in Hk. repeat split; auto.
      * intros x Hx. apply Hab; [left; reflexivity | exact Hx].
      * intros k1 k2 H1 H2. apply Hab; [right; exact H1 | exact H2].
Qed.

Lemma hasKey_false (key : string) (members : list (string * JsonValue)) :
  (forall k, In k (map fst members) -> keyBefore k key = true) ->
  hasKey key members = false.
Proof.
  intros H. unfold hasKey. apply not_true_is_false. intros E.
  apply existsb_exists in E as ([k x] & Hin & Hk). cbn [fst] in Hk.
  apply string_eqb_eq in Hk. subst k.
  pose proof (keyBefore_irrefl key) as Hi.
  rewrite H in Hi; [discriminate|].
  apply (in_map fst) in Hin. exact Hin.
Qed.

Lemma insertIndex_last (index : Z) (key : string) (value : JsonValue)
  (members : list (string * JsonValue)) :
  arrayIndex key = Some index ->
  (forall k, In k (map fst members) -> keyBefore k key = true) ->
  insertIndex index key value members = members ++ [(key, value)].
Proof.
  intros Hkey. induction members as [|[k x] rest IH]; intros H;
    [reflexivity|].
  cbn [insertIndex app].
  pose proof (H k (or_introl eq_refl)) as Hk. unfold keyBefore in Hk.
  rewrite Hkey in Hk. destruct (arrayIndex k) as [j|]; [|discriminate].
  rewrite Hk, IH; [reflexivity|].
  intros k' Hk'. apply H. right. exact Hk'.
Qed.

(** A key that comes after the keys already there is added at the end. *)
Lemma CreateDataProperty_last (members : list (string * JsonValue))
  (key : string) (value : JsonValue) :
  keysInOrder (map fst members ++ [key]) = true ->
  CreateDataProperty members key value = members ++ [(key, value)].
Proof.
  intros H. apply keysInOrder_app in H as (_ & _ & H).
  assert (Hall : forall k, In k (map fst members) -> keyBefore k key = true)
    by (intros k Hk; apply H; [exact Hk | left; reflexivity]).
  unfold CreateDataProperty. rewrite (hasKey_false _ _ Hall).
  destruct (arrayIndex key) as [index|] eqn:Hkey; [|reflexivity].
  apply insertIndex_last; assumption.
Qed.

Lemma assign_keys (key : string) (value : JsonValue)
  (members : list (string * JsonValue)) :
  map fst (assign key value members) = map fst members.
Proof.
  induction members as [|[k x] rest IH]; [reflexivity|].
  cbn [assign]. destruct (string_eqb k key); cbn [map fst]; congruence.
Qed.

Lemma hasKey_In (key : string) (members : list (string * JsonValue)) :
  hasKey key members = false -> ~ In key (map fst members).
Proof.
  unfold hasKey. intros H Hin. apply in_map_iff in Hin as ([k x] & <- & Hin).
  assert (E : existsb (fun m => string_eqb (fst m) k) members = true).
  { apply existsb_exists. exists (k, x). split; [exact Hin|].
    apply string_eqb_refl. }
  cbn [fst] in H. congruence.
Qed.

Lemma insertIndex_keys (index : Z) (key : string) (value : JsonValue)
  (members : list (string * JsonValue)) (k : string) :
  In k (map fst (insertIndex index key value members))
  <-> k = key \/ In k (map fst members).
Proof.
  induction members as [|[k0 x] rest IH]; cbn [insertIndex map fst In].
  - intuition congruence.
  - destruct (arrayIndex k0) as [j|]; [destruct (j <? index)|];
      cbn [map fst In]; rewrite ?IH; intuition congruence.
Qed.

Lemma insertIndex_inOrder (index : Z) (key : string) (value : JsonValue)
  (members : list (string * JsonValue)) :
  arrayIndex key = Some index -> ~ In key (map fst members) ->
  keysInOrder (map fst members) = true ->
  keysInOrder (map fst (insertIndex index key value members)) = true.
Proof.
  intros Hkey. induction members as [|[k x] rest IH]; intros Hnew Hord;
    [reflexivity|].
  cbn [map fst keysInOrder] in Hord. apply andb_prop in Hord as [Hk Hrest].
  rewrite forallb_forall in Hk.
  assert (Hnek : key <> k) by (intros ->; apply Hnew; left; reflexivity).
  assert (Hnew' : ~ In key (map fst rest))
    by (intros Hin; apply Hnew; right; exact Hin).
  cbn [insertIndex].
  assert (Hfront :
            keyBefore key k = true ->
            keysInOrder (map fst ((key, value) :: (k, x) :: rest)) = true).
  { intros Hkk. cbn [map fst keysInOrder].
    apply andb_true_intro. split.
    - cbn [forallb]. rewrite Hkk. apply forallb_forall. intros k' Hk'.
      assert (key <> k') by (intros ->; auto).
      apply (keyBefore_trans key k k'); auto.
      unfold keyBefore in Hkk. rewrite Hkey in *.
      right. left. discriminate.
    - apply andb_true_intro. split; [|exact Hrest].
      apply forallb_forall. exact Hk. }
  destruct (arrayIndex k) as [j|] eqn:Hj.
  - destruct (Z.ltb_spec j index) as [Hlt|Hge].
    + cbn [map fst keysInOrder]. rewrite IH by assumption.
      rewrite andb_true_r. apply forallb_forall. intros k' Hk'.
      apply insertIndex_keys in Hk' as [->|Hk']; [|auto].
      unfold keyBefore. rewrite Hj, Hkey. apply Z.ltb_lt. exact Hlt.
    + apply Hfront. unfold keyBefore. rewrite Hkey, Hj. apply Z.ltb_lt.
      destruct (Z.eq_dec j index) as [->|Hne]; [|lia].
      destruct Hnek. apply (arrayIndex_inj key k index); assumption.
  - apply Hfront. unfold keyBefore. rewrite Hkey, Hj. reflexivity.
Qed.

(** Defining a property keeps the keys in order. *)
Lemma CreateDataProperty_inOrder (members : list (string * JsonValue))
  (key : string) (value : JsonValue) :
  keysInOrder (map fst members) = true ->
  keysInOrder (map fst (CreateDataProperty members key value)) = true.
Proof.
  intros Hord. unfold CreateDataProperty.
  destruct (hasKey key members) eqn:Hhas.
  - rewrite assign_keys. exact Hord.
  - apply hasKey_In in Hhas.
    destruct (arrayIndex key) as [index|] eqn:Hkey.
    + apply insertIndex_inOrder; assumption.
    + rewrite map_app. cbn [map fst]. apply keysInOrder_app.
      repeat split; auto.
      intros k1 k2 H1 [<-|[]]. unfold keyBefore. rewrite Hkey.
      destruct (arrayIndex k1); [reflexivity|].
      apply negb_true_iff, string_eqb_neq. intros ->. auto.
Qed.

Lemma CreateDataProperty_values (P : JsonValue -> bool)
  (members : list (string * JsonValue)) (key : string) (value : JsonValue) :
  forallb (fun m => P (snd m)) members = true -> P value = true ->
  forallb (fun m => P (snd m)) (CreateDataProperty members key value) = true.
Proof.
  intros Hall Hv. unfold CreateDataProperty.
  destruct (hasKey key members).
  - induction members as [|[k x] rest IH]; [reflexivity|].
    cbn [forallb snd] in Hall. apply andb_prop in Hall as [Hx Hrest].
    cbn [assign]. destruct (string_eqb k key); cbn [forallb snd].
    + rewrite Hv, Hrest. reflexivity.
    + rewrite Hx, IH by assumption. reflexivity.
  - destruct (arrayIndex key) as [index|].
    + induction members as [|[k x] rest IH];
        [cbn [insertIndex forallb snd]; rewrite Hv; reflexivity|].
      pose proof Hall as Hall'.
      cbn [forallb snd] in Hall. apply andb_prop in Hall as [Hx Hrest].
      cbn [insertIndex].
      destruct (arrayIndex k) as [j|]; [destruct (j <? index)|];
        cbn [forallb snd]; rewrite ?Hv, ?Hx, ?Hrest, ?IH by assumption;
        reflexivity.
    + rewrite forallb_app, Hall. cbn [forallb snd]. rewrite Hv. reflexivity.
Qed.
End EcmaObjects.

Module EcmaRoundTrip.
Import Ecma EcmaFacts EcmaDigits EcmaNumbers EcmaToString EcmaStrings.
Import EcmaObjects.
Local Open Scope N_scope.

(** ** Whitespace *)

Lemma skipSpace_app (ws s : string) :
  forallb isJsonSpace ws = true -> skipSpace (ws ++ s) = skipSpace s.
Proof.
  induction ws as [|c ws IH]; [reflexivity|]. cbn [forallb].
  intros H. apply andb_prop in H as [Hc Hws].
  cbn [app skipSpace]. rewrite Hc. auto.
Qed.

Lemma skipSpace_stop (c : char) (s : string) :
  isJsonSpace c = false -> skipSpace (c :: s) = c :: s.
Proof. intros H. cbn [skipSpace]. rewrite H. reflexivity. Qed.

Lemma skipSpace_idem (s : string) : skipSpace (skipSpace s) = skipSpace s.
Proof.
  induction s as [|c s IH]; [reflexivity|]. cbn [skipSpace].
  destruct (isJsonSpace c) eqn:Hc; [exact IH|].
  cbn [skipSpace]. rewrite Hc. reflexivity.
Qed.

Lemma parseValue_skipSpace (fuel : nat) (s : string) :
  parseValue fuel (skipSpace s) = parseValue fuel s.
Proof.
  destruct fuel; [reflexivity|]. cbn [parseValue].
  rewrite skipSpace_idem. reflexivity.
Qed.

Lemma parseValue_skip (fuel : nat) (ws s : string) :
  forallb isJsonSpace ws = true ->
  parseValue fuel (ws ++ s) = parseValue fuel s.
Proof.
  intros H. rewrite <- parseValue_skipSpace, (skipSpace_app _ _ H).
  apply parseValue_skipSpace.
Qed.

Lemma parseMembers_skipSpace (fuel : nat) (s : string)
  (done : list (string * JsonValue)) :
  parseMembers fuel (skipSpace s) done = parseMembers fuel s done.
Proof.
  destruct fuel; [reflexivity|]. cbn [parseMembers].
  rewrite skipSpace_idem. reflexivity.
Qed.

Lemma parseMembers_skip (fuel : nat) (ws s : string)
  (done : list (string * JsonValue)) :
  forallb isJsonSpace ws = true ->
  parseMembers fuel (ws ++ s) done = parseMembers fuel s done.
Proof.
  intros H. rewrite <- parseMembers_skipSpace, (skipSpace_app _ _ H).
  apply parseMembers_skipSpace.
Qed.

Lemma parseElements_skip (fuel : nat) (ws s : string)
  (done : list JsonValue) :
  forallb isJsonSpace ws = true ->
  parseElements fuel (ws ++ s) done = parseElements fuel s done.
Proof.
  intros H. destruct fuel; [reflexivity|]. cbn [parseElements].
  rewrite (parseValue_skip _ _ _ H). reflexivity.
Qed.

Lemma space_endsNumber (c : char) (s : string) :
  isJsonSpace c = true -> endsNumber (c :: s) = true.
Proof.
  unfold isJsonSpace. intros H.
  repeat (apply orb_prop in H as [H|H]); apply N.eqb_eq in H; subst c;
    reflexivity.
Qed.

(** What follows a value inside an array or object: whitespace and the
    closing bracket. *)
Lemma closing_endsNumber (ws : string) (closing : char) (rest : string) :
  forallb isJsonSpace ws = true ->
  endsNumber (closing :: rest) = true ->
  endsNumber (ws ++ closing :: rest) = true.
Proof.
  destruct ws as [|c ws]; [auto|]. cbn [forallb]. intros H _.
  apply andb_prop in H as [Hc _]. apply space_endsNumber. exact Hc.
Qed.

(** ** The first code unit of a value *)

Lemma opensValue_facts (c : char) :
  opensValue c = true ->
  isJsonSpace c = false /\ (c =? Ch.RBRACKET) = false
  /\ (c =? RBRACE) = false.
Proof.
  unfold opensValue, startsNumber, isDigit. intros H.
  repeat (apply orb_prop in H as [H|H]);
    try (apply N.eqb_eq in H; subst c; repeat split; reflexivity).
  apply andb_prop in H as [H1 H2]. apply N.leb_le in H1, H2.
  unfold isJsonSpace. rewrite !orb_false_iff, !N.eqb_neq.
  unfold Ch.TAB, Ch.LF, Ch.CR, Ch.SPACE, Ch.RBRACKET, RBRACE.
  repeat split; lia.
Qed.

Lemma startsNumber_facts (c : char) :
  startsNumber c = true ->
  isJsonSpace c = false /\ (c =? LBRACE) = false
  /\ (c =? Ch.LBRACKET) = false /\ (c =? Ch.QUOTE) = false
  /\ (c =? Ch.t) = false /\ (c =? Ch.f) = false /\ (c =? Ch.n) = false.
Proof.
  unfold startsNumber, isDigit. intros H.
  apply orb_prop in H as [H|H].
  - apply andb_prop in H as [H1 H2]. apply N.leb_le in H1, H2.
    unfold isJsonSpace. rewrite !orb_false_iff, !N.eqb_neq.
    unfold Ch.TAB, Ch.LF, Ch.CR, Ch.SPACE, Ch.LBRACKET, LBRACE, Ch.QUOTE,
      Ch.t, Ch.f, Ch.n.
    repeat split; lia.
  - apply N.eqb_eq in H. subst c. repeat split; reflexivity.
Qed.

Lemma parseValue_number (fuel : nat) (c : char) (s : string) :
  startsNumber c = true ->
  parseValue (S fuel) (c :: s)
  = match parseNumber (c :: s) with
    | Some (x, rest) => Some (JNumber x, rest)
    | None => None
    end.
Proof.
  intros H.
  destruct (startsNumber_facts c H) as (H0 & H1 & H2 & H3 & H4 & H5 & H6).
  cbn [parseValue]. rewrite (skipSpace_stop _ _ H0).
  rewrite H1, H2, H3, H4, H5, H6. reflexivity.
Qed.

Lemma parseValue_string (fuel : nat) (s : string) :
  parseValue (S fuel) (Ch.QUOTE :: s)
  = match parseCharacters s with
    | Some (value, rest) => Some (JString value, rest)
    | None => None
    end.
Proof. reflexivity. Qed.

Lemma parseValue_array (fuel : nat) (s : string) :
  parseValue (S fuel) (Ch.LBRACKET :: s)
  = match skipSpace s with
    | [] => None
    | c :: s' =>
        if c =? Ch.RBRACKET then Some (JArray [], s')
        else parseElements fuel s []
    end.
Proof. reflexivity. Qed.

Lemma parseValue_object (fuel : nat) (s : string) :
  parseValue (S fuel) (LBRACE :: s)
  = match skipSpace s with
    | [] => None
    | c :: s' =>
        if c =? RBRACE then Some (JObject [], s')
        else parseMembers fuel s []
    end.
Proof. reflexivity. Qed.

Lemma parseElements_step (fuel : nat) (s : string) (done : list JsonValue) :
  parseElements (S fuel) s done
  = match parseValue fuel s with
    | None => None
    | Some (value, s1) =>
        match skipSpace s1 with
        | [] => None
        | c :: s2 =>
            if c =? COMMA then parseElements fuel s2 (value :: done)
            else if c =? Ch.RBRACKET
            then Some (JArray (rev (value :: done)), s2)
            else None
        end
    end.
Proof. reflexivity. Qed.

Lemma parseMembers_step (fuel : nat) (s : string)
  (done : list (string * JsonValue)) :
  parseMembers (S fuel) (Ch.QUOTE :: s) done
  = match parseCharacters s with
    | None => None
    | Some (key, s2) =>
        match skipSpace s2 with
        | [] => None
        | c2 :: s3 =>
            if c2 =? COLON then
              match parseValue fuel s3 with
              | None => None
              | Some (value, s4) =>
                  let members := CreateDataProperty done key value in
                  match skipSpace s4 with
                  | [] => None
                  | c4 :: s5 =>
                      if c4 =? COMMA then parseMembers fuel s5 members
                      else if c4 =? RBRACE then Some (JObject members, s5)
                      else None
                  end
              end
            else None
        end
    end.
Proof. reflexivity. Qed.

Lemma withoutNegativeZero_number (x : spec_float) :
  withoutNegativeZero (JNumber x) = JNumber (unsignedZero x).
Proof. destruct x; reflexivity. Qed.

(** Every serialization starts with a code unit that opens a value. *)
Lemma serialize_head (gap indent : string) (value : JsonValue) :
  wellFormed value = true -> finiteNumbers value = true ->
  exists c r, serialize gap indent value = c :: r /\ opensValue c = true.
Proof.
  intros Hwf Hfin.
  destruct value as [|[|]|x|s|items|members]; cbn [serialize];
    try (eexists; eexists; split; reflexivity).
  - cbn [wellFormed finiteNumbers] in *. rewrite Hfin.
    destruct (parseNumber_numberToString x [] Hwf Hfin eq_refl)
      as (_ & c & r & Hc & Hs).
    exists c, r. split; [exact Hc|].
    unfold opensValue. rewrite Hs, !orb_true_r. reflexivity.
  - unfold enclose.
    destruct (map _ items); [|destruct (truthy gap)];
      eexists; eexists; split; reflexivity.
  - unfold enclose.
    destruct (map _ members); [|destruct (truthy gap)];
      eexists; eexists; split; reflexivity.
Qed.
End EcmaRoundTrip.

Module EcmaReadBack.
Import Ecma EcmaFacts EcmaDigits EcmaNumbers EcmaToString EcmaStrings.
Import EcmaObjects EcmaRoundTrip.
Local Open Scope N_scope.

Lemma join_cons (separator part : string) (parts : list string) :
  join separator (part :: parts)
  = part ++ match parts with
            | [] => []
            | _ :: _ => separator ++ join separator parts
            end.
Proof.
  destruct parts; cbn [join]; [rewrite List.app_nil_r|]; reflexivity.
Qed.

Lemma join_map_one {A : Type} (separator : string) (f : A -> string)
  (x : A) :
  join separator (map f [x]) = f x.
Proof. reflexivity. Qed.

Lemma join_map_cons {A : Type} (separator : string) (f : A -> string)
  (x y : A) (ys : list A) :
  join separator (map f (x :: y :: ys))
  = f x ++ separator ++ join separator (map f (y :: ys)).
Proof. reflexivity. Qed.

(** The two layouts of SerializeJSONArray and SerializeJSONObject are one
    up to whitespace. *)
Lemma enclose_layout (gap stepback : string) (opening closing : char)
  (partial : list string) :
  forallb isJsonSpace gap = true -> forallb isJsonSpace stepback = true ->
  partial <> [] ->
  exists ws0 ws1 ws2 : string,
    forallb isJsonSpace ws0 = true /\ forallb isJsonSpace ws1 = true
    /\ forallb isJsonSpace ws2 = true
    /\ enclose gap stepback opening closing partial
       = opening :: ws0 ++ join (COMMA :: ws1) partial ++ ws2 ++ [closing].
Proof.
  intros Hgap Hstep Hne. unfold enclose.
  destruct partial as [|p ps]; [congruence|].
  assert (Hin : forallb isJsonSpace (Ch.LF :: stepback ++ gap) = true).
  { cbn [forallb]. rewrite forallb_app, Hgap, Hstep. reflexivity. }
  destruct (truthy gap).
  - exists (Ch.LF :: stepback ++ gap), (Ch.LF :: stepback ++ gap),
      (Ch.LF :: stepback).
    repeat split; auto.
  - exists [], [], []. repeat split.
Qed.

Section Gap.
Variable gap : string.
Hypothesis Hgap : forallb isJsonSpace gap = true.

Lemma parseElements_join (items : list JsonValue) :
  Forall (ReadsBack gap) items ->
  forallb wellFormed items = true -> forallb finiteNumbers items = true ->
  items <> [] ->
  forall (inner ws0 ws1 ws2 rest : string) (done : list JsonValue)
    (fuel : nat),
    forallb isJsonSpace inner = true -> forallb isJsonSpace ws0 = true ->
    forallb isJsonSpace ws1 = true -> forallb isJsonSpace ws2 = true ->
    (fold_right (fun x n => S (cost x + n)) O items <= fuel)%nat ->
    parseElements fuel
      (ws0 ++ join (COMMA :: ws1) (map (serialize gap inner) items)
         ++ ws2 ++ Ch.RBRACKET :: rest) done
    = Some (JArray (rev done ++ map withoutNegativeZero items), rest).
Proof.
  induction items as [|x items IH]; intros Hall Hwf Hfin Hne; [congruence|].
  intros inner ws0 ws1 ws2 rest done fuel Hinner H0 H1 H2 Hfuel.
  inversion Hall as [|? ? Hx Hitems]; subst.
  cbn [forallb] in Hwf, Hfin.
  apply andb_prop in Hwf as [Hwfx Hwf]. apply andb_prop in Hfin as [Hfx Hfin].
  cbn [fold_right] in Hfuel.
  destruct fuel as [|fuel]; [lia|].
  rewrite parseElements_skip by assumption.
  cbn [map]. rewrite join_cons, <- app_assoc, parseElements_step.
  destruct items as [|y items].
  - cbn [map app].
    rewrite (Hx Hwfx Hfx inner (ws2 ++ Ch.RBRACKET :: rest) fuel);
      auto; [|lia | apply closing_endsNumber; auto].
    rewrite skipSpace_app, skipSpace_stop by auto.
    change (Ch.RBRACKET =? COMMA) with false. rewrite N.eqb_refl.
    cbn [rev map]. reflexivity.
  - set (more := map (serialize gap inner) (y :: items)) in *.
    assert (Hmore : more <> []) by discriminate.
    destruct more as [|m0 more'] eqn:Em; [congruence|].
    rewrite <- Em in *. clear Em m0 more'.
    rewrite <- app_assoc.
    change ((COMMA :: ws1) ++ join (COMMA :: ws1) more
              ++ ws2 ++ Ch.RBRACKET :: rest)
      with (COMMA :: ws1 ++ join (COMMA :: ws1) more
              ++ ws2 ++ Ch.RBRACKET :: rest).
    rewrite (Hx Hwfx Hfx inner _ fuel); auto; [|lia].
    rewrite skipSpace_stop by reflexivity. rewrite N.eqb_refl.
    unfold more.
    rewrite (IH Hitems Hwf Hfin ltac:(discriminate) inner ws1 ws1 ws2 rest
               (withoutNegativeZero x :: done) fuel); auto; [|lia].
    cbn [rev map]. rewrite <- app_assoc. reflexivity.
Qed.

Lemma keysInOrder_next (done todo : list string) (key : string) :
  keysInOrder (done ++ key :: todo) = true ->
  keysInOrder (done ++ [key]) = true.
Proof.
  rewrite !keysInOrder_app. intros (Hd & Hk & H). repeat split; auto.
  intros k1 k2 H1 [<-|[]]. apply H; [exact H1 | left; reflexivity].
Qed.

Lemma parseMembers_join (todo : list (string * JsonValue)) :
  Forall (fun m => ReadsBack gap (snd m)) todo ->
  forallb (fun m => wellFormed (snd m)) todo = true ->
  forallb (fun m => finiteNumbers (snd m)) todo = true ->
  todo <> [] ->
  forall (inner ws0 ws1 ws2 rest : string)
    (done : list (string * JsonValue)) (fuel : nat),
    forallb isJsonSpace inner = true -> forallb isJsonSpace ws0 = true ->
    forallb isJsonSpace ws1 = true -> forallb isJsonSpace ws2 = true ->
    keysInOrder (map fst done ++ map fst todo) = true ->
    (fold_right (fun m n => S (cost (snd m) + n)) O todo <= fuel)%nat ->
    parseMembers fuel
      (ws0 ++ join (COMMA :: ws1)
                (map (fun m =>
                        QuoteJSONString (fst m) ++ [COLON]
                        ++ (if truthy gap then [Ch.SPACE] else [])
                        ++ serialize gap inner (snd m)) todo)
         ++ ws2 ++ RBRACE :: rest) done
    = Some (JObject
              (done ++ map (fun m => (fst m, withoutNegativeZero (snd m)))
                         todo),
            rest).
Proof.
  induction todo as [|[key x] todo IH]; intros Hall Hwf Hfin Hne;
    [congruence|].
  intros inner ws0 ws1 ws2 rest done fuel Hinner H0 H1 H2 Hord Hfuel.
  inversion Hall as [|? ? Hx Htodo]; subst. cbn [snd] in Hx.
  cbn [forallb snd] in Hwf, Hfin.
  apply andb_prop in Hwf as [Hwfx Hwf]. apply andb_prop in Hfin as [Hfx Hfin].
  cbn [fold_right snd] in Hfuel. cbn [map fst] in Hord.
  destruct fuel as [|fuel]; [lia|].
  rewrite parseMembers_skip by assumption.
  set (sp := if truthy gap then [Ch.SPACE] else []).
  assert (Hsp : forallb isJsonSpace sp = true)
    by (unfold sp; destruct (truthy gap); reflexivity).
  assert (Hlast : CreateDataProperty done key (withoutNegativeZero x)
                  = done ++ [(key, withoutNegativeZero x)]).
  { apply CreateDataProperty_last. apply (keysInOrder_next _ _ _ Hord). }
  assert (Hshape : forall after : string,
             QuoteJSONString key ++ [COLON] ++ sp ++ serialize gap inner x
               ++ after
             = Ch.QUOTE
                 :: quoteCharacters key
                 ++ Ch.QUOTE :: COLON :: sp
                 ++ serialize gap inner x ++ after).
  { intros after. unfold QuoteJSONString. cbn [app].
    rewrite <- !app_assoc. reflexivity. }
  destruct todo as [|y todo].
  - rewrite join_map_one. cbv beta. cbn [fst snd].
    rewrite <- !app_assoc, Hshape, parseMembers_step.
    rewrite parseCharacters_quoteCharacters.
    rewrite skipSpace_stop by reflexivity. rewrite N.eqb_refl.
    rewrite parseValue_skip by assumption.
    rewrite (Hx Hwfx Hfx inner (ws2 ++ RBRACE :: rest) fuel);
      auto; [|lia | apply closing_endsNumber; auto].
    cbv zeta. rewrite Hlast.
    rewrite skipSpace_app, skipSpace_stop by auto.
    change (RBRACE =? COMMA) with false. rewrite N.eqb_refl. reflexivity.
  - rewrite join_map_cons. cbv beta. cbn [fst snd].
    rewrite <- !app_assoc, Hshape, parseMembers_step.
    rewrite parseCharacters_quoteCharacters.
    rewrite skipSpace_stop by reflexivity. rewrite N.eqb_refl.
    rewrite parseValue_skip by assumption.
    change ((COMMA :: ws1) ++ ?a) with (COMMA :: ws1 ++ a).
    rewrite (Hx Hwfx Hfx inner _ fuel); auto; [|lia].
    cbv zeta. rewrite Hlast.
    rewrite skipSpace_stop by reflexivity. rewrite N.eqb_refl.
    etransitivity.
    { apply (IH Htodo Hwf Hfin ltac:(discriminate) inner ws1 ws1 ws2 rest
               (done ++ [(key, withoutNegativeZero x)]) fuel); auto;
        [rewrite map_app, <- app_assoc; exact Hord | lia]. }
    cbn [map]. rewrite <- app_assoc. reflexivity.
Qed.

(** Every well-formed value without an infinity is read back from its
    serialization. *)
Lemma serialize_ReadsBack (value : JsonValue) : ReadsBack gap value.
Proof.
  induction value as [|b|x|s|items IH|members IH]
    using JsonValue_nested_ind;
    intros Hwf Hfin indent rest fuel Hindent Hfuel Hrest;
    (destruct fuel as [|fuel]; [cbn [cost] in Hfuel; lia|]).
  - reflexivity.
  - destruct b; reflexivity.
  - cbn [wellFormed finiteNumbers] in Hwf, Hfin.
    destruct (parseNumber_numberToString x rest Hwf Hfin Hrest)
      as (Hparse & c & r & Hc & Hs).
    cbn [serialize]. rewrite Hfin, withoutNegativeZero_number.
    rewrite Hc in *. cbn [app] in *.
    rewrite parseValue_number by assumption. rewrite Hparse. reflexivity.
  - cbn [serialize]. unfold QuoteJSONString. cbn [app].
    rewrite parseValue_string, <- app_assoc.
    cbn [app]. rewrite parseCharacters_quoteCharacters. reflexivity.
  - cbn [serialize wellFormed finiteNumbers cost] in *.
    destruct items as [|x items]; [reflexivity|].
    set (inner := indent ++ gap).
    assert (Hinner : forallb isJsonSpace inner = true)
      by (unfold inner; rewrite forallb_app, Hindent, Hgap; reflexivity).
    destruct (enclose_layout gap indent Ch.LBRACKET Ch.RBRACKET
                (map (serialize gap inner) (x :: items)) Hgap Hindent
                ltac:(discriminate))
      as (ws0 & ws1 & ws2 & H0 & H1 & H2 & ->).
    cbn [app]. rewrite <- !app_assoc. cbn [app].
    rewrite parseValue_array.
    pose proof (parseElements_join (x :: items) IH Hwf Hfin
                  ltac:(discriminate) inner ws0 ws1 ws2 rest [] fuel
                  Hinner H0 H1 H2 ltac:(lia)) as Hparse.
    cbn [forallb] in Hwf, Hfin.
    apply andb_prop in Hwf as [Hwfx _]. apply andb_prop in Hfin as [Hfx _].
    destruct (serialize_head gap inner x Hwfx Hfx) as (c & r & Hc & Hopen).
    destruct (opensValue_facts c Hopen) as (Hsp & Hbr & _).
    set (text := ws0 ++ join (COMMA :: ws1)
                         (map (serialize gap inner) (x :: items))
                   ++ ws2 ++ Ch.RBRACKET :: rest) in *.
    assert (Hskip : exists s', skipSpace text = c :: s').
    { unfold text. rewrite skipSpace_app by assumption.
      cbn [map]. rewrite join_cons, Hc. cbn [app].
      rewrite skipSpace_stop by assumption. eexists. reflexivity. }
    destruct Hskip as [s' ->]. rewrite Hbr. exact Hparse.
  - cbn [serialize wellFormed finiteNumbers cost] in *.
    apply andb_prop in Hwf as [Hord Hwf].
    destruct members as [|[key x] members]; [reflexivity|].
    set (inner := indent ++ gap).
    assert (Hinner : forallb isJsonSpace inner = true)
      by (unfold inner; rewrite forallb_app, Hindent, Hgap; reflexivity).
    destruct (enclose_layout gap indent LBRACE RBRACE
                (map (fun m =>
                        QuoteJSONString (fst m) ++ [COLON]
                        ++ (if truthy gap then [Ch.SPACE] else [])
                        ++ serialize gap inner (snd m))
                   ((key, x) :: members)) Hgap Hindent
                ltac:(discriminate))
      as (ws0 & ws1 & ws2 & H0 & H1 & H2 & ->).
    cbn [app]. rewrite <- !app_assoc. cbn [app].
    rewrite parseValue_object.
    pose proof (parseMembers_join ((key, x) :: members) IH Hwf Hfin
                  ltac:(discriminate) inner ws0 ws1 ws2 rest [] fuel
                  Hinner H0 H1 H2 Hord ltac:(lia)) as Hparse.
    set (text := ws0 ++ join (COMMA :: ws1) _ ++ ws2 ++ RBRACE :: rest) in *.
    assert (Hskip : exists s', skipSpace text = Ch.QUOTE :: s').
    { unfold text. rewrite skipSpace_app by assumption.
      cbn [map]. rewrite join_cons. unfold QuoteJSONString. cbn [app].
      rewrite skipSpace_stop by reflexivity. eexists. reflexivity. }
    destruct Hskip as [s' ->].
    change (Ch.QUOTE =? RBRACE) with false. exact Hparse.
Qed.
End Gap.
End EcmaReadBack.

Module EcmaParse.
Import Ecma EcmaFacts EcmaDigits EcmaNumbers EcmaToString EcmaStrings.
Import EcmaObjects EcmaRoundTrip EcmaReadBack.
Local Open Scope N_scope.

(** ** The fuel of [parse] *)

Lemma join_cost {A : Type} (f : A -> string) (c : A -> nat)
  (separator : string) (items : list A) :
  separator <> [] ->
  Forall (fun x => (c x <= length (f x))%nat) items ->
  (fold_right (fun x n => S (c x + n)) O items
   <= S (length (join separator (map f items))))%nat.
Proof.
  intros Hsep Hall. induction Hall as [|x items Hx Hall IH];
    [cbn; lia|].
  cbn [map fold_right]. rewrite join_cons, length_app.
  destruct items as [|y items].
  - cbn [map fold_right length]. lia.
  - cbn [map] in *. rewrite length_app.
    destruct separator; [congruence|]. cbn [length]. lia.
Qed.

Lemma cost_length (gap : string) (value : JsonValue) :
  forallb isJsonSpace gap = true ->
  wellFormed value = true -> finiteNumbers value = true ->
  forall indent : string,
    forallb isJsonSpace indent = true ->
    (cost value <= length (serialize gap indent value))%nat.
Proof.
  intros Hgap.
  induction value as [|b|x|s|items IH|members IH]
    using JsonValue_nested_ind; intros Hwf Hfin indent Hindent;
    try (destruct (serialize_head gap indent _ Hwf Hfin) as (c & r & -> & _);
         cbn [cost length]; lia).
  - cbn [serialize wellFormed finiteNumbers cost] in *.
    destruct items as [|x items]; [cbn; lia|].
    set (inner := indent ++ gap).
    assert (Hinner : forallb isJsonSpace inner = true)
      by (unfold inner; rewrite forallb_app, Hindent, Hgap; reflexivity).
    destruct (enclose_layout gap indent Ch.LBRACKET Ch.RBRACKET
                (map (serialize gap inner) (x :: items)) Hgap Hindent
                ltac:(discriminate))
      as (ws0 & ws1 & ws2 & _ & _ & _ & ->).
    cbn [length]. rewrite !length_app.
    assert (Hall : Forall (fun x => (cost x <= length (serialize gap inner x))%nat)
                     (x :: items)).
    { rewrite Forall_forall in *. rewrite forallb_forall in Hwf, Hfin.
      intros y Hy. apply IH; auto. }
    pose proof (join_cost (serialize gap inner) cost (COMMA :: ws1)
                  (x :: items) ltac:(discriminate) Hall).
    cbn [length]. lia.
  - cbn [serialize wellFormed finiteNumbers cost] in *.
    apply andb_prop in Hwf as [_ Hwf].
    destruct members as [|m members]; [cbn; lia|].
    set (inner := indent ++ gap).
    assert (Hinner : forallb isJsonSpace inner = true)
      by (unfold inner; rewrite forallb_app, Hindent, Hgap; reflexivity).
    set (part := fun m : string * JsonValue =>
                   QuoteJSONString (fst m) ++ [COLON]
                   ++ (if truthy gap then [Ch.SPACE] else [])
                   ++ serialize gap inner (snd m)).
    destruct (enclose_layout gap indent LBRACE RBRACE
                (map part (m :: members)) Hgap Hindent ltac:(discriminate))
      as (ws0 & ws1 & ws2 & _ & _ & _ & ->).
    cbn [length]. rewrite !length_app.
    assert (Hall : Forall (fun m => (cost (snd m) <= length (part m))%nat)
                     (m :: members)).
    { rewrite Forall_forall in *. rewrite forallb_forall in Hwf, Hfin.
      intros y Hy. specialize (IH y Hy (Hwf y Hy) (Hfin y Hy) inner Hinner).
      unfold part. rewrite !length_app. lia. }
    pose proof (join_cost part (fun m => cost (snd m)) (COMMA :: ws1)
                  (m :: members) ltac:(discriminate) Hall) as Hjoin.
    cbv beta in Hjoin. unfold string in *. cbn [length]. lia.
Qed.

Lemma spaces_gap (space : nat) :
  forallb isJsonSpace (repeat Ch.SPACE space) = true.
Proof. induction space as [|n IH]; [reflexivity|]. exact IH. Qed.

(** What [JSON.stringify] writes for a well-formed value without an
    infinity, [JSON.parse] reads back. *)
Lemma parse_stringify (value : JsonValue) (space : nat) :
  wellFormed value = true -> finiteNumbers value = true ->
  parse (stringify value space) = Normal (withoutNegativeZero value).
Proof.
  intros Hwf Hfin. unfold parse, stringify.
  set (gap := repeat Ch.SPACE (Nat.min space 10)).
  assert (Hgap : forallb isJsonSpace gap = true) by apply spaces_gap.
  pose proof (cost_length gap value Hgap Hwf Hfin [] eq_refl) as Hcost.
  pose proof (serialize_ReadsBack gap Hgap value Hwf Hfin [] []
                (S (length (serialize gap [] value))) eq_refl
                ltac:(lia) eq_refl) as Hparse.
  rewrite List.app_nil_r in Hparse.
  destruct (serialize_head gap [] value Hwf Hfin) as (c & r & Hc & Hopen).
  destruct (opensValue_facts c Hopen) as (Hsp & _).
  rewrite Hparse. rewrite Hc. rewrite skipSpace_stop by assumption.
  reflexivity.
Qed.

(** ** What [JSON.parse] returns is well formed *)

Lemma parseNumber_binary64 (s rest : string) (x : spec_float) :
  parseNumber s = Some (x, rest) -> isBinary64 x = true.
Proof.
  assert (H : forall negative s,
             parseUnsigned negative s = Some (x, rest) ->
             isBinary64 x = true).
  { intros negative s0. unfold parseUnsigned.
    destruct (integerPart s0) as [[int s1]|]; [|discriminate].
    destruct (fractionPart s1) as [[frac s2]|]; [|discriminate].
    destruct (exponentPart s2) as [[exponent r]|]; [|discriminate].
    intros E. injection E as <- _. apply toNumber_binary64. }
  unfold parseNumber. destruct s as [|c s]; [discriminate|].
  destruct (c =? MINUS); apply H.
Qed.

Lemma parseValue_step (fuel : nat) (s : string) :
  parseValue (S fuel) s
  = match skipSpace s with
    | [] => None
    | c :: s1 =>
        if c =? LBRACE then
          match skipSpace s1 with
          | [] => None
          | c1 :: s2 =>
              if c1 =? RBRACE then Some (JObject [], s2)
              else parseMembers fuel s1 []
          end
        else if c =? Ch.LBRACKET then
          match skipSpace s1 with
          | [] => None
          | c1 :: s2 =>
              if c1 =? Ch.RBRACKET then Some (JArray [], s2)
              else parseElements fuel s1 []
          end
        else if c =? Ch.QUOTE then
          match parseCharacters s1 with
          | Some (value, rest) => Some (JString value, rest)
          | None => None
          end
        else if c =? Ch.t then literal "true" (JBoolean true) (c :: s1)
        else if c =? Ch.f then literal "false" (JBoolean false) (c :: s1)
        else if c =? Ch.n then literal "null" JNull (c :: s1)
        else
          match parseNumber (c :: s1) with
          | Some (x, rest) => Some (JNumber x, rest)
          | None => None
          end
    end.
Proof. reflexivity. Qed.

Lemma parseMembers_unfold (fuel : nat) (s : string)
  (done : list (string * JsonValue)) :
  parseMembers (S fuel) s done
  = match skipSpace s with
    | [] => None
    | c :: s1 =>
        if c =? Ch.QUOTE then
          match parseCharacters s1 with
          | None => None
          | Some (key, s2) =>
              match skipSpace s2 with
              | [] => None
              | c2 :: s3 =>
                  if c2 =? COLON then
                    match parseValue fuel s3 with
                    | None => None
                    | Some (value, s4) =>
                        let members := CreateDataProperty done key value in
                        match skipSpace s4 with
                        | [] => None
                        | c4 :: s5 =>
                            if c4 =? COMMA
                            then parseMembers fuel s5 members
                            else if c4 =? RBRACE
                            then Some (JObject members, s5)
                            else None
                        end
                    end
                  else None
              end
          end
        else None
    end.
Proof. reflexivity. Qed.

Lemma literal_value (word : String.string) (value v : JsonValue)
  (s rest : string) :
  literal word value s = Some (v, rest) -> v = value.
Proof.
  unfold literal. destruct (starts_with _ _); [|discriminate].
  intros E. injection E as <- _. reflexivity.
Qed.

Lemma parsers_wellFormed (fuel : nat) :
  (forall s v rest,
      parseValue fuel s = Some (v, rest) -> wellFormed v = true)
  /\ (forall s done v rest,
         forallb wellFormed done = true ->
         parseElements fuel s done = Some (v, rest) ->
         wellFormed v = true)
  /\ (forall s done v rest,
         keysInOrder (map fst done) = true ->
         forallb (fun m => wellFormed (snd m)) done = true ->
         parseMembers fuel s done = Some (v, rest) ->
         wellFormed v = true).
Proof.
  induction fuel as [|fuel (IHv & IHe & IHm)];
    [repeat split; intros; discriminate|].
  repeat split.
  - intros s v rest. rewrite parseValue_step.
    destruct (skipSpace s) as [|c s1]; [discriminate|].
    destruct (c =? LBRACE).
    { destruct (skipSpace s1) as [|c1 s2]; [discriminate|].
      destruct (c1 =? RBRACE).
      - intros E. injection E as <- _. reflexivity.
      - apply IHm; reflexivity. }
    destruct (c =? Ch.LBRACKET).
    { destruct (skipSpace s1) as [|c1 s2]; [discriminate|].
      destruct (c1 =? Ch.RBRACKET).
      - intros E. injection E as <- _. reflexivity.
      - apply IHe; reflexivity. }
    destruct (c =? Ch.QUOTE).
    { destruct (parseCharacters s1) as [[value r]|]; [|discriminate].
      intros E. injection E as <- _. reflexivity. }
    destruct (c =? Ch.t);
      [intros E; apply literal_value in E; subst; reflexivity|].
    destruct (c =? Ch.f);
      [intros E; apply literal_value in E; subst; reflexivity|].
    destruct (c =? Ch.n);
      [intros E; apply literal_value in E; subst; reflexivity|].
    destruct (parseNumber (c :: s1)) as [[x r]|] eqn:Hn; [|discriminate].
    intros E. injection E as <- _. cbn [wellFormed].
    apply (parseNumber_binary64 _ _ _ Hn).
  - intros s done v rest Hdone. rewrite parseElements_step.
    destruct (parseValue fuel s) as [[value s1]|] eqn:Hv; [|discriminate].
    apply IHv in Hv.
    destruct (skipSpace s1) as [|c s2]; [discriminate|].
    destruct (c =? COMMA).
    { apply IHe. cbn [forallb]. rewrite Hv, Hdone. reflexivity. }
    destruct (c =? Ch.RBRACKET); [|discriminate].
    intros E. injection E as <- _. cbn [wellFormed].
    apply forallb_forall. intros y Hy.
    apply in_app_or in Hy as [Hy|[<-|[]]]; [|exact Hv].
    rewrite <- in_rev in Hy. rewrite forallb_forall in Hdone. auto.
  - intros s done v rest Hord Hdone. rewrite parseMembers_unfold.
    destruct (skipSpace s) as [|c s1]; [discriminate|].
    destruct (c =? Ch.QUOTE); [|discriminate].
    destruct (parseCharacters s1) as [[key s2]|]; [|discriminate].
    destruct (skipSpace s2) as [|c2 s3]; [discriminate|].
    destruct (c2 =? COLON); [|discriminate].
    destruct (parseValue fuel s3) as [[value s4]|] eqn:Hv; [|discriminate].
    apply IHv in Hv. cbv zeta.
    pose proof (CreateDataProperty_inOrder done key value Hord) as Hord'.
    pose proof (CreateDataProperty_values wellFormed done key value Hdone Hv)
      as Hdone'.
    destruct (skipSpace s4) as [|c4 s5]; [discriminate|].
    destruct (c4 =? COMMA); [apply IHm; assumption|].
    destruct (c4 =? RBRACE); [|discriminate].
    intros E. injection E as <- _. cbn [wellFormed].
    rewrite Hord', Hdone'. reflexivity.
Qed.

Lemma parse_wellFormed (text : string) (value : JsonValue) :
  parse text = Normal value -> wellFormed value = true.
Proof.
  unfold parse. destruct (skipSpace text); [discriminate|].
  destruct (parseValue _ text) as [[v rest]|] eqn:Hv; [|discriminate].
  destruct (skipSpace rest); [|discriminate].
  intros E. injection E as <-.
  apply (proj1 (parsers_wellFormed _) _ _ _ Hv).
Qed.
End EcmaParse.

Module EcmaFuel.
Import Ecma EcmaRoundTrip EcmaParse.
Local Open Scope N_scope.

(** ** The fuel of [parse] is enough for every text *)

Lemma parsers_more_fuel (fuel : nat) :
  (forall s result,
      parseValue fuel s = Some result ->
      parseValue (S fuel) s = Some result)
  /\ (forall s done result,
         parseElements fuel s done = Some result ->
         parseElements (S fuel) s done = Some result)
  /\ (forall s done result,
         parseMembers fuel s done = Some result ->
         parseMembers (S fuel) s done = Some result).
Proof.
  induction fuel as [|fuel (IHv & IHe & IHm)];
    [repeat split; intros; discriminate|].
  repeat split.
  - intros s result. rewrite (parseValue_step (S fuel)), parseValue_step.
    destruct (skipSpace s) as [|c s1]; [discriminate|].
    destruct (c =? LBRACE).
    { destruct (skipSpace s1) as [|c1 s2]; [discriminate|].
      destruct (c1 =? RBRACE); [auto | apply IHm]. }
    destruct (c =? Ch.LBRACKET).
    { destruct (skipSpace s1) as [|c1 s2]; [discriminate|].
      destruct (c1 =? Ch.RBRACKET); [auto | apply IHe]. }
    auto.
  - intros s done result.
    rewrite (parseElements_step (S fuel)), parseElements_step.
    destruct (parseValue fuel s) as [[value s1]|] eqn:Hv; [|discriminate].
    rewrite (IHv _ _ Hv).
    destruct (skipSpace s1) as [|c s2]; [discriminate|].
    destruct (c =? COMMA); [apply IHe | auto].
  - intros s done result.
    rewrite (parseMembers_unfold (S fuel)), parseMembers_unfold.
    destruct (skipSpace s) as [|c s1]; [discriminate|].
    destruct (c =? Ch.QUOTE); [|discriminate].
    destruct (parseCharacters s1) as [[key s2]|]; [|discriminate].
    destruct (skipSpace s2) as [|c2 s3]; [discriminate|].
    destruct (c2 =? COLON); [|discriminate].
    destruct (parseValue fuel s3) as [[value s4]|] eqn:Hv; [|discriminate].
    rewrite (IHv _ _ Hv). cbv zeta.
    destruct (skipSpace s4) as [|c4 s5]; [discriminate|].
    destruct (c4 =? COMMA); [apply IHm | auto].
Qed.

Lemma parseValue_more (fuel fuel' : nat) (s : string)
  (result : JsonValue * string) :
  (fuel <= fuel')%nat -> parseValue fuel s = Some result ->
  parseValue fuel' s = Some result.
Proof.
  induction 1 as [|fuel' _ IH]; [auto|]. intros H.
  apply (proj1 (parsers_more_fuel fuel')). auto.
Qed.

Lemma parseElements_more (fuel fuel' : nat) (s : string)
  (done : list JsonValue) (result : JsonValue * string) :
  (fuel <= fuel')%nat -> parseElements fuel s done = Some result ->
  parseElements fuel' s done = Some result.
Proof.
  induction 1 as [|fuel' _ IH]; [auto|]. intros H.
  apply (proj1 (proj2 (parsers_more_fuel fuel'))). auto.
Qed.

Lemma parseMembers_more (fuel fuel' : nat) (s : string)
  (done : list (string * JsonValue)) (result : JsonValue * string) :
  (fuel <= fuel')%nat -> parseMembers fuel s done = Some result ->
  parseMembers fuel' s done = Some result.
Proof.
  induction 1 as [|fuel' _ IH]; [auto|]. intros H.
  apply (proj2 (proj2 (parsers_more_fuel fuel'))). auto.
Qed.

(** *** What the parsers consume *)

Lemma skipSpace_length (s : string) :
  (length (skipSpace s) <= length s)%nat.
Proof.
  induction s as [|c s IH]; [reflexivity|]. cbn [skipSpace].
  destruct (isJsonSpace c); cbn [length]; lia.
Qed.

Lemma skipSpace_cons (s : string) (c : char) (s1 : string) :
  skipSpace s = c :: s1 -> (length s1 < length s)%nat.
Proof.
  intros H. pose proof (skipSpace_length s) as Hl. rewrite H in Hl.
  cbn [length] in Hl. lia.
Qed.

Lemma takeDigits_length (s : string) :
  (length (snd (takeDigits s)) <= length s)%nat.
Proof.
  induction s as [|c s IH]; [reflexivity|]. cbn [takeDigits].
  destruct (isDigit c); [|reflexivity].
  destruct (takeDigits s) as [ds rest]. cbn [snd length] in *. lia.
Qed.

Lemma parseCharacters_length (s : string) :
  forall value rest,
    parseCharacters s = Some (value, rest) -> (length rest < length s)%nat.
Proof.
  assert (H : forall n s, (length s <= n)%nat ->
                forall value rest,
                  parseCharacters s = Some (value, rest) ->
                  (length rest < length s)%nat).
  { clear s. induction n as [|n IH]; intros s Hn value rest.
    - destruct s; [discriminate | cbn [length] in Hn; lia].
    - destruct s as [|c s1]; [discriminate|]. cbn [length] in Hn.
      cbn [parseCharacters].
      destruct (c =? Ch.QUOTE).
      { intros E. injection E as _ <-. cbn [length]. lia. }
      destruct (c =? Ch.BACKSLASH).
      { destruct s1 as [|c1 s2]; [discriminate|]. cbn [length] in Hn.
        destruct (c1 =? u).
        - destruct s2 as [|h3 [|h2 [|h1 [|h0 s3]]]]; try discriminate.
          destruct (hex4 h3 h2 h1 h0); [|discriminate].
          destruct (parseCharacters s3) as [[v r]|] eqn:Hs3; [|discriminate].
          intros E. injection E as _ <-.
          apply IH in Hs3; cbn [length] in *; lia.
        - destruct (escapeCharacter c1); [|discriminate].
          destruct (parseCharacters s2) as [[v r]|] eqn:Hs2; [|discriminate].
          intros E. injection E as _ <-.
          apply IH in Hs2; cbn [length] in *; lia. }
      destruct (c <? 32); [discriminate|].
      destruct (parseCharacters s1) as [[v r]|] eqn:Hs1; [|discriminate].
      intros E. injection E as _ <-.
      apply IH in Hs1; cbn [length] in *; lia. }
  apply (H (length s)). lia.
Qed.

Lemma parseUnsigned_length (negative : bool) (s : string)
  (x : spec_float) (rest : string) :
  parseUnsigned negative s = Some (x, rest) ->
  (length rest < length s)%nat.
Proof.
  unfold parseUnsigned.
  destruct (integerPart s) as [[int s1]|] eqn:Hint; [|discriminate].
  assert (H1 : (length s1 < length s)%nat).
  { unfold integerPart in Hint. destruct s as [|c s']; [discriminate|].
    destruct (c =? ZERO).
    - injection Hint as _ <-. cbn [length]. lia.
    - destruct (isDigit c) eqn:Hc; [|discriminate].
      injection Hint as Hint. cbn [takeDigits] in Hint. rewrite Hc in Hint.
      pose proof (takeDigits_length s') as Hl.
      destruct (takeDigits s') as [ds r]. injection Hint as _ <-.
      cbn [snd length] in *. lia. }
  destruct (fractionPart s1) as [[frac s2]|] eqn:Hfrac; [|discriminate].
  assert (H2 : (length s2 <= length s1)%nat).
  { unfold fractionPart in Hfrac. destruct s1 as [|c s']; [|destruct (c =? Ch.DOT)].
    - injection Hfrac as _ <-. lia.
    - pose proof (takeDigits_length s') as Hl.
      destruct (takeDigits s') as [[|d ds] r]; [discriminate|].
      injection Hfrac as _ <-. cbn [snd length] in *. lia.
    - injection Hfrac as _ <-. lia. }
  destruct (exponentPart s2) as [[exponent r]|] eqn:Hexp; [|discriminate].
  assert (H3 : (length r <= length s2)%nat).
  { unfold exponentPart in Hexp.
    destruct s2 as [|c s']; [|destruct ((c =? e) || (c =? LetterE))].
    - injection Hexp as _ <-. lia.
    - unfold signedDigits in Hexp.
      destruct s' as [|c' s'']; [discriminate|].
      destruct ((c' =? MINUS) || (c' =? PLUS)).
      + pose proof (takeDigits_length s'') as Hl.
        destruct (takeDigits s'') as [[|d ds] r']; [discriminate|].
        injection Hexp as _ <-. cbn [snd length] in *. lia.
      + pose proof (takeDigits_length (c' :: s'')) as Hl.
        destruct (takeDigits (c' :: s'')) as [[|d ds] r']; [discriminate|].
        injection Hexp as _ <-. cbn [snd length] in *. lia.
    - injection Hexp as _ <-. lia. }
  intros E. injection E as _ <-. lia.
Qed.

Lemma parseNumber_length (s : string) (x : spec_float) (rest : string) :
  parseNumber s = Some (x, rest) -> (length rest < length s)%nat.
Proof.
  unfold parseNumber. destruct s as [|c s']; [discriminate|].
  destruct (c =? MINUS); intros H; apply parseUnsigned_length in H;
    cbn [length] in *; lia.
Qed.

Lemma literal_length (word : String.string) (value v : JsonValue)
  (s rest : string) :
  lit word <> [] -> literal word value s = Some (v, rest) ->
  (length rest < length s)%nat.
Proof.
  unfold literal. intros Hw. destruct (starts_with (lit word) s) eqn:Hs;
    [|discriminate].
  intros E. injection E as _ <-. rewrite length_skipn.
  destruct (lit word) as [|w ws]; [congruence|].
  destruct s; [discriminate Hs|]. cbn [length]. lia.
Qed.

(** A parser that succeeds does so with one call for each code unit it
    consumes. *)
Lemma parsers_consume (fuel : nat) :
  (forall s v rest,
      parseValue fuel s = Some (v, rest) ->
      (length rest < length s)%nat
      /\ parseValue (length s - length rest) s = Some (v, rest))
  /\ (forall s done v rest,
         parseElements fuel s done = Some (v, rest) ->
         (length rest < length s)%nat
         /\ parseElements (length s - length rest) s done = Some (v, rest))
  /\ (forall s done v rest,
         parseMembers fuel s done = Some (v, rest) ->
         (length rest < length s)%nat
         /\ parseMembers (length s - length rest) s done = Some (v, rest)).
Proof.
  induction fuel as [|fuel (IHv & IHe & IHm)];
    [repeat split; intros; discriminate|].
  split; [|split].
  - intros s v rest H.
    assert (Hlen : (length rest < length s)%nat).
    { revert H. rewrite parseValue_step.
      pose proof (skipSpace_length s) as Hs.
      destruct (skipSpace s) as [|c s1]; [discriminate|].
      cbn [length] in Hs.
      destruct (c =? LBRACE).
      { pose proof (skipSpace_length s1) as Hs1.
        destruct (skipSpace s1) as [|c1 s2]; [discriminate|].
        cbn [length] in Hs1. destruct (c1 =? RBRACE).
        - intros E. injection E as _ <-. lia.
        - intros E. apply IHm in E. lia. }
      destruct (c =? Ch.LBRACKET).
      { pose proof (skipSpace_length s1) as Hs1.
        destruct (skipSpace s1) as [|c1 s2]; [discriminate|].
        cbn [length] in Hs1. destruct (c1 =? Ch.RBRACKET).
        - intros E. injection E as _ <-. lia.
        - intros E. apply IHe in E. lia. }
      destruct (c =? Ch.QUOTE).
      { destruct (parseCharacters s1) as [[value r]|] eqn:Hc; [|discriminate].
        intros E. injection E as _ <-.
        apply parseCharacters_length in Hc. lia. }
      destruct (c =? Ch.t);
        [intros E; apply literal_length in E;
         [cbn [length] in E; lia | discriminate]|].
      destruct (c =? Ch.f);
        [intros E; apply literal_length in E;
         [cbn [length] in E; lia | discriminate]|].
      destruct (c =? Ch.n);
        [intros E; apply literal_length in E;
         [cbn [length] in E; lia | discriminate]|].
      destruct (parseNumber (c :: s1)) as [[x r]|] eqn:Hn; [|discriminate].
      intros E. injection E as _ <-.
      apply parseNumber_length in Hn. cbn [length] in Hn. lia. }
    split; [exact Hlen|].
    destruct (length s - length rest)%nat as [|g] eqn:Hg; [lia|].
    revert H. rewrite (parseValue_step g), parseValue_step.
    pose proof (skipSpace_length s) as Hs.
    destruct (skipSpace s) as [|c s1]; [discriminate|].
    cbn [length] in Hs.
    destruct (c =? LBRACE).
    { destruct (skipSpace s1) as [|c1 s2]; [discriminate|].
      destruct (c1 =? RBRACE); [auto|].
      intros E. apply IHm in E as [Hl E].
      apply (parseMembers_more (length s1 - length rest)); [lia | exact E]. }
    destruct (c =? Ch.LBRACKET).
    { destruct (skipSpace s1) as [|c1 s2]; [discriminate|].
      destruct (c1 =? Ch.RBRACKET); [auto|].
      intros E. apply IHe in E as [Hl E].
      apply (parseElements_more (length s1 - length rest)); [lia | exact E]. }
    auto.
  - intros s done v rest. rewrite parseElements_step.
    destruct (parseValue fuel s) as [[value s1]|] eqn:Hv; [|discriminate].
    apply IHv in Hv as [Hl1 Hv].
    pose proof (skipSpace_length s1) as Hs1.
    destruct (skipSpace s1) as [|c s2] eqn:Hskip; [discriminate|].
    cbn [length] in Hs1.
    destruct (c =? COMMA) eqn:Hc.
    + intros E. apply IHe in E as [Hl2 E]. split; [lia|].
      destruct (length s - length rest)%nat as [|g] eqn:Hg; [lia|].
      rewrite parseElements_step.
      rewrite (parseValue_more (length s - length s1) g _ _ ltac:(lia) Hv),
        Hskip, Hc.
      apply (parseElements_more (length s2 - length rest)); [lia | exact E].
    + destruct (c =? Ch.RBRACKET) eqn:Hb; [|discriminate].
      intros E. injection E as <- <-. split; [lia|].
      destruct (length s - length s2)%nat as [|g] eqn:Hg; [lia|].
      rewrite parseElements_step.
      rewrite (parseValue_more (length s - length s1) g _ _ ltac:(lia) Hv),
        Hskip, Hc, Hb.
      reflexivity.
  - intros s done v rest. rewrite parseMembers_unfold.
    pose proof (skipSpace_length s) as Hs.
    destruct (skipSpace s) as [|c s1] eqn:Hskip0; [discriminate|].
    cbn [length] in Hs.
    destruct (c =? Ch.QUOTE) eqn:Hq; [|discriminate].
    destruct (parseCharacters s1) as [[key s2]|] eqn:Hkey; [|discriminate].
    pose proof (parseCharacters_length _ _ _ Hkey) as Hl2.
    pose proof (skipSpace_length s2) as Hs2.
    destruct (skipSpace s2) as [|c2 s3] eqn:Hskip2; [discriminate|].
    cbn [length] in Hs2.
    destruct (c2 =? COLON) eqn:Hcolon; [|discriminate].
    destruct (parseValue fuel s3) as [[value s4]|] eqn:Hv; [|discriminate].
    apply IHv in Hv as [Hl4 Hv]. cbv zeta.
    pose proof (skipSpace_length s4) as Hs4.
    destruct (skipSpace s4) as [|c4 s5] eqn:Hskip4; [discriminate|].
    cbn [length] in Hs4.
    destruct (c4 =? COMMA) eqn:Hc.
    + intros E. apply IHm in E as [Hl5 E]. split; [lia|].
      destruct (length s - length rest)%nat as [|g] eqn:Hg; [lia|].
      rewrite parseMembers_unfold, Hskip0, Hq, Hkey, Hskip2, Hcolon.
      rewrite (parseValue_more (length s3 - length s4) g _ _ ltac:(lia) Hv).
      cbv zeta.
      rewrite Hskip4, Hc.
      apply (parseMembers_more (length s5 - length rest)); [lia | exact E].
    + destruct (c4 =? RBRACE) eqn:Hb; [|discriminate].
      intros E. injection E as <- <-. split; [lia|].
      destruct (length s - length s5)%nat as [|g] eqn:Hg; [lia|].
      rewrite parseMembers_unfold, Hskip0, Hq, Hkey, Hskip2, Hcolon.
      rewrite (parseValue_more (length s3 - length s4) g _ _ ltac:(lia) Hv).
      cbv zeta.
      rewrite Hskip4, Hc, Hb. reflexivity.
Qed.

(** Whatever amount of fuel lets a text be read, the fuel of [parse]
    does. *)
Lemma parse_fuel_enough (fuel : nat) (text : string) (value : JsonValue)
  (rest : string) :
  parseValue fuel text = Some (value, rest) ->
  parseValue (S (length text)) text = Some (value, rest).
Proof.
  intros H. apply (proj1 (parsers_consume fuel)) in H as [Hl H].
  apply (parseValue_more (length text - length rest)); [lia | exact H].
Qed.
End EcmaFuel.

(** ** Format, then parse again *)

(** C3 (as amended).  With the JSON object of the language standard: for
    every valid JSON text whose parse holds no infinity (no number literal
    beyond the binary64 range), the pretty serialization of the parse is
    read back as the parse itself, every object with its keys in the same
    order, save that a negative zero comes back as zero; and this
    serialization is what [handleFormat] leaves in the buffer. *)
Theorem pretty_round_trip (T : string) (parsed : JsonValue) (s : Session) :
  JSON_parse (JsonEngine := Ecma.engine) T = Normal parsed ->
  Ecma.finiteNumbers parsed = true ->
  JSON_parse (JsonEngine := Ecma.engine)
    (JSON_stringify (JsonEngine := Ecma.engine) parsed 2)
  = Normal (Ecma.withoutNegativeZero parsed)
  /\ fst (handleFormat (engine := Ecma.engine) T s) = true
  /\ jsonInput (snd (handleFormat (engine := Ecma.engine) T s))
     = JSON_stringify (JsonEngine := Ecma.engine) parsed 2.
Proof.
  intros Hparse Hfinite. split.
  - apply EcmaParse.parse_stringify; [|exact Hfinite].
    apply (EcmaParse.parse_wellFormed T). exact Hparse.
  - unfold handleFormat. rewrite Hparse. split; reflexivity.
Qed.

(** C3, at a document with an object in an array. *)
Lemma pretty_round_trip_witness :
  let parsed :=
    JArray [JNumber (S754_finite false 6755399441055744 (-52));
            JNumber (S754_zero true);
            JObject [(lit "1", JNull);
                     (lit "b", JNumber (S754_finite false 4611686018427388
                                          (-61)));
                     (lit "a", JString [120; Ch.LF])]] in
  JSON_parse (JsonEngine := Ecma.engine) Examples.mixed = Normal parsed
  /\ Ecma.finiteNumbers parsed = true
  /\ JSON_parse (JsonEngine := Ecma.engine)
       (jsonInput
          (snd (handleFormat (engine := Ecma.engine) Examples.mixed
                  Examples.start)))
     = Normal (Ecma.withoutNegativeZero parsed).
Proof.
  cbv zeta.
  assert (Hparse : JSON_parse (JsonEngine := Ecma.engine) Examples.mixed
                   = Normal
                       (JArray
                          [JNumber (S754_finite false 6755399441055744 (-52));
                           JNumber (S754_zero true);
                           JObject
                             [(lit "1", JNull);
                              (lit "b",
                               JNumber
                                 (S754_finite false 4611686018427388 (-61)));
                              (lit "a", JString [120; Ch.LF])]]))
    by (vm_compute; reflexivity).
  split; [exact Hparse|]. split; [reflexivity|].
  destruct (pretty_round_trip Examples.mixed _ Examples.start Hparse eq_refl)
    as (Hback & _ & Hbuffer).
  rewrite Hbuffer. exact Hback.
Defined.

(** C3, counterexample.  The literal [1e999] is beyond the binary64 range
    and is read as an infinity, which is written as [null]: the text
    [[1e999]] is valid, and its pretty serialization parses to another
    value. *)
Lemma pretty_round_trip_overflow :
  let T := lit "[1e999]" in
  let first := JArray [JNumber (S754_infinity false)] in
  JSON_parse (JsonEngine := Ecma.engine) T = Normal first
  /\ JSON_stringify (JsonEngine := Ecma.engine) first 2
     = [Ch.LBRACKET; Ch.LF] ++ lit "  null" ++ [Ch.LF; Ch.RBRACKET]
  /\ JSON_parse (JsonEngine := Ecma.engine)
       (JSON_stringify (JsonEngine := Ecma.engine) first 2)
     = Normal (JArray [JNull])
  /\ JSON_parse (JsonEngine := Ecma.engine)
       (JSON_stringify (JsonEngine := Ecma.engine) first 2)
     <> Normal first.
Proof.
  cbv zeta. repeat split; try (vm_compute; reflexivity).
  vm_compute. discriminate.
Qed.

(** The keys of an object come back in the order of [Object.keys], which
    is not always the order of the text: an array index goes before the
    other keys. *)
Example keys_in_property_order :
  JSON_parse (JsonEngine := Ecma.engine) Examples.indexLast
  = Normal (JObject [(lit "1", JBoolean false); (lit "b", JBoolean true)]).
Proof. vm_compute. reflexivity. Qed.
